(** * kitty-ui: scene graph, renderer, key decoder and focus handling

    A shallow embedding of the TypeScript library and the properties stated
    about it. Where the embedded code lives:
    - [Node] ([addChild], [removeChild], [updateTransform],
      [getTabbableChildren]): [src/lib/node.ts];
    - [Scene], in its version with the list [focusableComponents]
      ([addChild], [removeChild], [sortFocusableComponents], [setFocus],
      [handleKey]): [scene.ts], the third part of [src/lib/node.ts];
    - [Renderer] ([renderScene], [_renderNode]): [renderer.ts],
      [src/unnamed/part_000];
    - [Rectangle], [Text], [Group] and their [render]:
      [src/lib/components.ts];
    - [KEY_MAPPING], [KeyboardInputHandler] ([_handleInput], [_handleKey])
      and [InputManager]: [input_handler.ts], the second part of
      [src/lib/components.ts];
    - [KittyUtil]: [src/lib/kitty.ts];
    - [FocusableComponent], [findScene], [Button], [TextInput] and
      [TabContainer]: [src/lib/input_components.ts];
    - the message input of the chat example with its [enter] handler:
      [test/chat_ui.ts].

    Conventions of the embedding.
    - A JavaScript [number] that holds a cell coordinate, a size, a colour
      channel or a tab index is an integer [Z] (the library only ever adds
      and compares them; integers below 2^53 are exact in a double).
    - A JavaScript string is a [string] of 8-bit characters; every control
      sequence of the library is ASCII.
    - Object references are identifiers [id]; the objects live in a store
      [gmap id node] read with the total lookup [!!!], so a reference always
      denotes an object, as in the source. An identifier the store has no
      entry for reads as a freshly constructed [Group].
    - Loops that follow the store (the recursion over [children]) take a
      [fuel] argument; the properties show that enough fuel gives a result. *)

From Stdlib Require Import ZArith Strings.String Strings.Ascii Numbers.DecimalString.
From stdpp Require Import base option list gmap strings.

Local Open Scope Z_scope.

(** ** Strings *)

Module Str.

(** The character ESC (0x1b), TAB, CR, LF and DEL as one-character strings. *)
Definition chr (n : nat) : string := String (ascii_of_nat n) EmptyString.
Definition ESC : string := chr 27.
Definition TAB : string := chr 9.
Definition CR : string := chr 13.
Definition LF : string := chr 10.
Definition DEL : string := chr 127.

(** [`${n}`] for an integer-valued number. *)
Definition ofZ (n : Z) : string := NilZero.string_of_int (Z.to_int n).

(** [s.startsWith(p)] *)
Definition startsWith (s p : string) : bool := String.prefix p s.

(** [s.substring(n)] for [0 <= n]. *)
Fixpoint substring (n : nat) (s : string) : string :=
  match n, s with
  | O, _ => s
  | S n', String _ s' => substring n' s'
  | S _, EmptyString => EmptyString
  end.

(** [c.repeat(n)]; a negative count raises a RangeError. *)
Fixpoint replicate (n : nat) (c : string) : string :=
  match n with
  | O => EmptyString
  | S n' => (c ++ replicate n' c)%string
  end.

Definition repeat (c : string) (n : Z) : option string :=
  if n <? 0 then None else Some (replicate (Z.to_nat n) c).

End Str.

(** ** Key decoder *)

Module Decoder.
Import Str.

(** [KEY_MAPPING], in the order the object literal lists its properties.
    No key is an array index, so [for (const seq in KEY_MAPPING)] visits
    them in this order. *)
Definition KEY_MAPPING : list (string * string) :=
  [ ((ESC ++ "[A")%string, "up"%string);
    ((ESC ++ "[B")%string, "down"%string);
    ((ESC ++ "[C")%string, "right"%string);
    ((ESC ++ "[D")%string, "left"%string);
    ((ESC ++ "[H")%string, "home"%string);
    ((ESC ++ "[F")%string, "end"%string);
    ((ESC ++ "[3~")%string, "delete"%string);
    ((ESC ++ "[5~")%string, "page_up"%string);
    ((ESC ++ "[6~")%string, "page_down"%string);
    (ESC, "escape"%string);
    (CR, "enter"%string);
    (LF, "enter"%string);
    (TAB, "tab"%string);
    (" "%string, "space"%string);
    (DEL, "backspace"%string);
    ((ESC ++ "[Z")%string, "shift_tab"%string) ].

(** The [for ... in] loop of [_handleInput]: the first entry whose
    sequence the input starts with. *)
Fixpoint firstMatch (table : list (string * string)) (currentInput : string)
  : option (string * string) :=
  match table with
  | [] => None
  | (seq, key) :: table' =>
      if startsWith currentInput seq then Some (seq, key)
      else firstMatch table' currentInput
  end.

(** One turn of the [while] loop: the token handed to [_handleKey] and
    the rest of the input. *)
Definition step (currentInput : string) : option (string * string) :=
  match currentInput with
  | EmptyString => None
  | String c rest =>
      match firstMatch KEY_MAPPING currentInput with
      | Some (seq, key) => Some (key, substring (String.length seq) currentInput)
      | None => Some (String c EmptyString, rest)
      end
  end.

(** [_handleInput]: the tokens handed to [_handleKey], in order. The loop
    runs while the input is not empty; [fuel] bounds its turns. *)
Fixpoint handleInputLoop (fuel : nat) (currentInput : string) : option (list string) :=
  match step currentInput with
  | None => Some []
  | Some (key, rest) =>
      match fuel with
      | O => None
      | S fuel' =>
          match handleInputLoop fuel' rest with
          | Some keys => Some (key :: keys)
          | None => None
          end
      end
  end.

Definition _handleInput (input : string) : option (list string) :=
  handleInputLoop (String.length input) input.

End Decoder.

(** ** Protocol formatter *)

Module KittyUtil.
Import Str.

(** Each method writes one chunk to [stdout]; the chunk is the result. *)
Definition clearScreen : string := (ESC ++ "[2J" ++ ESC ++ "[H")%string.

Definition moveCursor (row col : Z) : string :=
  (ESC ++ "[" ++ ofZ row ++ ";" ++ ofZ col ++ "H")%string.

Definition setForegroundColor (r g b : Z) : string :=
  (ESC ++ "[38;2;" ++ ofZ r ++ ";" ++ ofZ g ++ ";" ++ ofZ b ++ "m")%string.

Definition setBackgroundColor (r g b : Z) : string :=
  (ESC ++ "[48;2;" ++ ofZ r ++ ";" ++ ofZ g ++ ";" ++ ofZ b ++ "m")%string.

Definition resetColors : string := (ESC ++ "[0m")%string.

End KittyUtil.

(** ** Scene graph *)

Abbreviation id := nat.

(** What a node draws. [Rectangle], [Text] and [Group] are the classes of
    [components.ts]; [Button], [TextInput], [TabContainer] and [Scene] extend
    [Group] and inherit its empty [render]. [Image] nodes (asynchronous,
    decoding done by an external library) are left out. *)
Inductive shape :=
| Rectangle (size : Z * Z) (color : Z * Z * Z) (fill : bool)
| Text (text : string) (color : Z * Z * Z)
| Group.

(** The [FocusableComponent] part of a node: present when the object has an
    [isFocused] property and an [onFocus] method. [tabIndex] is [None] when
    the property is [undefined]. *)
Record focusable := mkFocusable {
  isFocused : bool;
  tabIndex : option Z
}.

Record node := mkNode {
  position : Z * Z;
  absolutePosition : Z * Z;
  parent : option id;
  children : list id;
  visible : bool;
  draws : shape;
  focus : option focusable
}.

(** [new C(position)]: the [Node] constructor. *)
Definition newNode (pos : Z * Z) (d : shape) (f : option focusable) : node :=
  {| position := pos; absolutePosition := pos; parent := None; children := [];
     visible := true; draws := d; focus := f |}.

#[global] Instance node_inhabited : Inhabited node :=
  populate (newNode (0, 0) Group None).

(** Field assignments. *)
Definition withAbsolutePosition (nd : node) (a : Z * Z) : node :=
  {| position := position nd; absolutePosition := a; parent := parent nd;
     children := children nd; visible := visible nd; draws := draws nd;
     focus := focus nd |}.

Definition withParent (nd : node) (p : option id) : node :=
  {| position := position nd; absolutePosition := absolutePosition nd; parent := p;
     children := children nd; visible := visible nd; draws := draws nd;
     focus := focus nd |}.

Definition withChildren (nd : node) (l : list id) : node :=
  {| position := position nd; absolutePosition := absolutePosition nd;
     parent := parent nd; children := l; visible := visible nd; draws := draws nd;
     focus := focus nd |}.

Definition withVisible (nd : node) (v : bool) : node :=
  {| position := position nd; absolutePosition := absolutePosition nd;
     parent := parent nd; children := children nd; visible := v; draws := draws nd;
     focus := focus nd |}.

Definition withIsFocused (nd : node) (b : bool) : node :=
  {| position := position nd; absolutePosition := absolutePosition nd;
     parent := parent nd; children := children nd; visible := visible nd;
     draws := draws nd;
     focus := match focus nd with
              | Some f => Some {| isFocused := b; tabIndex := tabIndex f |}
              | None => None
              end |}.

(** [l.indexOf(x)], [None] standing for [-1]. *)
Fixpoint indexOf (l : list id) (x : id) : option nat :=
  match l with
  | [] => None
  | y :: l' => if decide (y = x) then Some O else S <$> indexOf l' x
  end.

(** [l.splice(i, 1)] *)
Definition splice1 (i : nat) (l : list id) : list id := delete i l.

(** [Node.removeChild] *)
Definition Node_removeChild (s : gmap id node) (this child : id) : gmap id node * bool :=
  match indexOf (children (s !!! this)) child with
  | Some index =>
      let s1 := <[this := withChildren (s !!! this) (splice1 index (children (s !!! this)))]> s in
      let s2 := <[child := withParent (s1 !!! child) None]> s1 in
      (s2, true)
  | None => (s, false)
  end.

(** [Node.updateTransform]. The recursion follows the [children] lists of the
    store; [fuel] bounds its depth and [None] means it ran out. *)
Definition addPos (a b : Z * Z) : Z * Z := (a.1 + b.1, a.2 + b.2).

Fixpoint forEach {S A : Type} (f : S → A → option S) (s : S) (l : list A) : option S :=
  match l with
  | [] => Some s
  | x :: l' =>
      match f s x with
      | Some s' => forEach f s' l'
      | None => None
      end
  end.

Fixpoint updateTransform (fuel : nat) (s : gmap id node) (this : id) : option (gmap id node) :=
  match fuel with
  | O => None
  | S fuel' =>
      let nd := s !!! this in
      let a := match parent nd with
               | Some p => addPos (absolutePosition (s !!! p)) (position nd)
               | None => position nd
               end in
      let s1 := <[this := withAbsolutePosition nd a]> s in
      forEach (updateTransform fuel') s1 (children nd)
  end.

(** [Node.getTabbableChildren]: the base implementation, which [Group] and
    [Scene] inherit unchanged. *)
Definition getTabbableChildren (s : gmap id node) (this : id) : list id := [].

(** ** Scene *)

(** Calls of callbacks the Scene makes, in order. *)
Inductive event :=
| OnFocus (c : id)
| OnBlur (c : id)
| Handler (key : string).

(** The store together with the fields of the one [Scene] object, which is
    the node [scene]. Of [keyboardHandlers] the registered keys are kept
    (names inherited from [Object.prototype] are not modelled). *)
Record state := mkState {
  nodes : gmap id node;
  scene : id;
  focusedComponent : option id;
  focusableComponents : list id;
  keyboardHandlers : list string;
  events : list event
}.

Definition withNodes (st : state) (s : gmap id node) : state :=
  {| nodes := s; scene := scene st; focusedComponent := focusedComponent st;
     focusableComponents := focusableComponents st;
     keyboardHandlers := keyboardHandlers st; events := events st |}.

Definition withFocusedComponent (st : state) (c : option id) : state :=
  {| nodes := nodes st; scene := scene st; focusedComponent := c;
     focusableComponents := focusableComponents st;
     keyboardHandlers := keyboardHandlers st; events := events st |}.

Definition withFocusableComponents (st : state) (l : list id) : state :=
  {| nodes := nodes st; scene := scene st; focusedComponent := focusedComponent st;
     focusableComponents := l;
     keyboardHandlers := keyboardHandlers st; events := events st |}.

Definition withKeyboardHandlers (st : state) (l : list string) : state :=
  {| nodes := nodes st; scene := scene st; focusedComponent := focusedComponent st;
     focusableComponents := focusableComponents st;
     keyboardHandlers := l; events := events st |}.

Definition emit (st : state) (e : event) : state :=
  {| nodes := nodes st; scene := scene st; focusedComponent := focusedComponent st;
     focusableComponents := focusableComponents st;
     keyboardHandlers := keyboardHandlers st; events := events st ++ [e] |}.

(** ['isFocused' in child && typeof child.onFocus === 'function'] *)
Definition isFocusable (s : gmap id node) (c : id) : bool :=
  match focus (s !!! c) with Some _ => true | None => false end.

(** The [onFocus] and [onBlur] callbacks of a component, as far as the Scene
    sees them: the component's [isFocused] flag and the call itself. The
    implementations in [Button] and [TextInput] also recolour their
    background and redraw the scene, which re-runs the transform pass; they
    touch neither the tree links nor the focus fields of the Scene, and
    this part of them is left out here; [onFocusDrawn] and [onBlurDrawn]
    below call the callbacks themselves, with their redraw and with what
    it throws. A node without the method is skipped by the [typeof]
    test. *)
Definition onFocus (st : state) (c : id) : state :=
  if isFocusable (nodes st) c
  then emit (withNodes st (<[c := withIsFocused (nodes st !!! c) true]> (nodes st))) (OnFocus c)
  else st.

Definition onBlur (st : state) (c : id) : state :=
  if isFocusable (nodes st) c
  then emit (withNodes st (<[c := withIsFocused (nodes st !!! c) false]> (nodes st))) (OnBlur c)
  else st.

(** [Scene.setFocus] *)
Definition setFocus (st : state) (component : option id) : state :=
  let st1 := match focusedComponent st with
             | Some f => onBlur st f
             | None => st
             end in
  let st2 := withFocusedComponent st1 component in
  match component with
  | Some c => onFocus st2 c
  | None => st2
  end.

(** [Scene.sortFocusableComponents]. [aIndex] is [None] for [Infinity]; the
    comparator's result is kept by its sign, [Infinity - Infinity] being
    [NaN], which [sort] takes as [0]. [Array.prototype.sort] is stable, so
    its result is the one of a stable insertion sort. *)
Definition tabIndexOf (s : gmap id node) (c : id) : option Z :=
  match focus (s !!! c) with
  | Some f => tabIndex f
  | None => None
  end.

Definition compareIndex (aIndex bIndex : option Z) : Z :=
  match aIndex, bIndex with
  | Some a, Some b => a - b
  | Some _, None => -1
  | None, Some _ => 1
  | None, None => 0
  end.

Fixpoint insertSorted (s : gmap id node) (a : id) (l : list id) : list id :=
  match l with
  | [] => [a]
  | b :: l' =>
      if compareIndex (tabIndexOf s a) (tabIndexOf s b) <=? 0
      then a :: b :: l'
      else b :: insertSorted s a l'
  end.

Definition sortFocusableComponents (s : gmap id node) (l : list id) : list id :=
  foldr (insertSorted s) [] l.

(** [Scene.removeChild] *)
Definition Scene_removeChild (st : state) (child : id) : state * bool :=
  let wasFocused := bool_decide (focusedComponent st = Some child) in
  let '(s1, removed) := Node_removeChild (nodes st) (scene st) child in
  if removed then
    let st1 := withNodes st s1 in
    let st2 := match indexOf (focusableComponents st1) child with
               | Some index =>
                   withFocusableComponents st1
                     (sortFocusableComponents (nodes st1)
                        (splice1 index (focusableComponents st1)))
               | None => st1
               end in
    let st3 := if wasFocused then setFocus st2 (head (focusableComponents st2)) else st2 in
    (st3, true)
  else (st, false).

(** The call [parent.removeChild(child)], dispatched on the class of
    [parent]. *)
Definition removeChild (st : state) (this child : id) : state * bool :=
  if decide (this = scene st) then Scene_removeChild st child
  else let '(s1, removed) := Node_removeChild (nodes st) this child in
       (withNodes st s1, removed).

(** [Node.addChild] *)
Definition Node_addChild (st : state) (this child : id) : state :=
  let st1 := match parent (nodes st !!! child) with
             | Some p => (removeChild st p child).1
             | None => st
             end in
  let s2 := <[child := withParent (nodes st1 !!! child) (Some this)]> (nodes st1) in
  let s3 := <[this := withChildren (s2 !!! this) (children (s2 !!! this) ++ [child])]> s2 in
  withNodes st1 s3.

(** [Scene.addChild] *)
Definition Scene_addChild (st : state) (child : id) : state :=
  let st1 := Node_addChild st (scene st) child in
  if isFocusable (nodes st1) child then
    let st2 := withFocusableComponents st1
                 (sortFocusableComponents (nodes st1) (focusableComponents st1 ++ [child])) in
    match focusedComponent st2 with
    | None => setFocus st2 (head (focusableComponents st2))
    | Some _ => st2
    end
  else st1.

(** The call [parent.addChild(child)], dispatched on the class of [parent]. *)
Definition addChild (st : state) (this child : id) : state :=
  if decide (this = scene st) then Scene_addChild st child
  else Node_addChild st this child.

(** [Scene.registerKeyboardHandler] *)
Definition registerKeyboardHandler (st : state) (key : string) : state :=
  withKeyboardHandlers st (key :: keyboardHandlers st).

(** [Scene.handleKey]. The focused component's own [handleKey] is an
    interface method; of it the answer is kept, the parameter
    [componentHandleKey]: what a [Button] or a [TextInput] changes in
    itself when it takes a key is in [Button.handleKey] and
    [TextInput.handleKeyWith] below. Of a handler registered on the scene
    the call is kept, as the event [Handler key], not what the handler
    does. *)
Definition itemAt (l : list id) (i : Z) : option id :=
  if i <? 0 then None else l !! Z.to_nat i.

(** The candidate test and the distance of the arrow-key scan; [None] when the
    component is not a candidate. *)
Definition arrowDistance (key : string) (currentPos componentPos : Z * Z) : option Z :=
  if bool_decide (key = "up"%string) && (componentPos.2 <? currentPos.2)
  then Some (currentPos.2 - componentPos.2 + Z.abs (currentPos.1 - componentPos.1))
  else if bool_decide (key = "down"%string) && (componentPos.2 >? currentPos.2)
  then Some (componentPos.2 - currentPos.2 + Z.abs (currentPos.1 - componentPos.1))
  else if bool_decide (key = "left"%string) && (componentPos.1 <? currentPos.1)
  then Some (currentPos.1 - componentPos.1 + Z.abs (currentPos.2 - componentPos.2))
  else if bool_decide (key = "right"%string) && (componentPos.1 >? currentPos.1)
  then Some (componentPos.1 - currentPos.1 + Z.abs (currentPos.2 - componentPos.2))
  else None.

(** One turn of the scan; the accumulator is [(nearestComponent, minDistance)]
    with [None] for [null] and for [Infinity]. *)
Definition nearestStep (s : gmap id node) (key : string) (focused : id)
    (acc : option id * option Z) (component : id) : option id * option Z :=
  if decide (component = focused) then acc
  else match arrowDistance key (absolutePosition (s !!! focused))
               (absolutePosition (s !!! component)) with
       | Some distance =>
           match acc.2 with
           | Some minDistance =>
               if distance <? minDistance then (Some component, Some distance) else acc
           | None => (Some component, Some distance)
           end
       | None => acc
       end.

Section HandleKey.
Variable componentHandleKey : id → string → bool.

(** The navigation stage: [Some st'] when it handled the key. *)
Definition navigate (st : state) (key : string) : option state :=
  if bool_decide (key = "tab"%string) || bool_decide (key = "shift_tab"%string) then
    let tabbable := getTabbableChildren (nodes st) (scene st) in
    let len := Z.of_nat (length tabbable) in
    if 0 <? len then
      let currentIndex :=
        match focusedComponent st with
        | Some f => match indexOf tabbable f with
                    | Some i => Z.of_nat i
                    | None => -1
                    end
        | None => -1
        end in
      let nextIndex :=
        if bool_decide (key = "tab"%string)
        then Z.rem (currentIndex + 1) len
        else Z.rem (currentIndex - 1 + len) len in
      Some (setFocus st (itemAt tabbable nextIndex))
    else None
  else if bool_decide (key = "up"%string) || bool_decide (key = "down"%string)
          || bool_decide (key = "left"%string) || bool_decide (key = "right"%string) then
    let tabbable := getTabbableChildren (nodes st) (scene st) in
    match focusedComponent st with
    | Some f =>
        match (foldl (nearestStep (nodes st) key f) (None, None) tabbable).1 with
        | Some nearestComponent => Some (setFocus st (Some nearestComponent))
        | None => None
        end
    | None => None
    end
  else None.

Definition handleKey (st : state) (key : string) : state * bool :=
  let handledByFocused :=
    match focusedComponent st with
    | Some f => isFocusable (nodes st) f && componentHandleKey f key
    | None => false
    end in
  if handledByFocused then (st, true)
  else match navigate st key with
       | Some st' => (st', true)
       | None =>
           if bool_decide (key ∈ keyboardHandlers st)
           then (emit st (Handler key), true)
           else (st, false)
       end.

(** The calls a program makes on a scene, and a run of them. *)
Inductive call :=
| AddChild (this child : id)
| RemoveChild (this child : id)
| SetFocus (component : option id)
| HandleKey (key : string)
| RegisterKeyboardHandler (key : string).

Definition exec (st : state) (c : call) : state :=
  match c with
  | AddChild this child => addChild st this child
  | RemoveChild this child => (removeChild st this child).1
  | SetFocus component => setFocus st component
  | HandleKey key => (handleKey st key).1
  | RegisterKeyboardHandler key => registerKeyboardHandler st key
  end.

Definition run (st : state) (cs : list call) : state := foldl exec st cs.

End HandleKey.

(** The [Scene] constructor: the scene node and its background rectangle,
    attached with the scene's own [addChild]. *)
Definition newScene (sceneId backgroundId : id) (size position : Z * Z)
    (backgroundColor : Z * Z * Z) : state :=
  addChild
    {| nodes := <[backgroundId := newNode (0, 0) (Rectangle size backgroundColor true) None]>
                  {[ sceneId := newNode position Group None ]};
       scene := sceneId; focusedComponent := None; focusableComponents := [];
       keyboardHandlers := []; events := [] |}
    sceneId backgroundId.

(** ** Renderer and the [render] methods *)

(** Drawing writes chunks to [stdout] and may stop early: [String.repeat]
    throws a [RangeError] on a negative count, and the traversal of the model
    may run out of fuel. What was written before stays written. *)
Inductive failure := RangeError | OutOfFuel.

Inductive outcome (A : Type) :=
| Returned (a : A)
| Failed (e : failure).
Arguments Returned {A} a.
Arguments Failed {A} e.

Definition io (A : Type) : Type := (list string * outcome A)%type.

#[global] Instance io_ret : MRet io := λ A a, ([], Returned a).
#[global] Instance io_bind : MBind io := λ A B f m,
  match m with
  | (w, Returned a) => let '(w', r) := f a in (w ++ w', r)
  | (w, Failed e) => (w, Failed e)
  end.

Definition write (chunk : string) : io unit := ([chunk], Returned tt).
Definition throw {A} (e : failure) : io A := ([], Failed e).

Definition repeatOrThrow (c : string) (n : Z) : io string :=
  match Str.repeat c n with
  | Some s => mret s
  | None => throw RangeError
  end.

Fixpoint forM_ {A} (l : list A) (body : A → io unit) : io unit :=
  match l with
  | [] => mret tt
  | x :: l' => body x ;; forM_ l' body
  end.

(** [Rectangle.render] *)
Definition Rectangle_render (this : node) (size : Z * Z) (color : Z * Z * Z) (fill : bool)
  : io unit :=
  let '(x, y) := absolutePosition this in
  let '(width, height) := size in
  let '(r, g, b) := color in
  write (KittyUtil.moveCursor (y + 1) (x + 1)) ;;
  if fill then
    forM_ (seqZ 0 height) (λ row,
      write (KittyUtil.moveCursor (y + row + 1) (x + 1)) ;;
      write (KittyUtil.setBackgroundColor r g b) ;;
      spaces ← repeatOrThrow " " (width * 2) ;
      write spaces ;;
      write KittyUtil.resetColors)
  else
    write (KittyUtil.setForegroundColor r g b) ;;
    write (KittyUtil.moveCursor (y + 1) (x + 1)) ;;
    dashes ← repeatOrThrow "-" (width * 2 - 2) ;
    write ("+" ++ dashes ++ "+")%string ;;
    forM_ (seqZ 1 (height - 2)) (λ row,
      write (KittyUtil.moveCursor (y + row + 1) (x + 1)) ;;
      spaces ← repeatOrThrow " " (width * 2 - 2) ;
      write ("|" ++ spaces ++ "|")%string) ;;
    write (KittyUtil.moveCursor (y + height) (x + 1)) ;;
    dashes' ← repeatOrThrow "-" (width * 2 - 2) ;
    write ("+" ++ dashes' ++ "+")%string ;;
    write KittyUtil.resetColors.

(** [Text.render] *)
Definition Text_render (this : node) (text : string) (color : Z * Z * Z) : io unit :=
  let '(x, y) := absolutePosition this in
  let '(r, g, b) := color in
  write (KittyUtil.moveCursor (y + 1) (x + 1)) ;;
  write (KittyUtil.setForegroundColor r g b) ;;
  write text ;;
  write KittyUtil.resetColors.

(** [node.render(kittyUtil)], dispatched on the class; [Group.render] does
    nothing. *)
Definition render (this : node) : io unit :=
  match draws this with
  | Rectangle size color fill => Rectangle_render this size color fill
  | Text text color => Text_render this text color
  | Group => mret tt
  end.

(** [Renderer._renderNode] *)
Fixpoint _renderNode (fuel : nat) (s : gmap id node) (n : id) : io unit :=
  match fuel with
  | O => throw OutOfFuel
  | S fuel' =>
      render (s !!! n) ;;
      forM_ (children (s !!! n)) (_renderNode fuel' s)
  end.

(** [Renderer.renderScene]: the store after the transform pass, and the
    chunks written. The closing [kittyUtil.flush()] writes nothing. *)
Definition renderScene (fuel : nat) (s : gmap id node) (rootNode : id) : io (gmap id node) :=
  write KittyUtil.clearScreen ;;
  s' ← match updateTransform fuel s rootNode with
       | Some s' => mret s'
       | None => throw OutOfFuel
       end ;
  _renderNode fuel s' rootNode ;;
  mret s'.

(** ** Input manager and keyboard handler ([input_handler.ts])

    [InputManager] holds the scene and its [KeyboardInputHandler], which is
    given the same scene by the constructor and by [setScene]; the model
    keeps the one reference. A global handler is a function reference,
    compared by identity: an [id]. Its calls are logged. As for the
    scene, keys that are names inherited from [Object.prototype] are not
    modelled. *)
Record manager := mkManager {
  managerScene : option state;
  globalHandlers : gmap string (list id);
  globalCalls : list (id * string)
}.

(** [new InputManager(scene)] *)
Definition newManager (sc : option state) : manager :=
  {| managerScene := sc; globalHandlers := ∅; globalCalls := [] |}.

(** [InputManager.setScene] *)
Definition setScene (m : manager) (sc : option state) : manager :=
  {| managerScene := sc; globalHandlers := globalHandlers m;
     globalCalls := globalCalls m |}.

(** [InputManager.registerGlobalHandler] *)
Definition registerGlobalHandler (m : manager) (key : string) (handler : id) : manager :=
  let l := match globalHandlers m !! key with
           | Some l => l
           | None => []
           end in
  {| managerScene := managerScene m;
     globalHandlers := <[key := l ++ [handler]]> (globalHandlers m);
     globalCalls := globalCalls m |}.

(** [InputManager.unregisterGlobalHandler] *)
Definition unregisterGlobalHandler (m : manager) (key : string) (handler : id) : manager :=
  match globalHandlers m !! key with
  | Some l =>
      match indexOf l handler with
      | Some index =>
          {| managerScene := managerScene m;
             globalHandlers := <[key := splice1 index l]> (globalHandlers m);
             globalCalls := globalCalls m |}
      | None => m
      end
  | None => m
  end.

(** [InputManager.handleKey]; [componentHandleKey] is the answer of the
    focused component, as for [Scene.handleKey]. *)
Definition InputManager_handleKey (componentHandleKey : id → string → bool)
    (m : manager) (key : string) : manager * bool :=
  let called := match globalHandlers m !! key with
                | Some l => (λ handler, (handler, key)) <$> l
                | None => []
                end in
  match managerScene m with
  | Some st =>
      let '(st', handled) := handleKey componentHandleKey st key in
      ({| managerScene := Some st'; globalHandlers := globalHandlers m;
          globalCalls := globalCalls m ++ called |}, handled)
  | None =>
      ({| managerScene := None; globalHandlers := globalHandlers m;
          globalCalls := globalCalls m ++ called |}, false)
  end.

(** [InputManager.simulateKeyPress] *)
Definition simulateKeyPress (componentHandleKey : id → string → bool)
    (m : manager) (key : string) : manager :=
  (InputManager_handleKey componentHandleKey m key).1.

(** [KeyboardInputHandler._handleKey]: the key goes to the scene, when
    there is one. *)
Definition _handleKey (componentHandleKey : id → string → bool)
    (m : manager) (key : string) : manager :=
  match managerScene m with
  | Some st =>
      {| managerScene := Some (handleKey componentHandleKey st key).1;
         globalHandlers := globalHandlers m; globalCalls := globalCalls m |}
  | None => m
  end.

(** [KeyboardInputHandler._handleInput] with its calls of [_handleKey]: the
    tokens of the chunk are handed over one by one. *)
Definition KeyboardInputHandler_handleInput (componentHandleKey : id → string → bool)
    (m : manager) (input : string) : option manager :=
  match Decoder._handleInput input with
  | Some keys => Some (foldl (_handleKey componentHandleKey) m keys)
  | None => None
  end.

(** ** Text input and button ([input_components.ts])

    The components as single objects: of the child nodes a component owns
    (background, text, cursor) the fields it assigns are kept as fields of
    the component. The redraw a component asks the scene for after a
    change is not part of these models. *)

(** [s.slice(start, stop)] on a string. *)
Definition jsSlice (s : string) (start stop : Z) : string :=
  let len := Z.of_nat (String.length s) in
  let from := if start <? 0 then Z.max (len + start) 0 else Z.min start len in
  let to := if stop <? 0 then Z.max (len + stop) 0 else Z.min stop len in
  String.substring (Z.to_nat from) (Z.to_nat (Z.max (to - from) 0)) s.

(** [s.slice(start)] *)
Definition jsSliceFrom (s : string) (start : Z) : string :=
  jsSlice s start (Z.of_nat (String.length s)).

Module TextInput.

Record t := mk {
  size : Z * Z;
  color : Z * Z * Z;
  focusColor : Z * Z * Z;
  textColor : Z * Z * Z;
  placeholder : string;
  value : string;
  cursorPos : Z;
  (** whether an [onChange] listener was given, and the values it was
      called with *)
  onChange : bool;
  changes : list string;
  isFocused : bool;
  (** [background.color], [text.text], [text.color], [cursor.position],
      [cursor.visible] *)
  backgroundColor : Z * Z * Z;
  textText : string;
  textTextColor : Z * Z * Z;
  cursorPosition : Z * Z;
  cursorVisible : bool
}.

(** The colour of the placeholder. *)
Definition dim : Z * Z * Z := (150, 150, 150).

(** [new TextInput(position, size, color, textColor, focusColor,
    placeholder, value, onChange)] *)
Definition new (size : Z * Z) (color textColor focusColor : Z * Z * Z)
    (placeholder value : string) (onChange : bool) : t :=
  let cursorPos := Z.of_nat (String.length value) in
  let textY := size.2 / 2 in
  {| size := size; color := color; focusColor := focusColor; textColor := textColor;
     placeholder := placeholder; value := value; cursorPos := cursorPos;
     onChange := onChange; changes := []; isFocused := false;
     backgroundColor := color;
     textText := if String.eqb value EmptyString then placeholder else value;
     textTextColor := if String.eqb value EmptyString then dim else textColor;
     cursorPosition := (1 + cursorPos, textY);
     cursorVisible := false |}.

(** Assignments to [value] and [cursorPos], to [isFocused] with the
    background colour and the visibility of the cursor, and a call of
    [onChange]. *)
Definition edit (this : t) (value : string) (cursorPos : Z) : t :=
  {| size := size this; color := color this; focusColor := focusColor this;
     textColor := textColor this; placeholder := placeholder this;
     value := value; cursorPos := cursorPos;
     onChange := onChange this; changes := changes this; isFocused := isFocused this;
     backgroundColor := backgroundColor this; textText := textText this;
     textTextColor := textTextColor this; cursorPosition := cursorPosition this;
     cursorVisible := cursorVisible this |}.

Definition focusAs (this : t) (focused : bool) (background : Z * Z * Z) : t :=
  {| size := size this; color := color this; focusColor := focusColor this;
     textColor := textColor this; placeholder := placeholder this;
     value := value this; cursorPos := cursorPos this;
     onChange := onChange this; changes := changes this; isFocused := focused;
     backgroundColor := background; textText := textText this;
     textTextColor := textTextColor this; cursorPosition := cursorPosition this;
     cursorVisible := focused |}.

Definition notify (this : t) : t :=
  {| size := size this; color := color this; focusColor := focusColor this;
     textColor := textColor this; placeholder := placeholder this;
     value := value this; cursorPos := cursorPos this;
     onChange := onChange this; changes := changes this ++ [value this];
     isFocused := isFocused this;
     backgroundColor := backgroundColor this; textText := textText this;
     textTextColor := textTextColor this; cursorPosition := cursorPosition this;
     cursorVisible := cursorVisible this |}.

(** [TextInput._updateTextDisplay] *)
Definition _updateTextDisplay (this : t) : t :=
  let shown := String.eqb (value this) EmptyString in
  {| size := size this; color := color this; focusColor := focusColor this;
     textColor := textColor this; placeholder := placeholder this;
     value := value this; cursorPos := cursorPos this;
     onChange := onChange this; changes := changes this; isFocused := isFocused this;
     backgroundColor := backgroundColor this;
     textText := if shown then placeholder this else value this;
     textTextColor := if shown then dim else textColor this;
     cursorPosition := (1 + cursorPos this, (size this).2 / 2);
     cursorVisible := cursorVisible this |}.

(** [TextInput.onFocus] and [TextInput.onBlur] *)
Definition onFocus (this : t) : t :=
  _updateTextDisplay (focusAs this true (focusColor this)).

Definition onBlur (this : t) : t :=
  _updateTextDisplay (focusAs this false (color this)).

(** The branches of [handleKey] that edit: [Some] of the input after the
    assignments when the key was handled, [None] when it was not. *)
Definition editing (this : t) (key : string) : option t :=
  let len := Z.of_nat (String.length (value this)) in
  let cursorPos := cursorPos this in
  let value := value this in
  if String.eqb key "backspace" then
    if 0 <? cursorPos
    then Some (edit this (jsSlice value 0 (cursorPos - 1) ++ jsSliceFrom value cursorPos)
                 (cursorPos - 1))
    else None
  else if String.eqb key "delete" then
    if cursorPos <? len
    then Some (edit this (jsSlice value 0 cursorPos ++ jsSliceFrom value (cursorPos + 1))
                 cursorPos)
    else None
  else if String.eqb key "left" then
    if 0 <? cursorPos then Some (edit this value (cursorPos - 1)) else None
  else if String.eqb key "right" then
    if cursorPos <? len then Some (edit this value (cursorPos + 1)) else None
  else if String.eqb key "home" then Some (edit this value 0)
  else if String.eqb key "end" then Some (edit this value len)
  else if (String.length key =? 1)%nat then
    if len <? (size this).1 - 3
    then Some (edit this (jsSlice value 0 cursorPos ++ key ++ jsSliceFrom value cursorPos)
                 (cursorPos + 1))
    else None
  else None.

(** [TextInput.handleKey]. [handlers key] is what
    [this.keyboardHandlers[key]] holds: [None] when it holds nothing, and
    otherwise the handler, which is a function of the repository's callers:
    the input as the call of the handler leaves it, and the answer. The
    redraw that follows a handled key ([findScene] and [renderScene]) sets
    absolute positions and writes to the terminal, neither of which is part
    of [t]: the result is the input and the answer of a call that
    returns. *)
Definition handleKeyWith (handlers : string → option (t → t * bool)) (this : t)
    (key : string) : t * bool :=
  if negb (isFocused this) then (this, false)
  else
    let '(this, claimed) := match handlers key with
                            | Some handler => handler this
                            | None => (this, false)
                            end in
    if claimed then (this, true)
    else match editing this key with
         | Some edited =>
             let shown := _updateTextDisplay edited in
             let told :=
               if onChange this
                  && (String.eqb key "backspace" || String.eqb key "delete"
                      || (String.length key =? 1)%nat)
               then notify shown else shown in
             (told, true)
         | None => (this, false)
         end.

(** [handleKey] with handlers that change nothing in the input:
    [handlers key] is the answer of the handler. *)
Definition handleKey (handlers : string → option bool) (this : t) (key : string)
  : t * bool :=
  handleKeyWith (λ key, (λ answer this, (this, answer)) <$> handlers key) this key.

End TextInput.

Module Button.

Record t := mk {
  textStr : string;
  size : Z * Z;
  color : Z * Z * Z;
  focusColor : Z * Z * Z;
  textColor : Z * Z * Z;
  (** whether an [onClick] handler was given, and how often it was called *)
  onClick : bool;
  clicks : nat;
  isFocused : bool;
  (** [background.color] and [text.position] *)
  backgroundColor : Z * Z * Z;
  textPosition : Z * Z
}.

(** [new Button(text, position, size, color, textColor, focusColor,
    onClick)]; [size] is [None] for [undefined]. *)
Definition new (text : string) (size : option (Z * Z))
    (color textColor focusColor : Z * Z * Z) (onClick : bool) : t :=
  let length := Z.of_nat (String.length text) in
  let size := match size with
              | None => (length + 4, 3)
              | Some size => size
              end in
  let textX := Z.max 1 ((size.1 - length) / 2) in
  let textY := size.2 / 2 in
  {| textStr := text; size := size; color := color; focusColor := focusColor;
     textColor := textColor; onClick := onClick; clicks := 0; isFocused := false;
     backgroundColor := color; textPosition := (textX, textY) |}.

Definition focusAs (this : t) (focused : bool) (background : Z * Z * Z) : t :=
  {| textStr := textStr this; size := size this; color := color this;
     focusColor := focusColor this; textColor := textColor this;
     onClick := onClick this; clicks := clicks this; isFocused := focused;
     backgroundColor := background; textPosition := textPosition this |}.

(** [Button.onFocus] and [Button.onBlur] *)
Definition onFocus (this : t) : t := focusAs this true (focusColor this).

Definition onBlur (this : t) : t := focusAs this false (color this).

(** The call of [onClick]. *)
Definition click (this : t) : t :=
  {| textStr := textStr this; size := size this; color := color this;
     focusColor := focusColor this; textColor := textColor this;
     onClick := onClick this; clicks := S (clicks this); isFocused := isFocused this;
     backgroundColor := backgroundColor this; textPosition := textPosition this |}.

(** [Button.handleKey] *)
Definition handleKey (this : t) (key : string) : t * bool :=
  if isFocused this
     && (String.eqb key "enter" || String.eqb key " " || String.eqb key "space")
     && onClick this
  then (click this, true)
  else (this, false).

End Button.

(** ** The message input of test/chat_ui.ts *)

Module ChatUi.

(** [messageInput] in a scene [width] cells wide. *)
Definition messageInput (width : Z) : TextInput.t :=
  TextInput.new (width - 12, 1) (50, 50, 70) (255, 255, 255) (70, 70, 100)
    "Enter your message" EmptyString false.

(** [sendMessage], as far as the message input goes: a message that is not
    empty is sent, [value] is set to the empty string and
    [_updateTextDisplay] is called; [cursorPos] is not assigned. *)
Definition sendMessage (messageInput : TextInput.t) : TextInput.t :=
  if String.eqb (TextInput.value messageInput) EmptyString then messageInput
  else TextInput._updateTextDisplay
         (TextInput.edit messageInput EmptyString (TextInput.cursorPos messageInput)).

(** The handlers of [messageInput]: one is registered, for [enter]; it
    calls [sendMessage] and answers [true]. *)
Definition keyboardHandlers : string → option (TextInput.t → TextInput.t * bool) :=
  λ key, if String.eqb key "enter"
         then Some (λ messageInput, (sendMessage messageInput, true))
         else None.

End ChatUi.


(** [findScene] of [input_components.ts]: the walk up the parents to the
    nearest object with a [renderScene] method, which is the scene; the
    result is [Some None] for [null]. The fuel bounds the turns of the
    [while] loop, which does not end on a cycle of parents. *)
Fixpoint findScene (fuel : nat) (st : state) (currentNode : id) : option (option id) :=
  if decide (currentNode = scene st) then Some (Some currentNode)
  else match parent (nodes st !!! currentNode) with
       | None => Some None
       | Some p =>
           match fuel with
           | O => None
           | S fuel' => findScene fuel' st p
           end
       end.


(** ** Tab container ([input_components.ts])

    The container, its background, its tab bar and its content area are
    nodes of the store; so are the button, the background and the title
    that [addTab] creates for a tab, whose identities the caller of the
    model hands in. As in the models above, the redraw asked from the
    scene after a change is left out, and of the [handleKey] of the active
    content only the answer is kept. *)

(** The assignment [node.color = c]. *)
Definition withColor (nd : node) (c : Z * Z * Z) : node :=
  {| position := position nd; absolutePosition := absolutePosition nd;
     parent := parent nd; children := children nd; visible := visible nd;
     draws := match draws nd with
              | Rectangle size _ fill => Rectangle size c fill
              | Text text _ => Text text c
              | Group => Group
              end;
     focus := focus nd |}.

(** The constructor call [new C(...)] of a node of identity [n]. *)
Definition create (st : state) (n : id) (nd : node) : state :=
  withNodes st (<[n := nd]> (nodes st)).

Module TabContainer.

Record tab := mkTab {
  title : string;
  content : id;
  button : id;
  tabBackground : id
}.

Record t := mk {
  this : id;
  size : Z * Z;
  tabHeight : Z;
  color : Z * Z * Z;
  activeTabColor : Z * Z * Z;
  inactiveTabColor : Z * Z * Z;
  tabs : list tab;
  activeTabIndex : Z;
  background : id;
  tabBar : id;
  contentArea : id
}.

Definition withTabs (tc : t) (l : list tab) : t :=
  {| this := this tc; size := size tc; tabHeight := tabHeight tc; color := color tc;
     activeTabColor := activeTabColor tc; inactiveTabColor := inactiveTabColor tc;
     tabs := l; activeTabIndex := activeTabIndex tc;
     background := background tc; tabBar := tabBar tc; contentArea := contentArea tc |}.

Definition withActiveTabIndex (tc : t) (index : Z) : t :=
  {| this := this tc; size := size tc; tabHeight := tabHeight tc; color := color tc;
     activeTabColor := activeTabColor tc; inactiveTabColor := inactiveTabColor tc;
     tabs := tabs tc; activeTabIndex := index;
     background := background tc; tabBar := tabBar tc; contentArea := contentArea tc |}.

(** [tabs[i]], [None] for [undefined]. *)
Definition tabAt (l : list tab) (i : Z) : option tab :=
  if i <? 0 then None else l !! Z.to_nat i.

(** [new TabContainer(position, size, tabHeight, color, activeTabColor,
    inactiveTabColor)] *)
Definition new (st : state) (this background tabBar contentArea : id)
    (position size : Z * Z) (tabHeight : Z)
    (color activeTabColor inactiveTabColor : Z * Z * Z) : state * t :=
  let st0 := create st this (newNode position Group None) in
  let st1 := create st0 background (newNode (0, 0) (Rectangle size color true) None) in
  let st2 := addChild st1 this background in
  let st3 := create st2 tabBar (newNode (0, 0) Group None) in
  let st4 := addChild st3 this tabBar in
  let st5 := create st4 contentArea (newNode (0, tabHeight) Group None) in
  let st6 := addChild st5 this contentArea in
  (st6, {| this := this; size := size; tabHeight := tabHeight; color := color;
           activeTabColor := activeTabColor; inactiveTabColor := inactiveTabColor;
           tabs := []; activeTabIndex := 0;
           background := background; tabBar := tabBar; contentArea := contentArea |}).

(** [TabContainer.addTab]; [tabButton], [tabBg] and [tabTitle] are the
    identities of the three nodes it creates. *)
Definition addTab (st : state) (tc : t) (title : string) (content : id)
    (tabButton tabBg tabTitle : id) : state * t :=
  let length := Z.of_nat (length (tabs tc)) in
  let tabWidth := Z.max 10 (Z.min 20 ((size tc).1 / (length + 1))) in
  let st1 := create st tabButton (newNode (length * tabWidth, 0) Group None) in
  let tabBgColor := if length =? activeTabIndex tc
                    then activeTabColor tc else inactiveTabColor tc in
  let st2 := create st1 tabBg
               (newNode (0, 0) (Rectangle (tabWidth, tabHeight tc) tabBgColor true) None) in
  let st3 := addChild st2 tabButton tabBg in
  let textX := Z.max 1 ((tabWidth - Z.of_nat (String.length title)) / 2) in
  let st4 := create st3 tabTitle
               (newNode (textX, tabHeight tc / 2) (Text title (255, 255, 255)) None) in
  let st5 := addChild st4 tabButton tabTitle in
  let st6 := addChild st5 (tabBar tc) tabButton in
  let tabIndex := length in
  let tc1 := withTabs tc (tabs tc ++ [mkTab title content tabButton tabBg]) in
  if tabIndex =? activeTabIndex tc
  then (addChild st6 (contentArea tc) content, tc1)
  else (st6, tc1).

(** [TabContainer.setActiveTab], for an integer [index]. [None] is the
    [TypeError] of reading a field of [undefined], when [tabs] has no entry
    at [activeTabIndex]. *)
Definition setActiveTab (st : state) (tc : t) (index : Z) : option (state * t) :=
  let length := Z.of_nat (length (tabs tc)) in
  if (0 <=? index) && (index <? length) then
    st1 ← (if activeTabIndex tc <? length then
             oldTab ← tabAt (tabs tc) (activeTabIndex tc);
             let st1 := (removeChild st (contentArea tc) (content oldTab)).1 in
             Some (create st1 (tabBackground oldTab)
                     (withColor (nodes st1 !!! tabBackground oldTab) (inactiveTabColor tc)))
           else Some st);
    newTab ← tabAt (tabs tc) index;
    let st2 := create st1 (tabBackground newTab)
                 (withColor (nodes st1 !!! tabBackground newTab) (activeTabColor tc)) in
    Some (addChild st2 (contentArea tc) (content newTab), withActiveTabIndex tc index)
  else Some (st, tc).

(** [TabContainer.handleKey]. [contentHandleKey c key] is [None] when the
    content [c] has no [handleKey] method, and its answer otherwise. With no
    tab, the index of the next tab is [NaN] and [setActiveTab] does
    nothing. *)
Definition handleKey (contentHandleKey : id → string → option bool)
    (st : state) (tc : t) (key : string) : option (state * t * bool) :=
  let handled :=
    match tabAt (tabs tc) (activeTabIndex tc) with
    | Some activeTab =>
        match contentHandleKey (content activeTab) key with
        | Some answer => answer
        | None => false
        end
    | None => false
    end in
  if handled then Some (st, tc, true)
  else if String.eqb key "tab" then
    let length := Z.of_nat (length (tabs tc)) in
    if length =? 0 then Some (st, tc, true)
    else r ← setActiveTab st tc (Z.rem (activeTabIndex tc + 1) length);
         Some (r, true)
  else Some (st, tc, false).

End TabContainer.


(** ** Focus callbacks with their redraw

    [onFocus] and [onBlur] above keep of a callback what the Scene reads.
    Here the callbacks are the components' own: they run inside
    [Scene.setFocus], and so inside [addChild] and [removeChild], and what
    they throw ends the call that made them. *)

(** The redraw [Button] and [TextInput] end their callbacks with:
    [findScene(this)] and, when there is a scene, [scene.renderScene()]. *)
Definition redraw (fuel : nat) (st : state) (this : id) : io state :=
  match findScene fuel st this with
  | None => throw OutOfFuel
  | Some None => mret st
  | Some (Some sc) =>
      s ← renderScene fuel (nodes st) sc ;
      mret (withNodes st s)
  end.

(** What the callbacks of a [Button] read: its [background] node and its
    two colours. *)
Record button := mkButton {
  buttonBackground : id;
  buttonColor : Z * Z * Z;
  buttonFocusColor : Z * Z * Z
}.

(** [Button.onFocus] and [Button.onBlur] of the button [this]. *)
Definition Button_onFocus (fuel : nat) (b : button) (this : id) (st : state) : io state :=
  let s1 := <[this := withIsFocused (nodes st !!! this) true]> (nodes st) in
  let s2 := <[buttonBackground b := withColor (s1 !!! buttonBackground b)
                                      (buttonFocusColor b)]> s1 in
  redraw fuel (withNodes st s2) this.

Definition Button_onBlur (fuel : nat) (b : button) (this : id) (st : state) : io state :=
  let s1 := <[this := withIsFocused (nodes st !!! this) false]> (nodes st) in
  let s2 := <[buttonBackground b := withColor (s1 !!! buttonBackground b)
                                      (buttonColor b)]> s1 in
  redraw fuel (withNodes st s2) this.

(** The callbacks of the components of a scene whose buttons are given by
    [buttons]; a focusable component that is no button only sets its
    flag. *)
Definition buttonOnFocus (fuel : nat) (buttons : id → option button)
    (this : id) (st : state) : io state :=
  match buttons this with
  | Some b => Button_onFocus fuel b this st
  | None => mret (withNodes st (<[this := withIsFocused (nodes st !!! this) true]> (nodes st)))
  end.

Definition buttonOnBlur (fuel : nat) (buttons : id → option button)
    (this : id) (st : state) : io state :=
  match buttons this with
  | Some b => Button_onBlur fuel b this st
  | None => mret (withNodes st (<[this := withIsFocused (nodes st !!! this) false]> (nodes st)))
  end.

Section Drawn.

(** [component.onFocus()] and [component.onBlur()] of the component of the
    given identity. *)
Variables componentOnFocus componentOnBlur : id → state → io state.

(** The calls of the callbacks behind the [typeof] tests of [setFocus]. *)
Definition onFocusDrawn (st : state) (c : id) : io state :=
  if isFocusable (nodes st) c then componentOnFocus c (emit st (OnFocus c)) else mret st.

Definition onBlurDrawn (st : state) (c : id) : io state :=
  if isFocusable (nodes st) c then componentOnBlur c (emit st (OnBlur c)) else mret st.

(** [Scene.setFocus] *)
Definition setFocusDrawn (st : state) (component : option id) : io state :=
  st1 ← match focusedComponent st with
        | Some f => onBlurDrawn st f
        | None => mret st
        end ;
  let st2 := withFocusedComponent st1 component in
  match component with
  | Some c => onFocusDrawn st2 c
  | None => mret st2
  end.

(** [Scene.removeChild] *)
Definition Scene_removeChildDrawn (st : state) (child : id) : io (state * bool) :=
  let wasFocused := bool_decide (focusedComponent st = Some child) in
  let '(s1, removed) := Node_removeChild (nodes st) (scene st) child in
  if removed then
    let st1 := withNodes st s1 in
    let st2 := match indexOf (focusableComponents st1) child with
               | Some index =>
                   withFocusableComponents st1
                     (sortFocusableComponents (nodes st1)
                        (splice1 index (focusableComponents st1)))
               | None => st1
               end in
    st3 ← (if wasFocused then setFocusDrawn st2 (head (focusableComponents st2))
           else mret st2) ;
    mret (st3, true)
  else mret (st, false).

(** The call [parent.removeChild(child)], dispatched on the class of
    [parent]. *)
Definition removeChildDrawn (st : state) (this child : id) : io (state * bool) :=
  if decide (this = scene st) then Scene_removeChildDrawn st child
  else let '(s1, removed) := Node_removeChild (nodes st) this child in
       mret (withNodes st s1, removed).

(** [Node.addChild] *)
Definition Node_addChildDrawn (st : state) (this child : id) : io state :=
  st1 ← match parent (nodes st !!! child) with
        | Some p => r ← removeChildDrawn st p child ; mret r.1
        | None => mret st
        end ;
  let s2 := <[child := withParent (nodes st1 !!! child) (Some this)]> (nodes st1) in
  let s3 := <[this := withChildren (s2 !!! this) (children (s2 !!! this) ++ [child])]> s2 in
  mret (withNodes st1 s3).

(** [Scene.addChild] *)
Definition Scene_addChildDrawn (st : state) (child : id) : io state :=
  st1 ← Node_addChildDrawn st (scene st) child ;
  if isFocusable (nodes st1) child then
    let st2 := withFocusableComponents st1
                 (sortFocusableComponents (nodes st1) (focusableComponents st1 ++ [child])) in
    match focusedComponent st2 with
    | None => setFocusDrawn st2 (head (focusableComponents st2))
    | Some _ => mret st2
    end
  else mret st1.

(** The call [parent.addChild(child)], dispatched on the class of [parent]. *)
Definition addChildDrawn (st : state) (this child : id) : io state :=
  if decide (this = scene st) then Scene_addChildDrawn st child
  else Node_addChildDrawn st this child.

(** Calls of [addChild] and [removeChild], and a run of them, which ends
    with the first call that throws. *)
Inductive linkCall :=
| Attach (this child : id)
| Detach (this child : id).

Definition execDrawn (st : state) (c : linkCall) : io state :=
  match c with
  | Attach this child => addChildDrawn st this child
  | Detach this child => r ← removeChildDrawn st this child ; mret r.1
  end.

Fixpoint runDrawn (st : state) (cs : list linkCall) : io state :=
  match cs with
  | [] => mret st
  | c :: cs' => st' ← execDrawn st c ; runDrawn st' cs'
  end.

End Drawn.

(** * Specification

    The predicates the properties are stated with, and the scenes of the
    examples. *)

(** ** Decoder *)

(** A character no sequence of [KEY_MAPPING] starts with. *)
Definition plain (c : ascii) : Prop :=
  c ≠ ascii_of_nat 27 ∧ c ≠ ascii_of_nat 13 ∧ c ≠ ascii_of_nat 10
  ∧ c ≠ ascii_of_nat 9 ∧ c ≠ ascii_of_nat 32 ∧ c ≠ ascii_of_nat 127.

(** All characters of a string are plain. *)
Fixpoint allPlain (s : string) : Prop :=
  match s with
  | EmptyString => True
  | String c s' => plain c ∧ allPlain s'
  end.

(** The characters of a string, each as a literal token. *)
Fixpoint literals (s : string) : list string :=
  match s with
  | EmptyString => []
  | String c s' => String c EmptyString :: literals s'
  end.

(** ** Tree links *)

(** The tree links are the same in both stores. *)
Definition sameLinks (s s' : gmap id node) : Prop :=
  ∀ n, parent (s' !!! n) = parent (s !!! n) ∧ children (s' !!! n) = children (s !!! n).

(** [child] was taken out of the children of [this], where it stood between
    [l1] and [l2], and its parent reference was cleared. *)
Definition detached (s s' : gmap id node) (this child : id) (l1 l2 : list id) : Prop :=
  children (s !!! this) = l1 ++ (child :: l2)
  ∧ (child ∉ l1)
  ∧ (∀ n, children (s' !!! n) = if decide (n = this) then l1 ++ l2 else children (s !!! n))
  ∧ (∀ n, parent (s' !!! n) = if decide (n = child) then None else parent (s !!! n)).

(** [child] was appended to the children of [this] and its parent reference
    set to [this]. *)
Definition attached (s s' : gmap id node) (this child : id) : Prop :=
  (∀ n, children (s' !!! n)
        = if decide (n = this) then children (s !!! n) ++ [child] else children (s !!! n))
  ∧ (∀ n, parent (s' !!! n) = if decide (n = child) then Some this else parent (s !!! n)).

(** The state [Node.addChild] works on after it took [child] away from its
    former parent. *)
Definition afterDetach (st : state) (child : id) : state :=
  match parent (nodes st !!! child) with
  | Some p => (removeChild st p child).1
  | None => st
  end.

(** Children lists and parent references agree, and no children list holds
    a node twice. *)
Definition linked (s : gmap id node) : Prop :=
  (∀ p c, c ∈ children (s !!! p) → parent (s !!! c) = Some p)
  ∧ (∀ c p, parent (s !!! c) = Some p → c ∈ children (s !!! p))
  ∧ (∀ p, NoDup (children (s !!! p))).

(** A store in which nothing is attached yet, as after the constructors. *)
Definition allDetached (s : gmap id node) : Prop :=
  ∀ n, parent (s !!! n) = None ∧ children (s !!! n) = [].

(** ** Registry and focus *)

(** What a call may change in the store besides the tree links: nothing that
    the focus bookkeeping reads. *)
Definition sameCapabilities (s s' : gmap id node) : Prop :=
  ∀ n, isFocusable s' n = isFocusable s n ∧ tabIndexOf s' n = tabIndexOf s n.

(** What a call leaves alone in the Scene object. *)
Definition sameScene (st st' : state) : Prop :=
  scene st' = scene st ∧ keyboardHandlers st' = keyboardHandlers st.

(** The registry after [child] was taken out of it (if it was there). *)
Definition registryWithout (reg : list id) (child : id) : list id :=
  match indexOf reg child with
  | Some index => splice1 index reg
  | None => reg
  end.

(** What a removal does to the registry and the focus of the scene. *)
Definition registryAfterRemoval (st st' : state) (child : id) : Prop :=
  (∀ x, x ∈ focusableComponents st' → x ∈ focusableComponents st)
  ∧ (∀ x, x ≠ child → x ∈ focusableComponents st → x ∈ focusableComponents st')
  ∧ ((focusedComponent st' = focusedComponent st
      ∧ (focusableComponents st' = focusableComponents st
         ∨ focusedComponent st ≠ Some child))
     ∨ (focusedComponent st = Some child
        ∧ focusedComponent st' = head (focusableComponents st'))).

(** The focus of the scene is unset or points into the registry. *)
Definition focusRegistered (st : state) : Prop :=
  ∀ f, focusedComponent st = Some f → f ∈ focusableComponents st.

(** Every component of the registry is focusable. *)
Definition registryFocusable (st : state) : Prop :=
  ∀ x, x ∈ focusableComponents st → isFocusable (nodes st) x = true.

(** ** Trees in the store *)

(** A tree of nodes: a node and the trees of its children, in order. The
    induction principle is [tree_induction] below. *)
#[local] Unset Elimination Schemes.
Inductive tree := Tree (n : id) (kids : list tree).
#[local] Set Elimination Schemes.

(** The root, the nodes and the height of a tree. *)
Definition rootOf (t : tree) : id := match t with Tree n _ => n end.

Fixpoint ids (t : tree) : list id :=
  match t with
  | Tree n kids => n :: (fix all (l : list tree) : list id :=
                           match l with
                           | [] => []
                           | k :: l' => ids k ++ all l'
                           end) kids
  end.

Definition idsOfAll (kids : list tree) : list id := foldr (λ k acc, ids k ++ acc) [] kids.

Fixpoint height (t : tree) : nat :=
  match t with
  | Tree _ kids => S ((fix all (l : list tree) : nat :=
                         match l with
                         | [] => O
                         | k :: l' => Nat.max (height k) (all l')
                         end) kids)
  end.

Definition heightOfAll (kids : list tree) : nat := foldr (λ k h, Nat.max (height k) h) O kids.

(** The store holds the tree [t] below the parent [par]: parent references
    and children lists are those of the tree. *)
#[local] Unset Elimination Schemes.
Inductive shaped (s : gmap id node) : option id → tree → Prop :=
| shaped_node par n kids :
    parent (s !!! n) = par →
    children (s !!! n) = map rootOf kids →
    Forall (shaped s (Some n)) kids →
    shaped s par (Tree n kids).
#[local] Set Elimination Schemes.

(** [pathTo t m path]: [path] lists the nodes from the root of [t] down to
    [m], both included. *)
Inductive pathTo : tree → id → list id → Prop :=
| pathTo_root n kids : pathTo (Tree n kids) n [n]
| pathTo_kid n kids k m path :
    k ∈ kids → pathTo k m path → pathTo (Tree n kids) m (n :: path).

(** The componentwise sum of the local offsets of the nodes of a path. *)
Definition sumOfOffsets (s : gmap id node) (path : list id) : Z * Z :=
  foldr (λ n acc, addPos (position (s !!! n)) acc) (0, 0) path.

(** The pass writes [absolutePosition] fields only. *)
Definition sameButAbsolute (s s' : gmap id node) : Prop :=
  ∀ n, position (s' !!! n) = position (s !!! n)
       ∧ parent (s' !!! n) = parent (s !!! n)
       ∧ children (s' !!! n) = children (s !!! n)
       ∧ visible (s' !!! n) = visible (s !!! n).

(** What the pass does on the subtree [t], whose root hangs below a node
    of absolute position [base] (or is the root of everything). *)
Definition passOn (t : tree) : Prop :=
  ∀ (s : gmap id node) par base fuel,
    shaped s par t → NoDup (ids t) → (height t ≤ fuel)%nat →
    match par with
    | Some p => (p ∉ ids t) ∧ absolutePosition (s !!! p) = base
    | None => base = (0, 0)
    end →
    ∃ s', updateTransform fuel s (rootOf t) = Some s'
          ∧ sameButAbsolute s s'
          ∧ (∀ m, m ∉ ids t → absolutePosition (s' !!! m) = absolutePosition (s !!! m))
          ∧ (∀ m path, pathTo t m path →
                       absolutePosition (s' !!! m) = addPos base (sumOfOffsets s path)).

(** ** Example scenes *)

(** A focusable component (a [Button], a [TextInput]) with its tab index. *)
Definition component (index : option Z) : node :=
  newNode (0, 0) Group (Some {| isFocused := false; tabIndex := index |}).

(** A focused component that handles no key. *)
Definition noHandler : id → string → bool := λ _ _, false.

(** The scene of the examples: the scene is node 0 and its background node
    1; nodes 2, 3 and 4 are focusable components A (no tab index), B (tab
    index 1) and C (tab index 0), not attached yet; node 5 is a group, not
    attached yet, and node 6 a focusable component inside it. *)
Definition exampleScene : state :=
  let st := newScene 0 1 (2, 1) (0, 0) (0, 0, 0) in
  let s := <[2%nat := component None]>
           (<[3%nat := component (Some 1)]>
           (<[4%nat := component (Some 0)]>
           (<[5%nat := newNode (1, 1) Group None]>
           (<[6%nat := component None]> (nodes st))))) in
  addChild (withNodes st s) 5%nat 6%nat.

(** A alone attached to the example scene. *)
Definition oneComponent : state :=
  run noHandler exampleScene [AddChild 0 2]%nat.

(** A and B attached to the example scene; A holds the focus. *)
Definition twoComponents : state :=
  run noHandler exampleScene [AddChild 0 2; AddChild 0 3]%nat.

(** A, B and C added to the scene in this order, and the focus cleared. *)
Definition threeComponents : state :=
  run noHandler exampleScene
    [AddChild 0 2; AddChild 0 3; AddChild 0 4; SetFocus None]%nat.

(** Components before anything is attached. *)
Definition detachedComponents : state :=
  {| nodes := <[1%nat := newNode (0, 0) Group None]>
              (<[2%nat := component None]> {[ 3%nat := component (Some 1) ]});
     scene := 0%nat; focusedComponent := None; focusableComponents := [];
     keyboardHandlers := []; events := [] |}.

(** The store of the example: a scene (node 0) with a one-cell background
    (node 1) and a text node (node 2) at (2, 3) whose [visible] flag is
    [false], the way [TextInput] hides its cursor. *)
Definition hiddenTextStore : gmap id node :=
  let st := newScene 0 1 (1, 1) (0, 0) (0, 0, 0) in
  let cursor := withVisible (newNode (2, 3) (Text "|" (255, 255, 255)) None) false in
  nodes (addChild (withNodes st (<[2%nat := cursor]> (nodes st))) 0%nat 2%nat).

(** The tree of the example scene once the group 5 is attached to it. *)
Definition exampleTree : tree :=
  Tree 0 [Tree 1 []; Tree 5 [Tree 6 []]].

Definition exampleStore : gmap id node := nodes (addChild exampleScene 0%nat 5%nat).

(** ** Drawing *)

(** The chunks of one row of a filled rectangle. *)
Definition filledRow (x y width : Z) (color : Z * Z * Z) (row : Z) : list string :=
  [ KittyUtil.moveCursor (y + row + 1) (x + 1);
    KittyUtil.setBackgroundColor color.1.1 color.1.2 color.2;
    Str.replicate (Z.to_nat (width * 2)) " ";
    KittyUtil.resetColors ].

(** The top or bottom border and one side row of an outlined rectangle. *)
Definition borderLine (width : Z) : string :=
  ("+" ++ Str.replicate (Z.to_nat (width * 2 - 2)) "-" ++ "+")%string.

Definition sideRow (x y width : Z) (row : Z) : list string :=
  [ KittyUtil.moveCursor (y + row + 1) (x + 1);
    ("|" ++ Str.replicate (Z.to_nat (width * 2 - 2)) " " ++ "|")%string ].

(** The shapes whose [render] returns: every text and group, a filled
    rectangle that has no negative width or no row at all, an outlined
    rectangle of width at least 1. *)
Definition drawableShape (d : shape) : bool :=
  match d with
  | Rectangle (width, height) _ true => (0 <=? width) || (height <=? 0)
  | Rectangle (width, height) _ false => 1 <=? width
  | Text _ _ => true
  | Group => true
  end.

(** ** The transform pass and the traversal on any store *)

(** [s'] is [s] with other absolute positions: every other field of every
    node is the same. *)
Definition onlyAbsolute (s s' : gmap id node) : Prop :=
  ∀ n, s' !!! n = withAbsolutePosition (s !!! n) (absolutePosition (s' !!! n)).

(** [m] is in the children list of [n]. *)
Definition childOf (s : gmap id node) (n m : id) : Prop := m ∈ children (s !!! n).

(** Following children lists from [n] one can reach a node that is its own
    descendant. *)
Definition cyclicBelow (s : gmap id node) (n : id) : Prop :=
  ∃ m c, rtc (childOf s) n m ∧ childOf s m c ∧ rtc (childOf s) c m.

(** The nodes of a tree drawn one after the other. *)
Definition drawAll (s : gmap id node) (l : list id) : io unit :=
  forM_ l (λ n, render (s !!! n)).

(** ** Tab order *)

(** [l] is in tab order: no component stands before one that the
    comparator of [sortFocusableComponents] puts strictly before it. *)
Fixpoint inTabOrder (s : gmap id node) (l : list id) : Prop :=
  match l with
  | [] => True
  | a :: l' =>
      Forall (λ b, compareIndex (tabIndexOf s a) (tabIndexOf s b) ≤ 0) l'
      ∧ inTabOrder s l'
  end.

(** The components of [l] whose tab index is [k] ([None] for none), in the
    order of [l]. *)
Definition withTabIndex (s : gmap id node) (k : option Z) (l : list id) : list id :=
  filter (λ x, tabIndexOf s x = k) l.

(** The registry of a scene is well kept: it lists, without repetition and
    in tab order, the focusable nodes among the children of the scene. *)
Definition registryKept (st : state) : Prop :=
  linked (nodes st)
  ∧ NoDup (focusableComponents st)
  ∧ (∀ x, x ∈ focusableComponents st
          ↔ x ∈ children (nodes st !!! scene st) ∧ isFocusable (nodes st) x = true)
  ∧ inTabOrder (nodes st) (focusableComponents st).

(** ** Focus flags *)

(** The [isFocused] flag of a node ([false] for a node without the
    property). *)
Definition flagged (s : gmap id node) (n : id) : bool :=
  match focus (s !!! n) with
  | Some f => isFocused f
  | None => false
  end.

(** The flags follow the focus of the scene: the flag is set on the
    focused component, when it is focusable, and on no other node. *)
Definition flagsAgree (st : state) : Prop :=
  ∀ n, flagged (nodes st) n = true
       ↔ focusedComponent st = Some n ∧ isFocusable (nodes st) n = true.

(** The [focus] fields are the same in both stores. *)
Definition sameFocusFields (s s' : gmap id node) : Prop :=
  ∀ n, focus (s' !!! n) = focus (s !!! n).

(** The callbacks [setFocus] makes, in order. *)
Definition blurCall (st : state) : list event :=
  match focusedComponent st with
  | Some f => if isFocusable (nodes st) f then [OnBlur f] else []
  | None => []
  end.

Definition focusCall (st : state) (component : option id) : list event :=
  match component with
  | Some c => if isFocusable (nodes st) c then [OnFocus c] else []
  | None => []
  end.

(** ** Input manager *)

(** The handlers registered for a key, in the order of their calls. *)
Definition handlersFor (m : manager) (key : string) : list id :=
  match globalHandlers m !! key with
  | Some l => l
  | None => []
  end.

(** ** Text input *)

(** The first [n] characters of a string, and the string without them. *)
Definition takeS (n : nat) (s : string) : string := String.substring 0 n s.
Definition dropS (n : nat) (s : string) : string := Str.substring n s.

(** The cursor of a text input is inside its value. *)
Definition cursorInValue (ti : TextInput.t) : Prop :=
  0 ≤ TextInput.cursorPos ti ≤ Z.of_nat (String.length (TextInput.value ti)).

(** The text node shows the value, or the placeholder when the value is
    empty, and the cursor node stands one cell after the cursor position. *)
Definition displayed (ti : TextInput.t) : Prop :=
  TextInput.textText ti
  = (if String.eqb (TextInput.value ti) EmptyString
     then TextInput.placeholder ti else TextInput.value ti)
  ∧ TextInput.textTextColor ti
    = (if String.eqb (TextInput.value ti) EmptyString
       then TextInput.dim else TextInput.textColor ti)
  ∧ TextInput.cursorPosition ti
    = (1 + TextInput.cursorPos ti, (TextInput.size ti).2 / 2).

(** Handlers that claim no key. *)
Definition noHandlers : string → option bool := λ _, None.

(** The keys handed to a text input one after the other. *)
Definition typeKeys (handlers : string → option bool) (ti : TextInput.t)
    (keys : list string) : TextInput.t :=
  foldl (λ ti key, (TextInput.handleKey handlers ti key).1) ti keys.

(** The same with handlers that may change the input. *)
Definition typeKeysWith (handlers : string → option (TextInput.t → TextInput.t * bool))
    (ti : TextInput.t) (keys : list string) : TextInput.t :=
  foldl (λ ti key, (TextInput.handleKeyWith handlers ti key).1) ti keys.

(** The tokens the text input edits with, besides single characters. *)
Definition editingKeys : list string :=
  ["backspace"; "delete"; "left"; "right"; "home"; "end"]%string.

(** What an edit does to a text input [ti], giving [ed]: the six editing
    keys and the insertion of a character, with [n] the cursor position. *)
Definition editedBy (ti ed : TextInput.t) (key : string) : Prop :=
  let v := TextInput.value ti in
  let cp := TextInput.cursorPos ti in
  let n := Z.to_nat cp in
  let len := Z.of_nat (String.length v) in
  (key = "backspace"%string ∧ 0 < cp
   ∧ ed = TextInput.edit ti (takeS (n - 1) v ++ dropS n v) (cp - 1))
  ∨ (key = "delete"%string ∧ cp < len
     ∧ ed = TextInput.edit ti (takeS n v ++ dropS (S n) v) cp)
  ∨ (key = "left"%string ∧ 0 < cp ∧ ed = TextInput.edit ti v (cp - 1))
  ∨ (key = "right"%string ∧ cp < len ∧ ed = TextInput.edit ti v (cp + 1))
  ∨ (key = "home"%string ∧ ed = TextInput.edit ti v 0)
  ∨ (key = "end"%string ∧ ed = TextInput.edit ti v len)
  ∨ (String.length key = 1%nat ∧ len < (TextInput.size ti).1 - 3
     ∧ ed = TextInput.edit ti (takeS n v ++ key ++ dropS n v) (cp + 1)).

(** The background and the cursor follow the focus. *)
Definition focusShown (ti : TextInput.t) : Prop :=
  TextInput.cursorVisible ti = TextInput.isFocused ti
  ∧ TextInput.backgroundColor ti
    = (if TextInput.isFocused ti then TextInput.focusColor ti else TextInput.color ti).

(** What happens to a text input: it gets or loses the focus, or is handed
    a key; and a run of such events. *)
Inductive inputEvent :=
| Focus
| Blur
| Key (key : string).

Definition afterEvent (handlers : string → option (TextInput.t → TextInput.t * bool))
    (ti : TextInput.t) (e : inputEvent) : TextInput.t :=
  match e with
  | Focus => TextInput.onFocus ti
  | Blur => TextInput.onBlur ti
  | Key key => (TextInput.handleKeyWith handlers ti key).1
  end.

Definition afterEvents (handlers : string → option (TextInput.t → TextInput.t * bool))
    (ti : TextInput.t) (es : list inputEvent) : TextInput.t :=
  foldl (afterEvent handlers) ti es.

(** Every registered handler keeps the property [P] of the input. *)
Definition handlersKeep (P : TextInput.t → Prop)
    (handlers : string → option (TextInput.t → TextInput.t * bool)) : Prop :=
  ∀ key handler ti, handlers key = Some handler → P ti → P (handler ti).1.

(** The input and the answer once the registered handler of [key] was
    asked: the input itself and [false] when it has no focus or no handler
    is registered for [key]. *)
Definition afterHandler (handlers : string → option (TextInput.t → TextInput.t * bool))
    (ti : TextInput.t) (key : string) : TextInput.t * bool :=
  if TextInput.isFocused ti
  then match handlers key with
       | Some handler => handler ti
       | None => (ti, false)
       end
  else (ti, false).

(** The cursor is inside the value, the input has the size [size], and the
    value is no longer than the greater of [bound] and the width less
    three. *)
Definition withinCapacity (bound : Z) (size : Z * Z) (ti : TextInput.t) : Prop :=
  cursorInValue ti
  ∧ TextInput.size ti = size
  ∧ Z.of_nat (String.length (TextInput.value ti)) ≤ Z.max bound (size.1 - 3).

(** No registered handler claims the key. *)
Definition unclaimed (handlers : string → option bool) (key : string) : Prop :=
  handlers key ≠ Some true.

(** [s] put into [v] after the first [n] characters. *)
Definition insertedAt (n : nat) (s v : string) : string :=
  (takeS n v ++ s ++ dropS n v)%string.

(** A string without a space character. *)
Fixpoint noSpace (s : string) : Prop :=
  match s with
  | EmptyString => True
  | String c s' => c ≠ " "%char ∧ noSpace s'
  end.

(** The token of a single character other than ESC, as [KEY_MAPPING] gives
    it. *)
Definition keyOf (c : ascii) : string :=
  if decide (c = ascii_of_nat 13) then "enter"
  else if decide (c = ascii_of_nat 10) then "enter"
  else if decide (c = ascii_of_nat 9) then "tab"
  else if decide (c = ascii_of_nat 32) then "space"
  else if decide (c = ascii_of_nat 127) then "backspace"
  else String c EmptyString.

(** ** Button *)

(** The keys handed to a button one after the other. *)
Definition pressKeys (b : Button.t) (keys : list string) : Button.t :=
  foldl (λ b key, (Button.handleKey b key).1) b keys.

(** A chunk without the character ESC, and the number of its characters
    that are a carriage return, a line feed or a space. *)
Fixpoint noEscape (s : string) : Prop :=
  match s with
  | EmptyString => True
  | String c s' => c ≠ ascii_of_nat 27 ∧ noEscape s'
  end.

Definition activating (c : ascii) : bool :=
  bool_decide (c = ascii_of_nat 13 ∨ c = ascii_of_nat 10 ∨ c = ascii_of_nat 32).

Fixpoint countActivating (s : string) : nat :=
  match s with
  | EmptyString => 0
  | String c s' => (if activating c then 1 else 0) + countActivating s'
  end.

(** The tokens of a chunk without ESC. *)
Fixpoint keysOf (s : string) : list string :=
  match s with
  | EmptyString => []
  | String c s' => keyOf c :: keysOf s'
  end.


(** ** Arrow keys *)

(** The arrow-key scan of [Scene.handleKey] over the components in
    [tabbable], and the distance of a component from the focused one. *)
Definition arrowScan (s : gmap id node) (key : string) (focused : id)
    (tabbable : list id) : option id :=
  (foldl (nearestStep s key focused) (None, None) tabbable).1.

Definition distanceFrom (s : gmap id node) (key : string) (focused component : id)
  : option Z :=
  arrowDistance key (absolutePosition (s !!! focused)) (absolutePosition (s !!! component)).

(** What the accumulator of the scan holds after the components of [seen]:
    nothing when no candidate was among them, or else the first of the
    nearest candidates with its distance. *)
Definition scanned (s : gmap id node) (key : string) (focused : id)
    (seen : list id) (acc : option id * option Z) : Prop :=
  match acc with
  | (Some c, Some d) =>
      ∃ l1 l2, seen = l1 ++ c :: l2
        ∧ c ≠ focused
        ∧ distanceFrom s key focused c = Some d
        ∧ (∀ c' d', c' ∈ l1 → c' ≠ focused →
                    distanceFrom s key focused c' = Some d' → d < d')
        ∧ (∀ c' d', c' ∈ l2 → c' ≠ focused →
                    distanceFrom s key focused c' = Some d' → d ≤ d')
  | (None, None) =>
      ∀ c', c' ∈ seen → c' ≠ focused → distanceFrom s key focused c' = None
  | _ => False
  end.


(** ** Tab container *)

(** The calls a program makes on a tab container, and a run of them; a
    run stops with [None] at a [TypeError]. *)
Inductive tabCall :=
| AddTab (title : string) (content tabButton tabBg tabTitle : id)
| SetActiveTab (index : Z)
| PressKey (key : string).

Definition tabExec (contentHandleKey : id → string → option bool)
    (p : state * TabContainer.t) (c : tabCall) : option (state * TabContainer.t) :=
  match c with
  | AddTab title content tabButton tabBg tabTitle =>
      Some (TabContainer.addTab p.1 p.2 title content tabButton tabBg tabTitle)
  | SetActiveTab index => TabContainer.setActiveTab p.1 p.2 index
  | PressKey key => fst <$> TabContainer.handleKey contentHandleKey p.1 p.2 key
  end.

Fixpoint tabRun (contentHandleKey : id → string → option bool)
    (p : state * TabContainer.t) (cs : list tabCall) : option (state * TabContainer.t) :=
  match cs with
  | [] => Some p
  | c :: cs' =>
      match tabExec contentHandleKey p c with
      | Some p' => tabRun contentHandleKey p' cs'
      | None => None
      end
  end.

(** The nodes of [l] are new: different objects that are not in the store
    yet. *)
Definition newNodes (st : state) (l : list id) : Prop :=
  NoDup l ∧ ∀ n, n ∈ l → nodes st !! n = None.

(** The nodes that the calls of a run create are new when they are
    created. *)
Fixpoint createsNew (contentHandleKey : id → string → option bool)
    (p : state * TabContainer.t) (cs : list tabCall) : Prop :=
  match cs with
  | [] => True
  | c :: cs' =>
      match c with
      | AddTab _ _ tabButton tabBg tabTitle => newNodes p.1 [tabButton; tabBg; tabTitle]
      | _ => True
      end
      ∧ match tabExec contentHandleKey p c with
        | Some p' => createsNew contentHandleKey p' cs'
        | None => True
        end
  end.

(** The active index is the index of a tab, or 0 when there is no tab. *)
Definition activeInRange (tc : TabContainer.t) : Prop :=
  0 ≤ TabContainer.activeTabIndex tc
  ∧ (TabContainer.activeTabIndex tc < Z.of_nat (length (TabContainer.tabs tc))
     ∨ (TabContainer.tabs tc = [] ∧ TabContainer.activeTabIndex tc = 0)).

(** The content area holds the content of the active tab and nothing
    else. *)
Definition activeShown (st : state) (tc : TabContainer.t) : Prop :=
  children (nodes st !!! TabContainer.contentArea tc)
  = match TabContainer.tabAt (TabContainer.tabs tc) (TabContainer.activeTabIndex tc) with
    | Some activeTab => [TabContainer.content activeTab]
    | None => []
    end.

(** What the calls keep of a tab container in its store. *)
Definition tabInvariant (st : state) (tc : TabContainer.t) : Prop :=
  linked (nodes st)
  ∧ is_Some (nodes st !! TabContainer.contentArea tc)
  ∧ TabContainer.tabBar tc ≠ TabContainer.contentArea tc
  ∧ activeInRange tc
  ∧ activeShown st tc.

(** A node without parent and without children. *)
Definition unlinked (st : state) (n : id) : Prop :=
  parent (nodes st !!! n) = None ∧ children (nodes st !!! n) = [].


(** ** Further examples *)

(** A and B attached to the example scene and the focus cleared: the
    registry holds B (tab index 1) before A (no tab index), and C (tab
    index 0) is not attached. *)
Definition twoUnfocused : state :=
  run noHandler exampleScene [AddChild 0 2; AddChild 0 3; SetFocus None]%nat.

(** A scene whose background rectangle has the width -1: node 0 is the
    scene and node 1 the background. *)
Definition negativeStore : gmap id node :=
  nodes (newScene 0 1 (-1, 1) (0, 0) (0, 0, 0)).

(** A text input 20 cells wide that holds the text ab and has the focus,
    and a focused button with a click handler. *)
Definition exampleInput : TextInput.t :=
  TextInput.onFocus
    (TextInput.new (20, 3) (50, 50, 70) (255, 255, 255) (70, 70, 100)
       "name" "ab" true).

(** Handlers of a text input with one handler, for [enter], that clears
    the value, puts the cursor at its start and shows both. *)
Definition clearingHandlers : string → option (TextInput.t → TextInput.t * bool) :=
  λ key, if String.eqb key "enter"
         then Some (λ ti, (TextInput._updateTextDisplay (TextInput.edit ti EmptyString 0),
                           true))
         else None.

Definition exampleButton : Button.t :=
  Button.onFocus
    (Button.new "OK" None (100, 100, 200) (255, 255, 255) (150, 150, 255) true).

(** A store with two detached groups, nodes 10 and 11, and the tab
    container made in it from the nodes 1 to 4, with the two groups as the
    contents of two tabs. No content has a [handleKey] method. *)
Definition detachedContents : state :=
  {| nodes := <[10%nat := newNode (0, 0) Group None]>
              {[ 11%nat := newNode (0, 0) Group None ]};
     scene := 0%nat; focusedComponent := None; focusableComponents := [];
     keyboardHandlers := []; events := [] |}.

Definition noContentHandler : id → string → option bool := λ _ _, None.

Definition twoTabs : list tabCall :=
  [AddTab "one" 10 5 6 7; AddTab "two" 11 12 13 14]%nat.

Definition exampleTabs : state * TabContainer.t :=
  let p := TabContainer.new detachedContents 1 2 3 4 (0, 0) (40, 20) 3
             (40, 40, 60) (60, 60, 100) (50, 50, 80) in
  TabContainer.addTab
    (TabContainer.addTab p.1 p.2 "one" 10 5 6 7).1
    (TabContainer.addTab p.1 p.2 "one" 10 5 6 7).2
    "two" 11 12 13 14.


(** ** Callbacks that redraw *)

(** Two stores agree on what the tree operations and the Scene read: parent
    references, children lists and focus fields. What the callbacks and the
    redraw assign besides (colours, texts, positions, visibility) may
    differ. *)
Definition sameButDrawn (s s' : gmap id node) : Prop :=
  ∀ n, parent (s' !!! n) = parent (s !!! n)
       ∧ children (s' !!! n) = children (s !!! n)
       ∧ focus (s' !!! n) = focus (s !!! n).

Definition sameButDrawing (st st' : state) : Prop :=
  sameButDrawn (nodes st) (nodes st')
  ∧ scene st' = scene st
  ∧ focusedComponent st' = focusedComponent st
  ∧ focusableComponents st' = focusableComponents st
  ∧ keyboardHandlers st' = keyboardHandlers st
  ∧ events st' = events st.

(** A callback that, when it returns, has set the [isFocused] flag of its
    component to [flag] and has left the other focus fields, the links and
    the fields of the Scene as they were. *)
Definition callbackSets (flag : bool) (callback : id → state → io state) : Prop :=
  ∀ c st w st', callback c st = (w, Returned st') →
    sameButDrawing
      (withNodes st (<[c := withIsFocused (nodes st !!! c) flag]> (nodes st))) st'.

(** A call that returns, and callbacks that always do. *)
Definition returns {A} (m : io A) : Prop := ∃ w a, m = (w, Returned a).

Definition callbackReturns (callback : id → state → io state) : Prop :=
  ∀ c st, returns (callback c st).

(** Nodes as the constructors leave them: the scene 0 and its background
    1; the buttons 2 and 5 with their backgrounds 3 and 6 and their texts 4
    and 7; the group 8; and the outlined rectangle 9, which is 0 cells
    wide. *)
Definition detachedButtons : state :=
  {| nodes :=
       <[0%nat := newNode (0, 0) Group None]>
       (<[1%nat := newNode (0, 0) (Rectangle (10, 5) (0, 0, 0) true) None]>
       (<[2%nat := newNode (1, 1) Group
                     (Some {| isFocused := false; tabIndex := None |})]>
       (<[3%nat := newNode (0, 0) (Rectangle (6, 3) (100, 100, 200) true) None]>
       (<[4%nat := newNode (2, 1) (Text "OK" (255, 255, 255)) None]>
       (<[5%nat := newNode (1, 5) Group
                     (Some {| isFocused := false; tabIndex := None |})]>
       (<[6%nat := newNode (0, 0) (Rectangle (6, 3) (100, 100, 200) true) None]>
       (<[7%nat := newNode (2, 1) (Text "No" (255, 255, 255)) None]>
       (<[8%nat := newNode (0, 0) Group None]>
       {[ 9%nat := newNode (0, 0) (Rectangle (0, 3) (255, 255, 255) false) None ]}))))))));
     scene := 0%nat; focusedComponent := None; focusableComponents := [];
     keyboardHandlers := []; events := [] |}.

Definition twoButtons : id → option button :=
  λ c, if decide (c = 2%nat) then Some (mkButton 3 (100, 100, 200) (150, 150, 255))
       else if decide (c = 5%nat) then Some (mkButton 6 (100, 100, 200) (150, 150, 255))
       else None.

(** The calls of the constructors of the scene and the two buttons, and
    the two buttons added to the scene: the first of them takes the
    focus. *)
Definition buildButtons : list linkCall :=
  [Attach 0 1; Attach 2 3; Attach 2 4; Attach 5 6; Attach 5 7;
   Attach 0 2; Attach 0 5]%nat.

(** The state a run leaves, when it returns. *)
Definition stateAfter (m : io state) : state :=
  match m.2 with
  | Returned st => st
  | Failed _ => detachedButtons
  end.

(** The two buttons and the rectangle without width in the scene; and,
    instead of the rectangle, the focused button 2 moved into the group
    8. *)
Definition narrowScene : state :=
  stateAfter (runDrawn (buttonOnFocus 10 twoButtons) (buttonOnBlur 10 twoButtons)
                detachedButtons (buildButtons ++ [Attach 0%nat 9%nat])).

Definition movedButton : state :=
  stateAfter (runDrawn (buttonOnFocus 10 twoButtons) (buttonOnBlur 10 twoButtons)
                detachedButtons (buildButtons ++ [Attach 8%nat 2%nat])).

(** The button 2 added to the scene again. *)
Definition backInScene : state :=
  stateAfter (addChildDrawn (buttonOnFocus 10 twoButtons) (buttonOnBlur 10 twoButtons)
                movedButton 0%nat 2%nat).

(** Components whose callbacks only set the flag. *)
Definition noButtons : id → option button := λ _, None.

(** * Properties *)

(** ** Key decoder *)

Section DecoderFacts.
Import Str Decoder.

Lemma substring_length n s :
  String.length (substring n s) = (String.length s - n)%nat.
Proof.
  revert s; induction n as [|n IH]; intros [|c s]; simpl; auto with lia.
Qed.

Lemma firstMatch_elem table input seq key :
  firstMatch table input = Some (seq, key) → (seq, key) ∈ table.
Proof.
  induction table as [|[seq' key'] table IH]; simpl; [discriminate|].
  destruct (startsWith input seq').
  - intros [= -> ->]. left.
  - intros H. right. auto.
Qed.

Lemma KEY_MAPPING_nonempty seq key :
  (seq, key) ∈ KEY_MAPPING → (0 < String.length seq)%nat.
Proof.
  assert (H : Forall (λ p, (0 < String.length p.1)%nat) KEY_MAPPING)
    by (unfold KEY_MAPPING; repeat constructor).
  rewrite Forall_forall in H. intros Hin. apply (H _ Hin).
Qed.

(** Every turn of the loop shortens the input. *)
Lemma step_shorter input key rest :
  step input = Some (key, rest) → (String.length rest < String.length input)%nat.
Proof.
  destruct input as [|c input]; [discriminate|].
  unfold step.
  destruct (firstMatch KEY_MAPPING (String c input)) as [[seq key']|] eqn:E.
  - intros [= <- <-]. rewrite substring_length.
    apply firstMatch_elem, KEY_MAPPING_nonempty in E. simpl in *. lia.
  - intros [= <- <-]. simpl. lia.
Qed.

(** The loop ends: fuel equal to the length of the input is enough. *)
Lemma handleInputLoop_returns fuel input :
  (String.length input ≤ fuel)%nat → is_Some (handleInputLoop fuel input).
Proof.
  revert input; induction fuel as [|fuel IH]; intros input Hlen.
  - destruct input; [|simpl in Hlen; lia]. simpl. eauto.
  - destruct fuel; simpl; destruct (step input) as [[key rest]|] eqn:E; eauto.
    + apply step_shorter in E.
      destruct (IH rest ltac:(lia)) as [keys Hk]. simpl in Hk. rewrite Hk. eauto.
    + apply step_shorter in E.
      destruct (IH rest ltac:(lia)) as [keys Hk]. simpl in Hk. rewrite Hk. eauto.
Qed.

Lemma _handleInput_returns input : is_Some (_handleInput input).
Proof. apply handleInputLoop_returns. lia. Qed.

(** A sequence does not match an input that starts with another character. *)
Lemma startsWith_other a seq c rest :
  c ≠ a → startsWith (String c rest) (String a seq) = false.
Proof.
  intros Hne. unfold startsWith. cbn [String.prefix].
  destruct (ascii_dec a c); [congruence | done].
Qed.

Lemma startsWith_other_app a seq c rest :
  c ≠ a → startsWith (String c rest) (String a EmptyString ++ seq)%string = false.
Proof. apply startsWith_other. Qed.

(** A plain character is passed on as a literal token. *)
Lemma step_plain c rest :
  plain c → step (String c rest) = Some (String c EmptyString, rest).
Proof.
  intros (H1 & H2 & H3 & H4 & H5 & H6). unfold step, KEY_MAPPING.
  unfold ESC, CR, LF, TAB, DEL, chr. cbn [firstMatch].
  rewrite !startsWith_other_app by assumption.
  rewrite !startsWith_other by assumption. reflexivity.
Qed.

(** A chunk of plain characters gives one literal token per character, in
    order. *)
Lemma _handleInput_plain input :
  allPlain input → _handleInput input = Some (literals input).
Proof.
  unfold _handleInput. induction input as [|c input IH]; [done|].
  intros [Hc Hrest]. cbn [String.length handleInputLoop]. rewrite step_plain by done.
  cbn [literals]. by rewrite IH.
Qed.

End DecoderFacts.

(** C3. Decoding each sequence of the mapping table, taken as a whole chunk:
    every sequence gives its own single token except ESC [ Z, which gives
    the token of its one-character prefix ESC followed by the two literal
    characters; the chunk made of the plain characters a and b gives the
    two literal tokens in order. *)
Theorem decode_table_sequences :
  map (λ p, Decoder._handleInput p.1) Decoder.KEY_MAPPING =
    [ Some ["up"%string]; Some ["down"%string]; Some ["right"%string];
      Some ["left"%string]; Some ["home"%string]; Some ["end"%string];
      Some ["delete"%string]; Some ["page_up"%string]; Some ["page_down"%string];
      Some ["escape"%string]; Some ["enter"%string]; Some ["enter"%string];
      Some ["tab"%string]; Some ["space"%string]; Some ["backspace"%string];
      Some ["escape"%string; "["%string; "Z"%string] ]
  ∧ Decoder._handleInput (Str.ESC ++ "[Z")%string
    = Some ["escape"%string; "["%string; "Z"%string]
  ∧ Decoder._handleInput "ab"%string = Some ["a"%string; "b"%string].
Proof. vm_compute. auto. Qed.

(** ** Protocol formatter and the [render] methods *)

Lemma write_then {A} (chunk : string) (k : io A) :
  (write chunk ;; k).1 = chunk :: k.1.
Proof. destruct k as [w r]. reflexivity. Qed.

(** C8, as stated, fails at the origin: for row 0 and column 0 the formatter
    emits ESC [ 0 ; 0 H and not ESC [ 1 ; 1 H. *)
Lemma moveCursor_origin_not_translated :
  KittyUtil.moveCursor 0 0
  ≠ (Str.ESC ++ "[" ++ Str.ofZ (0 + 1) ++ ";" ++ Str.ofZ (0 + 1) ++ "H")%string.
Proof. vm_compute. discriminate. Qed.

(** C8, amended. The formatter's cursor move prints the row and column it is
    given, unchanged; the +1 translation from the 0-indexed absolute
    position to the 1-indexed wire coordinates is done by the callers:
    the first chunk [Text.render] and [Rectangle.render] write is the cursor
    move to row y + 1, column x + 1. *)
Theorem cursor_translation_by_callers :
  (∀ row col : Z,
      KittyUtil.moveCursor row col
      = (Str.ESC ++ "[" ++ Str.ofZ row ++ ";" ++ Str.ofZ col ++ "H")%string)
  ∧ (∀ this text color,
        head (Text_render this text color).1
        = Some (KittyUtil.moveCursor ((absolutePosition this).2 + 1)
                  ((absolutePosition this).1 + 1)))
  ∧ (∀ this size color fill,
        head (Rectangle_render this size color fill).1
        = Some (KittyUtil.moveCursor ((absolutePosition this).2 + 1)
                  ((absolutePosition this).1 + 1))).
Proof.
  split; [reflexivity|]. split.
  - intros this text [[r g] b]. unfold Text_render.
    destruct (absolutePosition this) as [x y]. reflexivity.
  - intros this [width height] [[r g] b] fill. unfold Rectangle_render.
    destruct (absolutePosition this) as [x y].
    rewrite write_then. reflexivity.
Qed.

(** ** Renderer *)

Lemma forM__ext {A} (l : list A) (f g : A → io unit) :
  (∀ x, f x = g x) → forM_ l f = forM_ l g.
Proof. intros H. induction l as [|x l IH]; simpl; [done|]. by rewrite H, IH. Qed.

(** No [render] method reads the [visible] flag. *)
Lemma render_ignores_visible nd v : render (withVisible nd v) = render nd.
Proof. unfold render. simpl. destruct (draws nd); reflexivity. Qed.

(** The traversal writes the same chunks whatever the [visible] flag of any
    node is. *)
Lemma _renderNode_ignores_visible fuel (s : gmap id node) n v root :
  _renderNode fuel (<[n := withVisible (s !!! n) v]> s) root = _renderNode fuel s root.
Proof.
  revert root; induction fuel as [|fuel IH]; intros root; simpl; [done|].
  rewrite lookup_total_insert. destruct (decide (n = root)) as [->|].
  - rewrite render_ignores_visible. simpl.
    by rewrite (forM__ext _ _ (_renderNode fuel s) IH).
  - by rewrite (forM__ext _ _ (_renderNode fuel s) IH).
Qed.

(** C2. Rendering a frame of a scene that holds a text node whose [visible]
    flag is [false]: the chunks written end with the cursor move, colour,
    text and colour reset of that node, so the invisible node is drawn. *)
Theorem renderScene_draws_invisible_node :
  visible (hiddenTextStore !!! 2%nat) = false
  ∧ (renderScene 3 hiddenTextStore 0%nat).1
    = [ KittyUtil.clearScreen;
        KittyUtil.moveCursor 1 1; KittyUtil.moveCursor 1 1;
        KittyUtil.setBackgroundColor 0 0 0; "  "%string; KittyUtil.resetColors;
        KittyUtil.moveCursor 4 3; KittyUtil.setForegroundColor 255 255 255;
        "|"%string; KittyUtil.resetColors ].
Proof. vm_compute. auto. Qed.

(** ** Tree links *)

Lemma indexOf_None (l : list id) x : x ∉ l → indexOf l x = None.
Proof.
  induction l as [|y l IH]; simpl; [done|].
  intros Hx. apply not_elem_of_cons in Hx as [Hxy Hl].
  destruct (decide (y = x)); [congruence|]. by rewrite IH.
Qed.

Lemma indexOf_Some (l : list id) x i :
  indexOf l x = Some i →
  ∃ l1 l2, l = l1 ++ (x :: l2) ∧ (x ∉ l1) ∧ splice1 i l = l1 ++ l2.
Proof.
  revert i; induction l as [|y l IH]; simpl; intros i.
  { discriminate. }
  destruct (decide (y = x)) as [->|Hne].
  - intros [= <-]. exists [], l. split; [done|]. split; [apply not_elem_of_nil | done].
  - destruct (indexOf l x) as [j|] eqn:E; simpl; [|discriminate].
    intros [= <-]. destruct (IH j eq_refl) as (l1 & l2 & -> & Hx & Hs).
    exists (y :: l1), l2. split; [done|]. split.
    + apply not_elem_of_cons. auto.
    + unfold splice1 in *. change (y :: delete j (l1 ++ x :: l2) = y :: l1 ++ l2).
      by rewrite Hs.
Qed.

Lemma indexOf_elem (l : list id) x : x ∈ l → is_Some (indexOf l x).
Proof.
  intros Hx. destruct (indexOf l x) eqn:E; [eauto|].
  exfalso. revert Hx E. induction l as [|y l IH]; simpl.
  - intros H. by apply elem_of_nil in H.
  - intros H. destruct (decide (y = x)); [discriminate|].
    apply elem_of_cons in H as [->|H]; [done|].
    destruct (indexOf l x); [discriminate|]. auto.
Qed.

Lemma withNodes_nodes st : withNodes st (nodes st) = st.
Proof. by destruct st. Qed.

(** C9. Removing a node that is not in the children list of the receiver
    returns [false] and leaves the whole state as it was, for a plain node
    and for the scene alike; in particular the children list of the parent
    and the parent reference of the child are what they were. *)
Theorem removeChild_absent st this child :
  child ∉ children (nodes st !!! this) →
  removeChild st this child = (st, false)
  ∧ Node_removeChild (nodes st) this child = (nodes st, false).
Proof.
  intros Hnot.
  assert (HN : Node_removeChild (nodes st) this child = (nodes st, false)).
  { unfold Node_removeChild. by rewrite indexOf_None. }
  split; [|done].
  unfold removeChild, Scene_removeChild.
  destruct (decide (this = scene st)) as [->|].
  - by rewrite HN.
  - rewrite HN. by rewrite withNodes_nodes.
Qed.

Lemma sameCapabilities_refl s : sameCapabilities s s.
Proof. done. Qed.

Lemma sameCapabilities_trans s1 s2 s3 :
  sameCapabilities s1 s2 → sameCapabilities s2 s3 → sameCapabilities s1 s3.
Proof.
  intros H12 H23 n. destruct (H12 n) as [? ?], (H23 n) as [? ?]. split; congruence.
Qed.

Lemma sameLinks_refl s : sameLinks s s.
Proof. done. Qed.

Lemma sameLinks_trans s1 s2 s3 : sameLinks s1 s2 → sameLinks s2 s3 → sameLinks s1 s3.
Proof.
  intros H12 H23 n. destruct (H12 n) as [? ?], (H23 n) as [? ?]. split; congruence.
Qed.

(** Reading a store after field assignments. *)
Ltac lookups :=
  repeat (rewrite lookup_total_insert in * );
  repeat case_decide; subst; simpl in *; try done; try congruence.

Lemma Node_removeChild_found (s : gmap id node) this child i :
  indexOf (children (s !!! this)) child = Some i →
  ∃ l1 l2 s',
    Node_removeChild s this child = (s', true)
    ∧ detached s s' this child l1 l2
    ∧ sameCapabilities s s'.
Proof.
  intros Hi. destruct (indexOf_Some _ _ _ Hi) as (l1 & l2 & Hl & Hx & Hs).
  unfold Node_removeChild. rewrite Hi. eexists l1, l2, _. split; [done|].
  split; [split; [done|]; split; [done|]; split|]; intros n.
  - rewrite Hs. lookups.
  - lookups.
  - unfold isFocusable, tabIndexOf. lookups.
Qed.

Lemma Node_removeChild_absent (s : gmap id node) this child :
  indexOf (children (s !!! this)) child = None →
  Node_removeChild s this child = (s, false).
Proof. intros Hi. unfold Node_removeChild. by rewrite Hi. Qed.

Lemma detached_sameLinks s s1 s2 this child l1 l2 :
  detached s s1 this child l1 l2 → sameLinks s1 s2 → detached s s2 this child l1 l2.
Proof.
  intros (Hl & Hx & Hc & Hp) H12. split; [done|]. split; [done|].
  split; intros n; destruct (H12 n) as [Hp' Hc']; [rewrite Hc'; apply Hc | rewrite Hp'; apply Hp].
Qed.

Lemma attached_sameLinks_l s0 s s' this child :
  sameLinks s0 s → attached s s' this child → attached s0 s' this child.
Proof.
  intros H0 [Hc Hp]. split; intros n; destruct (H0 n) as [Hp0 Hc0].
  - rewrite Hc, Hc0. done.
  - rewrite Hp, Hp0. done.
Qed.

Lemma attached_sameLinks_r s s1 s2 this child :
  attached s s1 this child → sameLinks s1 s2 → attached s s2 this child.
Proof.
  intros [Hc Hp] H12. split; intros n; destruct (H12 n) as [Hp' Hc'].
  - rewrite Hc'. apply Hc.
  - rewrite Hp'. apply Hp.
Qed.

Lemma onFocus_spec st c :
  sameLinks (nodes st) (nodes (onFocus st c))
  ∧ sameCapabilities (nodes st) (nodes (onFocus st c))
  ∧ sameScene st (onFocus st c)
  ∧ focusedComponent (onFocus st c) = focusedComponent st
  ∧ focusableComponents (onFocus st c) = focusableComponents st
  ∧ events (onFocus st c)
    = events st ++ (if isFocusable (nodes st) c then [OnFocus c] else []).
Proof.
  unfold onFocus, isFocusable, tabIndexOf, sameLinks, sameCapabilities, sameScene.
  destruct (focus (nodes st !!! c)) as [f|] eqn:E; simpl.
  - repeat split; try done; unfold isFocusable, tabIndexOf; lookups;
      rewrite E; done.
  - rewrite app_nil_r. done.
Qed.

Lemma onBlur_spec st c :
  sameLinks (nodes st) (nodes (onBlur st c))
  ∧ sameCapabilities (nodes st) (nodes (onBlur st c))
  ∧ sameScene st (onBlur st c)
  ∧ focusedComponent (onBlur st c) = focusedComponent st
  ∧ focusableComponents (onBlur st c) = focusableComponents st
  ∧ events (onBlur st c)
    = events st ++ (if isFocusable (nodes st) c then [OnBlur c] else []).
Proof.
  unfold onBlur, isFocusable, tabIndexOf, sameLinks, sameCapabilities, sameScene.
  destruct (focus (nodes st !!! c)) as [f|] eqn:E; simpl.
  - repeat split; try done; unfold isFocusable, tabIndexOf; lookups;
      rewrite E; done.
  - rewrite app_nil_r. done.
Qed.

Lemma setFocus_spec st component :
  sameLinks (nodes st) (nodes (setFocus st component))
  ∧ sameCapabilities (nodes st) (nodes (setFocus st component))
  ∧ sameScene st (setFocus st component)
  ∧ focusedComponent (setFocus st component) = component
  ∧ focusableComponents (setFocus st component) = focusableComponents st.
Proof.
  unfold setFocus.
  set (st1 := match focusedComponent st with Some f => onBlur st f | None => st end).
  assert (H1 : sameLinks (nodes st) (nodes st1)
               ∧ sameCapabilities (nodes st) (nodes st1)
               ∧ sameScene st st1
               ∧ focusableComponents st1 = focusableComponents st).
  { subst st1. destruct (focusedComponent st) as [f|].
    - destruct (onBlur_spec st f) as (? & ? & ? & ? & ? & ?). done.
    - done. }
  destruct H1 as (HL & HC & HS & HR).
  destruct component as [c|]; simpl.
  - destruct (onFocus_spec (withFocusedComponent st1 (Some c)) c)
      as (HL' & HC' & HS' & HF' & HR' & _). simpl in *.
    split; [eapply sameLinks_trans; eauto|].
    split; [eapply sameCapabilities_trans; eauto|].
    split; [destruct HS, HS'; split; simpl in *; congruence|].
    split; congruence.
  - done.
Qed.

(** The events of [setFocus] when nothing was focused: one [onFocus] call. *)
Lemma setFocus_events_from_none st c :
  focusedComponent st = None → isFocusable (nodes st) c = true →
  events (setFocus st (Some c)) = events st ++ [OnFocus c].
Proof.
  intros HN HF. unfold setFocus. rewrite HN.
  destruct (onFocus_spec (withFocusedComponent st (Some c)) c) as (_ & _ & _ & _ & _ & HE).
  rewrite HE. simpl. by rewrite HF.
Qed.

(** Sorting *)
Lemma insertSorted_Permutation s a l : insertSorted s a l ≡ₚ a :: l.
Proof.
  induction l as [|b l IH]; simpl; [done|].
  destruct (_ <=? _); [done|]. rewrite IH. apply perm_swap.
Qed.

Lemma sortFocusableComponents_Permutation s l : sortFocusableComponents s l ≡ₚ l.
Proof.
  induction l as [|a l IH]; simpl; [done|].
  rewrite insertSorted_Permutation. by rewrite IH.
Qed.

Lemma sortFocusableComponents_elem s l x : x ∈ sortFocusableComponents s l ↔ x ∈ l.
Proof. by rewrite sortFocusableComponents_Permutation. Qed.

Lemma registryWithout_elem reg child x :
  (x ∈ registryWithout reg child → x ∈ reg)
  ∧ (x ≠ child → x ∈ reg → x ∈ registryWithout reg child).
Proof.
  unfold registryWithout. destruct (indexOf reg child) as [i|] eqn:E; [|done].
  destruct (indexOf_Some _ _ _ E) as (l1 & l2 & -> & Hx & ->).
  split.
  - intros [H|H]%elem_of_app; apply elem_of_app; [by left | right; by right].
  - intros Hne [H|H]%elem_of_app; apply elem_of_app; [by left|].
    apply elem_of_cons in H as [->|H]; [done | by right].
Qed.

Lemma Scene_removeChild_found st child i :
  indexOf (children (nodes st !!! scene st)) child = Some i →
  ∃ l1 l2 st',
    Scene_removeChild st child = (st', true)
    ∧ detached (nodes st) (nodes st') (scene st) child l1 l2
    ∧ sameCapabilities (nodes st) (nodes st')
    ∧ sameScene st st'
    ∧ focusableComponents st' ≡ₚ registryWithout (focusableComponents st) child
    ∧ focusedComponent st'
      = if decide (focusedComponent st = Some child)
        then head (focusableComponents st') else focusedComponent st.
Proof.
  intros Hi.
  destruct (Node_removeChild_found _ _ _ _ Hi) as (l1 & l2 & s1 & HN & HD & HC).
  unfold Scene_removeChild. rewrite HN.
  set (st1 := withNodes st s1).
  set (st2 := match indexOf (focusableComponents st1) child with
              | Some index => _ | None => st1 end).
  assert (H2 : nodes st2 = s1 ∧ sameScene st st2
               ∧ focusedComponent st2 = focusedComponent st
               ∧ focusableComponents st2 ≡ₚ registryWithout (focusableComponents st) child).
  { subst st2. unfold registryWithout. simpl.
    destruct (indexOf (focusableComponents st) child); simpl;
      repeat split; try done.
    apply sortFocusableComponents_Permutation. }
  destruct H2 as (Hn2 & HS2 & HF2 & HR2).
  exists l1, l2. eexists. split; [reflexivity|].
  unfold bool_decide. destruct (decide (focusedComponent st = Some child)) as [Hf|Hf].
  - destruct (decide_rel _ _ _); [|done].
    destruct (setFocus_spec st2 (head (focusableComponents st2)))
      as (HL & HC' & HS' & HF' & HR').
    rewrite Hn2 in *.
    split; [eapply detached_sameLinks; eauto|].
    split; [eapply sameCapabilities_trans; eauto|].
    split; [destruct HS2, HS'; split; congruence|].
    split; [by rewrite HR'|]. by rewrite HF', HR'.
  - destruct (decide_rel _ _ _); [done|].
    rewrite Hn2. do 4 (split; [done|]). done.
Qed.

Lemma Scene_removeChild_absent st child :
  indexOf (children (nodes st !!! scene st)) child = None →
  Scene_removeChild st child = (st, false).
Proof.
  intros Hi. unfold Scene_removeChild. by rewrite Node_removeChild_absent.
Qed.

Lemma registryAfterRemoval_same st st' child :
  focusableComponents st' = focusableComponents st →
  focusedComponent st' = focusedComponent st →
  registryAfterRemoval st st' child.
Proof.
  intros HR HF. unfold registryAfterRemoval. rewrite HR, HF.
  split; [done|]. split; [done|]. left. split; [done|]. by left.
Qed.

Lemma removeChild_cases st this child :
  ((child ∉ children (nodes st !!! this)) ∧ removeChild st this child = (st, false))
  ∨ (∃ l1 l2 st',
        removeChild st this child = (st', true)
        ∧ detached (nodes st) (nodes st') this child l1 l2
        ∧ sameCapabilities (nodes st) (nodes st')
        ∧ sameScene st st'
        ∧ registryAfterRemoval st st' child).
Proof.
  destruct (indexOf (children (nodes st !!! this)) child) as [i|] eqn:Hi.
  - right. unfold removeChild. destruct (decide (this = scene st)) as [->|Hne].
    + destruct (Scene_removeChild_found _ _ _ Hi)
        as (l1 & l2 & st' & HR & HD & HC & HS & HP & HF).
      exists l1, l2, st'. do 4 (split; [done|]).
      split; [|split].
      * intros x Hx. rewrite HP in Hx. by apply registryWithout_elem in Hx.
      * intros x Hne Hx. rewrite HP. by apply registryWithout_elem.
      * rewrite HF. destruct (decide (focusedComponent st = Some child)); auto.
    + destruct (Node_removeChild_found _ _ _ _ Hi) as (l1 & l2 & s' & HN & HD & HC).
      rewrite HN. exists l1, l2, (withNodes st s'). do 3 (split; [done|]).
      split; [done|]. by apply registryAfterRemoval_same.
  - left. split.
    + intros Hin. apply indexOf_elem in Hin as [j Hj]. congruence.
    + unfold removeChild. destruct (decide (this = scene st)) as [->|].
      * by apply Scene_removeChild_absent.
      * rewrite Node_removeChild_absent by done. by rewrite withNodes_nodes.
Qed.

Lemma Node_addChild_spec st this child :
  attached (nodes (afterDetach st child)) (nodes (Node_addChild st this child)) this child
  ∧ sameCapabilities (nodes (afterDetach st child)) (nodes (Node_addChild st this child))
  ∧ sameScene (afterDetach st child) (Node_addChild st this child)
  ∧ focusableComponents (Node_addChild st this child)
    = focusableComponents (afterDetach st child)
  ∧ focusedComponent (Node_addChild st this child)
    = focusedComponent (afterDetach st child)
  ∧ events (Node_addChild st this child) = events (afterDetach st child).
Proof.
  unfold Node_addChild. fold (afterDetach st child).
  set (st1 := afterDetach st child). simpl.
  split; [split|]; [| |split; [|done]]; intros n.
  - lookups.
  - lookups.
  - unfold isFocusable, tabIndexOf. lookups.
Qed.

(** ** The single-parent invariant *)

Lemma linked_sameLinks s s' : linked s → sameLinks s s' → linked s'.
Proof.
  intros (H1 & H2 & H3) HL. split; [|split].
  - intros p c Hc. rewrite (proj2 (HL p)) in Hc. rewrite (proj1 (HL c)). auto.
  - intros c p Hp. rewrite (proj1 (HL c)) in Hp. rewrite (proj2 (HL p)). auto.
  - intros p. rewrite (proj2 (HL p)). auto.
Qed.

Lemma linked_detached s s' this child l1 l2 :
  linked s → detached s s' this child l1 l2 →
  linked s' ∧ (child ∉ l1 ++ l2) ∧ parent (s !!! child) = Some this.
Proof.
  intros (H1 & H2 & H3) (Hl & Hx & Hc & Hp).
  assert (Hnd : NoDup (l1 ++ child :: l2)) by (rewrite <- Hl; apply H3).
  apply NoDup_app in Hnd as (Hnd1 & Hdis & Hnd2).
  apply NoDup_cons in Hnd2 as [Hx2 Hnd2].
  assert (Hnot : child ∉ l1 ++ l2).
  { intros [?|?]%elem_of_app; done. }
  assert (Hpar : parent (s !!! child) = Some this).
  { apply H1. rewrite Hl. apply elem_of_app. right. left. }
  split; [|done]. split; [|split].
  - intros p c. rewrite Hc, Hp. destruct (decide (p = this)) as [->|Hne].
    + intros Hin. destruct (decide (c = child)) as [->|]; [done|].
      apply H1. rewrite Hl. apply elem_of_app in Hin as [?|?]; apply elem_of_app;
        [by left | right; by right].
    + intros Hin. destruct (decide (c = child)) as [->|]; [|by apply H1].
      apply H1 in Hin. congruence.
  - intros c p. rewrite Hc, Hp. destruct (decide (c = child)) as [->|Hne]; [done|].
    intros Hpc. apply H2 in Hpc. destruct (decide (p = this)) as [->|]; [|done].
    rewrite Hl in Hpc. apply elem_of_app in Hpc as [?|Hpc]; apply elem_of_app; [by left|].
    apply elem_of_cons in Hpc as [->|?]; [done|by right].
  - intros p. rewrite Hc. destruct (decide (p = this)); [|apply H3].
    apply NoDup_app. split; [done|]. split; [|done].
    intros x Hx1 Hx2'. apply (Hdis x Hx1). by right.
Qed.

Lemma linked_attached s s' this child :
  linked s → parent (s !!! child) = None → attached s s' this child → linked s'.
Proof.
  intros (H1 & H2 & H3) Hnone [Hc Hp].
  assert (Hfree : ∀ p, child ∉ children (s !!! p)).
  { intros p Hin. apply H1 in Hin. congruence. }
  split; [|split].
  - intros p c. rewrite Hc, Hp. destruct (decide (p = this)) as [->|Hne].
    + intros [Hin|Hin]%elem_of_app.
      * destruct (decide (c = child)) as [->|]; [by apply Hfree in Hin | by apply H1].
      * apply list_elem_of_singleton in Hin as ->. by rewrite decide_True.
    + intros Hin. destruct (decide (c = child)) as [->|]; [by apply Hfree in Hin | by apply H1].
  - intros c p. rewrite Hc, Hp. destruct (decide (c = child)) as [->|Hne].
    + intros [= <-]. rewrite decide_True by done. apply elem_of_app. right. left.
    + intros Hpc. apply H2 in Hpc. destruct (decide (p = this)); [|done].
      apply elem_of_app. by left.
  - intros p. rewrite Hc. destruct (decide (p = this)); [|apply H3].
    apply NoDup_app. split; [apply H3|]. split; [|apply NoDup_singleton].
    intros x Hx ->%list_elem_of_singleton. by apply Hfree in Hx.
Qed.

Lemma removeChild_linked st this child :
  linked (nodes st) → linked (nodes (removeChild st this child).1).
Proof.
  intros HL. destruct (removeChild_cases st this child)
    as [[_ ->]|(l1 & l2 & st' & -> & HD & _)]; [done|].
  simpl. by destruct (linked_detached _ _ _ _ _ _ HL HD).
Qed.

Lemma afterDetach_linked st child :
  linked (nodes st) →
  linked (nodes (afterDetach st child)) ∧ parent (nodes (afterDetach st child) !!! child) = None.
Proof.
  intros HL. unfold afterDetach.
  destruct (parent (nodes st !!! child)) as [p|] eqn:Hp; [|done].
  destruct (removeChild_cases st p child)
    as [[Hnot _]|(l1 & l2 & st' & -> & HD & _)].
  - destruct HL as (_ & H2 & _). by apply H2 in Hp.
  - simpl. destruct (linked_detached _ _ _ _ _ _ HL HD) as (HL' & _ & _).
    split; [done|]. destruct HD as (_ & _ & _ & HP). rewrite HP. by rewrite decide_True.
Qed.

Lemma Node_addChild_linked st this child :
  linked (nodes st) → linked (nodes (Node_addChild st this child)).
Proof.
  intros HL. destruct (afterDetach_linked st child HL) as [HL1 Hnone].
  destruct (Node_addChild_spec st this child) as (HA & _).
  eapply linked_attached; eauto.
Qed.

Lemma Scene_addChild_nodes st child :
  sameLinks (nodes (Node_addChild st (scene st) child)) (nodes (Scene_addChild st child))
  ∧ sameCapabilities (nodes (Node_addChild st (scene st) child))
      (nodes (Scene_addChild st child))
  ∧ sameScene (Node_addChild st (scene st) child) (Scene_addChild st child).
Proof.
  unfold Scene_addChild. generalize (Node_addChild st (scene st) child) as st1.
  intros st1. destruct (isFocusable (nodes st1) child); [|done]. simpl.
  destruct (focusedComponent st1); [done|].
  match goal with |- context [setFocus ?a ?b] =>
    destruct (setFocus_spec a b) as (? & ? & ? & _) end.
  done.
Qed.

Lemma addChild_linked st this child :
  linked (nodes st) → linked (nodes (addChild st this child)).
Proof.
  intros HL. unfold addChild. destruct (decide (this = scene st)) as [->|].
  - eapply linked_sameLinks; [|apply Scene_addChild_nodes].
    by apply Node_addChild_linked.
  - by apply Node_addChild_linked.
Qed.

Lemma getTabbableChildren_nil s this : getTabbableChildren s this = [].
Proof. reflexivity. Qed.

(** With the inherited [getTabbableChildren] the navigation stage never
    handles a key. *)
Lemma navigate_None st key : navigate st key = None.
Proof.
  unfold navigate. rewrite getTabbableChildren_nil. simpl.
  destruct (_ || _); [done|]. destruct (_ || _); [|done].
  by destruct (focusedComponent st).
Qed.

Lemma handleKey_cases handler st key :
  handleKey handler st key = (st, true)
  ∨ handleKey handler st key = (emit st (Handler key), true)
  ∨ handleKey handler st key = (st, false).
Proof.
  unfold handleKey. rewrite navigate_None.
  destruct (match focusedComponent st with Some _ => _ | None => _ end); [auto|].
  destruct (bool_decide _); auto.
Qed.

Lemma exec_linked handler st c :
  linked (nodes st) → linked (nodes (exec handler st c)).
Proof.
  intros HL. destruct c as [this child|this child|component|key|key]; simpl.
  - by apply addChild_linked.
  - by apply removeChild_linked.
  - eapply linked_sameLinks; [done|apply setFocus_spec].
  - destruct (handleKey_cases handler st key) as [-> | [-> | ->]]; done.
  - done.
Qed.

Lemma run_linked handler st cs :
  linked (nodes st) → linked (nodes (run handler st cs)).
Proof.
  revert st; induction cs as [|c cs IH]; intros st HL; simpl; [done|].
  apply IH. by apply exec_linked.
Qed.

Lemma allDetached_linked s : allDetached s → linked s.
Proof.
  intros H. split; [|split].
  - intros p c Hc. rewrite (proj2 (H p)) in Hc. by apply elem_of_nil in Hc.
  - intros c p Hp. rewrite (proj1 (H c)) in Hp. done.
  - intros p. rewrite (proj2 (H p)). apply NoDup_nil_2.
Qed.

(** Re-attaching: what [addChild] does to a child that has a parent. *)
Lemma addChild_reattach st this child old :
  linked (nodes st) → parent (nodes st !!! child) = Some old →
  ∃ l1 l2,
    children (nodes st !!! old) = l1 ++ (child :: l2)
    ∧ (child ∉ l1 ++ l2)
    ∧ children (nodes (addChild st this child) !!! old)
      = (l1 ++ l2) ++ (if decide (old = this) then [child] else [])
    ∧ (old ≠ this →
       children (nodes (addChild st this child) !!! this)
       = children (nodes st !!! this) ++ [child])
    ∧ parent (nodes (addChild st this child) !!! child) = Some this.
Proof.
  intros HL Hp.
  assert (HA : ∃ l1 l2,
             detached (nodes st) (nodes (afterDetach st child)) old child l1 l2).
  { unfold afterDetach. rewrite Hp.
    destruct (removeChild_cases st old child)
      as [[Hnot _]|(l1 & l2 & st' & -> & HD & _)].
    - destruct HL as (_ & H2 & _). by apply H2 in Hp.
    - by exists l1, l2. }
  destruct HA as (l1 & l2 & HD).
  destruct (linked_detached _ _ _ _ _ _ HL HD) as (_ & Hnot & _).
  assert (HN : attached (nodes (afterDetach st child)) (nodes (addChild st this child))
                 this child).
  { unfold addChild. destruct (decide (this = scene st)) as [->|].
    - eapply attached_sameLinks_r; [apply Node_addChild_spec|apply Scene_addChild_nodes].
    - apply Node_addChild_spec. }
  destruct HD as (Hl & _ & Hc & _). destruct HN as [Hc' Hp'].
  exists l1, l2. split; [done|]. split; [done|]. split; [|split].
  - rewrite Hc', Hc. destruct (decide (old = old)); [|done].
    destruct (decide (old = this)); [done|]. by rewrite app_nil_r.
  - intros Hne. rewrite Hc', Hc. destruct (decide (this = this)); [|done].
    destruct (decide (this = old)); [congruence|done].
  - rewrite Hp'. by rewrite decide_True.
Qed.

Lemma removeChild_unfocused st this child :
  focusedComponent st ≠ Some child →
  focusedComponent (removeChild st this child).1 = focusedComponent st
  ∧ events (removeChild st this child).1 = events st.
Proof.
  intros Hf. unfold removeChild, Scene_removeChild.
  rewrite bool_decide_eq_false_2 by done.
  destruct (decide (this = scene st)) as [->|].
  - destruct (Node_removeChild (nodes st) (scene st) child) as [s1 [|]]; [|done].
    simpl. by destruct (indexOf (focusableComponents st) child).
  - by destruct (Node_removeChild (nodes st) this child) as [s1 removed].
Qed.

Lemma afterDetach_spec st child :
  sameCapabilities (nodes st) (nodes (afterDetach st child))
  ∧ sameScene st (afterDetach st child)
  ∧ registryAfterRemoval st (afterDetach st child) child.
Proof.
  unfold afterDetach. destruct (parent (nodes st !!! child)) as [p|].
  - destruct (removeChild_cases st p child)
      as [[_ ->]|(l1 & l2 & st' & -> & _ & HC & HS & HR)]; simpl; [|done].
    split; [done|]. split; [done|]. by apply registryAfterRemoval_same.
  - split; [done|]. split; [done|]. by apply registryAfterRemoval_same.
Qed.

Lemma afterDetach_unfocused st child :
  focusedComponent st ≠ Some child →
  focusedComponent (afterDetach st child) = focusedComponent st
  ∧ events (afterDetach st child) = events st.
Proof.
  intros Hf. unfold afterDetach. destruct (parent (nodes st !!! child)); [|done].
  by apply removeChild_unfocused.
Qed.

(** The registry after [Scene.addChild]: the one [Node.addChild] left, with
    the child added when it is focusable. *)
Lemma Scene_addChild_registry st child :
  focusableComponents (Scene_addChild st child)
  ≡ₚ focusableComponents (afterDetach st child)
     ++ (if isFocusable (nodes st) child then [child] else []).
Proof.
  destruct (Node_addChild_spec st (scene st) child) as (_ & HC & _ & HR & _).
  destruct (afterDetach_spec st child) as (HC0 & _).
  assert (HF : isFocusable (nodes (Node_addChild st (scene st) child)) child
               = isFocusable (nodes st) child).
  { rewrite (proj1 (HC child)). apply HC0. }
  unfold Scene_addChild. rewrite HF, <- HR.
  generalize (Node_addChild st (scene st) child) as st1. intros st1.
  destruct (isFocusable (nodes st) child); [|by rewrite app_nil_r].
  simpl. destruct (focusedComponent st1).
  - simpl. apply sortFocusableComponents_Permutation.
  - match goal with |- context [setFocus ?a ?b] =>
      destruct (setFocus_spec a b) as (_ & _ & _ & _ & ->) end.
    simpl. apply sortFocusableComponents_Permutation.
Qed.

(** C6, amended. [addChild] on the Scene registers the direct child, when it
    is focusable, and no other node: for every node other than the child,
    being in the registry is the same before and after the call. *)
Theorem addChild_registers_direct_child st child :
  (isFocusable (nodes st) child = true →
   child ∈ focusableComponents (addChild st (scene st) child))
  ∧ (∀ x, x ≠ child →
          x ∈ focusableComponents (addChild st (scene st) child)
          ↔ x ∈ focusableComponents st).
Proof.
  unfold addChild. rewrite decide_True by done.
  destruct (afterDetach_spec st child) as (_ & _ & HR1 & HR2 & _).
  split.
  - intros HF. rewrite Scene_addChild_registry, HF.
    apply elem_of_app. right. left.
  - intros x Hne. rewrite Scene_addChild_registry, elem_of_app. split.
    + intros [Hx|Hx]; [by apply HR1|].
      destruct (isFocusable (nodes st) child).
      * by apply list_elem_of_singleton in Hx.
      * by apply elem_of_nil in Hx.
    + intros Hx. left. by apply HR2.
Qed.

(** C7, amended. If the focused component is unset or in the registry before
    a [removeChild] call, it is so after the call; and when the call removes
    the focused component from the scene, the focus afterwards is the first
    entry of the registry without that component, or unset when nothing is
    left. *)
Theorem removeChild_keeps_focus_registered st this child :
  (focusRegistered st → focusRegistered (removeChild st this child).1)
  ∧ (this = scene st → focusedComponent st = Some child →
     child ∈ children (nodes st !!! scene st) →
     focusableComponents (removeChild st this child).1
     ≡ₚ registryWithout (focusableComponents st) child
     ∧ focusedComponent (removeChild st this child).1
       = head (focusableComponents (removeChild st this child).1)).
Proof.
  split.
  - intros HF.
    destruct (removeChild_cases st this child)
      as [[_ ->]|(l1 & l2 & st' & -> & _ & _ & _ & HR1 & HR2 & HR3)]; [done|].
    simpl. intros f Hf. destruct HR3 as [[Heq [Hreg|Hne]]|[Hc Hh]].
    + rewrite Hreg. apply HF. congruence.
    + rewrite Heq in Hf. apply HR2; [congruence | by apply HF].
    + rewrite Hh in Hf. by apply head_Some_elem_of in Hf.
  - intros -> Hf Hin. apply indexOf_elem in Hin as [i Hi].
    unfold removeChild. rewrite decide_True by done.
    destruct (Scene_removeChild_found _ _ _ Hi) as (l1 & l2 & st' & -> & _ & _ & _ & HP & HF).
    simpl. split; [done|]. rewrite HF. by rewrite decide_True.
Qed.

Lemma sortFocusableComponents_head s l :
  l ≠ [] → ∃ f, head (sortFocusableComponents s l) = Some f ∧ f ∈ l.
Proof.
  intros Hne.
  destruct (sortFocusableComponents s l) as [|f l'] eqn:E.
  - exfalso. apply Hne. apply Permutation_nil_r.
    rewrite <- E. symmetry. apply sortFocusableComponents_Permutation.
  - exists f. split; [done|].
    rewrite <- (sortFocusableComponents_elem s), E. left.
Qed.

(** Adding a focusable child to a scene without focus. *)
Lemma Scene_addChild_first_focus st child :
  registryFocusable st →
  isFocusable (nodes st) child = true →
  focusedComponent st = None →
  ∃ f, head (focusableComponents (Scene_addChild st child)) = Some f
       ∧ focusedComponent (Scene_addChild st child) = Some f
       ∧ events (Scene_addChild st child) = events st ++ [OnFocus f].
Proof.
  intros HRF HF HN.
  destruct (Node_addChild_spec st (scene st) child) as (_ & HC & _ & HR & HFo & HE).
  destruct (afterDetach_spec st child) as (HC0 & _ & HR1 & _).
  destruct (afterDetach_unfocused st child) as [HF0 HE0]; [congruence|].
  rewrite HF0, HN in HFo. rewrite HE0 in HE.
  assert (HFs : ∀ x, isFocusable (nodes (Node_addChild st (scene st) child)) x
                     = isFocusable (nodes st) x).
  { intros x. rewrite (proj1 (HC x)). apply HC0. }
  assert (HRm : ∀ x, x ∈ focusableComponents (Node_addChild st (scene st) child) →
                     x ∈ focusableComponents st).
  { intros x. rewrite HR. apply HR1. }
  unfold Scene_addChild. rewrite HFs, HF.
  revert HFo HE HFs HRm.
  generalize (Node_addChild st (scene st) child) as st1. intros st1 HFo HE HFs HRm.
  simpl. rewrite HFo.
  destruct (sortFocusableComponents_head (nodes st1) (focusableComponents st1 ++ [child]))
    as (f & Hh & Hin); [by destruct (focusableComponents st1)|].
  rewrite Hh.
  match goal with |- context [setFocus ?a ?b] =>
    destruct (setFocus_spec a b) as (_ & _ & _ & HF' & HR');
    rewrite HF', HR'; rewrite (setFocus_events_from_none a f) end; simpl.
  - exists f. rewrite Hh, HE. done.
  - done.
  - rewrite HFs. apply elem_of_app in Hin as [Hin|Hin].
    + by apply HRF, HRm.
    + by apply list_elem_of_singleton in Hin as ->.
Qed.

Lemma addChild_unfocused st this child f :
  focusedComponent st = Some f → f ≠ child →
  focusedComponent (addChild st this child) = Some f.
Proof.
  intros Hf Hne.
  assert (H1 : ∀ this, focusedComponent (Node_addChild st this child) = Some f).
  { intros this'. destruct (Node_addChild_spec st this' child) as (_ & _ & _ & _ & -> & _).
    destruct (afterDetach_unfocused st child) as [-> _]; congruence. }
  unfold addChild. destruct (decide (this = scene st)) as [->|]; [|done].
  unfold Scene_addChild. specialize (H1 (scene st)). revert H1.
  generalize (Node_addChild st (scene st) child) as st1. intros st1 H1.
  destruct (isFocusable (nodes st1) child); [|done]. simpl. by rewrite H1.
Qed.

Lemma head_None_nil (l : list id) : head l = None → l = [].
Proof. by destruct l. Qed.

(** A removal that unsets the focus removed the focused component and left
    the registry empty. *)
Lemma removeChild_focus_unset st this child f :
  focusedComponent st = Some f →
  focusedComponent (removeChild st this child).1 = None →
  f = child ∧ focusableComponents (removeChild st this child).1 = [].
Proof.
  intros Hf Hnone.
  destruct (removeChild_cases st this child)
    as [[_ Heq]|(l1 & l2 & st' & Heq & _ & _ & _ & _ & _ & HR)];
    rewrite Heq in *; simpl in *; [congruence|].
  destruct HR as [[Hsame _]|[Hc Hh]]; [congruence|].
  split; [congruence|]. apply head_None_nil. congruence.
Qed.

Lemma afterDetach_focus_unset st child f :
  focusedComponent st = Some f →
  focusedComponent (afterDetach st child) = None →
  f = child ∧ focusableComponents (afterDetach st child) = [].
Proof.
  unfold afterDetach. destruct (parent (nodes st !!! child)) as [p|].
  - apply removeChild_focus_unset.
  - congruence.
Qed.

Lemma addChild_focus_unset st this child :
  focusedComponent (addChild st this child) = None →
  focusedComponent (afterDetach st child) = None
  ∧ focusableComponents (addChild st this child)
    = focusableComponents (afterDetach st child).
Proof.
  assert (H1 : ∀ this,
             focusedComponent (Node_addChild st this child)
             = focusedComponent (afterDetach st child)
             ∧ focusableComponents (Node_addChild st this child)
               = focusableComponents (afterDetach st child)).
  { intros this'. by destruct (Node_addChild_spec st this' child) as (_ & _ & _ & -> & -> & _). }
  unfold addChild. destruct (decide (this = scene st)) as [->|].
  - unfold Scene_addChild. destruct (H1 (scene st)) as [<- <-].
    generalize (Node_addChild st (scene st) child) as st1. intros st1.
    destruct (isFocusable (nodes st1) child); [|done]. simpl.
    destruct (focusedComponent st1) as [f|] eqn:Hf; simpl; [congruence|].
    match goal with |- context [setFocus ?a ?b] =>
      destruct (setFocus_spec a b) as (_ & _ & _ & -> & _) end.
    destruct (sortFocusableComponents_head (nodes st1) (focusableComponents st1 ++ [child]))
      as (f & Hh & _); [by destruct (focusableComponents st1)|].
    simpl. congruence.
  - intros Hnone. destruct (H1 this) as [<- <-]. done.
Qed.

(** C4. With A, B and C registered in this order the registry is sorted to
    [C, B, A]; but the tab key on the scene with nothing focused is not
    handled: [handleKey] returns [false] and the focus stays unset, and so
    it does however often the key is sent. *)
Theorem tab_key_does_not_move_focus :
  focusableComponents threeComponents = [4; 3; 2]%nat
  ∧ focusedComponent threeComponents = None
  ∧ handleKey noHandler threeComponents "tab" = (threeComponents, false)
  ∧ ∀ st key, navigate st key = None.
Proof.
  split; [by vm_compute|]. split; [by vm_compute|]. split; [|apply navigate_None].
  unfold handleKey. rewrite navigate_None.
  replace (focusedComponent threeComponents) with (@None id) by (by vm_compute).
  replace (bool_decide ("tab"%string ∈ keyboardHandlers threeComponents))
    with false by (by vm_compute).
  done.
Qed.

(** C6, as stated, fails: the group 5, which holds the focusable component
    6, is attached to the scene; 6 is then reachable from the scene and is
    not in the registry. *)
Lemma nested_focusable_not_registered :
  let st := addChild exampleScene 0%nat 5%nat in
  isFocusable (nodes st) 6%nat = true
  ∧ parent (nodes st !!! 6%nat) = Some 5%nat
  ∧ parent (nodes st !!! 5%nat) = Some (scene st)
  ∧ 6%nat ∉ focusableComponents st.
Proof.
  vm_compute. do 3 (split; [done|]). apply not_elem_of_nil.
Qed.

(** C7, as stated, fails: the focus is set to the component 6 inside the
    group 5 and the group is removed from the scene; afterwards the focused
    component is 6, which is not in the registry. *)
Lemma focus_left_dangling :
  let st := run noHandler exampleScene
              [AddChild 0 5; SetFocus (Some 6); RemoveChild 0 5]%nat in
  focusedComponent st = Some 6%nat ∧ 6%nat ∉ focusableComponents st.
Proof.
  vm_compute. split; [done|]. apply not_elem_of_nil.
Qed.

(** ** The transform pass *)

Lemma ids_eq n kids : ids (Tree n kids) = n :: idsOfAll kids.
Proof. reflexivity. Qed.

Lemma elem_of_idsOfAll k kids m : k ∈ kids → m ∈ ids k → m ∈ idsOfAll kids.
Proof.
  induction kids as [|k' kids IH]; intros Hk Hm.
  - by apply elem_of_nil in Hk.
  - simpl. apply elem_of_app. apply elem_of_cons in Hk as [->|Hk]; auto.
Qed.

Lemma height_eq n kids : height (Tree n kids) = S (heightOfAll kids).
Proof.
  reflexivity.
Qed.

Lemma tree_induction (P : tree → Prop) :
  (∀ n kids, Forall P kids → P (Tree n kids)) → ∀ t, P t.
Proof.
  intros H. fix IH 1. intros [n kids]. apply H.
  induction kids as [|k kids IHk]; constructor; [apply IH | apply IHk].
Qed.

Lemma pathTo_ids t m path : pathTo t m path → m ∈ ids t.
Proof.
  induction 1 as [n kids|n kids k m path Hk _ IH]; rewrite ids_eq.
  - left.
  - right. by eapply elem_of_idsOfAll.
Qed.

Lemma sameButAbsolute_refl s : sameButAbsolute s s.
Proof. done. Qed.

Lemma sameButAbsolute_trans s1 s2 s3 :
  sameButAbsolute s1 s2 → sameButAbsolute s2 s3 → sameButAbsolute s1 s3.
Proof.
  intros H12 H23 n. destruct (H12 n) as (? & ? & ? & ?), (H23 n) as (? & ? & ? & ?).
  repeat split; congruence.
Qed.

Lemma shaped_sameButAbsolute s s' par t :
  sameButAbsolute s s' → shaped s par t → shaped s' par t.
Proof.
  intros HS. revert par. induction t as [n kids IH] using tree_induction.
  intros par Hsh. inversion Hsh as [par' n' kids' Hp Hc Hk]; subst.
  destruct (HS n) as (_ & Hp' & Hc' & _).
  constructor; [congruence | congruence |].
  rewrite Forall_forall in *. intros k Hin. apply IH; auto.
Qed.

Lemma sumOfOffsets_sameButAbsolute s s' path :
  sameButAbsolute s s' → sumOfOffsets s' path = sumOfOffsets s path.
Proof.
  intros HS. induction path as [|n path IH]; simpl; [done|].
  rewrite IH. by rewrite (proj1 (HS n)).
Qed.

Lemma addPos_assoc a b c : addPos (addPos a b) c = addPos a (addPos b c).
Proof. destruct a, b, c. unfold addPos. simpl. f_equal; lia. Qed.

Lemma addPos_zero_r a : addPos a (0, 0) = a.
Proof. destruct a. unfold addPos. simpl. f_equal; lia. Qed.

Lemma addPos_zero_l a : addPos (0, 0) a = a.
Proof. destruct a. unfold addPos. simpl. f_equal; lia. Qed.

Lemma passOn_kids kids :
  Forall passOn kids →
  ∀ (s : gmap id node) n base fuel,
    Forall (shaped s (Some n)) kids → NoDup (idsOfAll kids) →
    (heightOfAll kids ≤ fuel)%nat →
    n ∉ idsOfAll kids → absolutePosition (s !!! n) = base →
    ∃ s', forEach (updateTransform fuel) s (map rootOf kids) = Some s'
          ∧ sameButAbsolute s s'
          ∧ (∀ m, m ∉ idsOfAll kids →
                  absolutePosition (s' !!! m) = absolutePosition (s !!! m))
          ∧ (∀ k m path, k ∈ kids → pathTo k m path →
                         absolutePosition (s' !!! m) = addPos base (sumOfOffsets s path)).
Proof.
  induction 1 as [|k kids Hk _ IH]; intros s n base fuel Hsh Hnd Hh Hn Hbase.
  - exists s. simpl. split; [done|]. split; [done|]. split; [done|].
    intros k m path Hin. by apply elem_of_nil in Hin.
  - unfold idsOfAll in Hnd, Hn. simpl in Hnd, Hn, Hh.
    fold (idsOfAll kids) in Hnd, Hn. fold (heightOfAll kids) in Hh.
    apply NoDup_app in Hnd as (Hnd1 & Hdis & Hnd2).
    apply not_elem_of_app in Hn as [Hn1 Hn2].
    apply Forall_cons in Hsh as [Hsh1 Hsh2].
    destruct (Hk s (Some n) base fuel Hsh1 Hnd1 ltac:(lia) (conj Hn1 Hbase))
      as (s1 & Hrun1 & Hsame1 & Hout1 & Hin1).
    assert (Hsh2' : Forall (shaped s1 (Some n)) kids).
    { eapply Forall_impl; [exact Hsh2|]. intros k'. by apply shaped_sameButAbsolute. }
    assert (Hbase1 : absolutePosition (s1 !!! n) = base) by (rewrite Hout1; done).
    destruct (IH s1 n base fuel Hsh2' Hnd2 ltac:(lia) Hn2 Hbase1)
      as (s2 & Hrun2 & Hsame2 & Hout2 & Hin2).
    exists s2. simpl. rewrite Hrun1. split; [done|].
    split; [by eapply sameButAbsolute_trans|]. split.
    + intros m Hm. unfold idsOfAll in Hm. simpl in Hm. fold (idsOfAll kids) in Hm.
      apply not_elem_of_app in Hm as [Hm1 Hm2].
      rewrite Hout2, Hout1; done.
    + intros k' m path Hin Hpath. apply elem_of_cons in Hin as [->|Hin].
      * rewrite Hout2; [by apply Hin1|].
        apply Hdis. by eapply pathTo_ids.
      * rewrite (Hin2 k' m path Hin Hpath).
        by rewrite (sumOfOffsets_sameButAbsolute s s1).
Qed.

Lemma passOn_all t : passOn t.
Proof.
  induction t as [n kids IH] using tree_induction.
  intros s par base fuel Hsh Hnd Hh Hpar.
  rewrite ids_eq in Hnd. rewrite height_eq in Hh.
  apply NoDup_cons in Hnd as [Hn Hnd].
  inversion Hsh as [par' n' kids' Hp Hc Hk]; subst.
  destruct fuel as [|fuel]; [lia|]. simpl. 
  set (a := match parent (s !!! n) with
            | Some p => addPos (absolutePosition (s !!! p)) (position (s !!! n))
            | None => position (s !!! n)
            end).
  assert (Ha : a = addPos base (position (s !!! n))).
  { subst a. destruct (parent (s !!! n)) as [p|].
    - destruct Hpar as [_ <-]. done.
    - subst base. by rewrite addPos_zero_l. }
  clearbody a. subst a.
  set (s1 := <[n := withAbsolutePosition (s !!! n) (addPos base (position (s !!! n)))]> s).
  assert (Hsame1 : sameButAbsolute s s1).
  { intros m. subst s1. lookups. }
  assert (Hk1 : Forall (shaped s1 (Some n)) kids).
  { eapply Forall_impl; [exact Hk|]. intros k. by apply shaped_sameButAbsolute. }
  assert (Hbase1 : absolutePosition (s1 !!! n) = addPos base (position (s !!! n))).
  { subst s1. by rewrite lookup_total_insert_eq. }
  rewrite Hc.
  destruct (passOn_kids kids IH s1 n _ fuel Hk1 Hnd ltac:(lia) Hn Hbase1)
    as (s2 & Hrun & Hsame2 & Hout2 & Hin2).
  exists s2. split; [done|]. split; [by eapply sameButAbsolute_trans|]. split.
  - intros m Hm. change (m ∉ n :: idsOfAll kids) in Hm.
    apply not_elem_of_cons in Hm as [Hmn Hm].
    rewrite Hout2 by done. subst s1. by rewrite lookup_total_insert_ne.
  - intros m path Hpath. inversion Hpath as [|n' kids' k m' path' Hin Hpath']; subst.
    + rewrite Hout2 by done. rewrite Hbase1. simpl. by rewrite addPos_zero_r.
    + rewrite (Hin2 k m path' Hin Hpath'). simpl.
      rewrite (sumOfOffsets_sameButAbsolute s s1) by done.
      by rewrite addPos_assoc.
Qed.

(** C1. On a store that holds a tree of distinct nodes below a root without
    parent, the transform pass run on the root returns (with fuel for the
    height of the tree), changes no local offset, and leaves in every node
    of the tree, as absolute position, the componentwise sum of the local
    offsets of the nodes on the path from the root to that node, both
    included. *)
Theorem updateTransform_path_sums (s : gmap id node) (t : tree) :
  shaped s None t → NoDup (ids t) →
  ∃ s', updateTransform (height t) s (rootOf t) = Some s'
        ∧ (∀ n, position (s' !!! n) = position (s !!! n))
        ∧ (∀ m path, pathTo t m path →
                     absolutePosition (s' !!! m) = sumOfOffsets s' path).
Proof.
  intros Hsh Hnd.
  destruct (passOn_all t s None (0, 0) (height t) Hsh Hnd ltac:(lia) eq_refl)
    as (s' & Hrun & Hsame & _ & Hin).
  exists s'. split; [done|]. split; [intros n; apply Hsame|].
  intros m path Hpath. rewrite (Hin m path Hpath), addPos_zero_l.
  by rewrite (sumOfOffsets_sameButAbsolute s s').
Qed.

(** ** Instances on the example scene *)

Lemma updateTransform_path_sums_witness :
  ∃ s', updateTransform (height exampleTree) exampleStore (rootOf exampleTree) = Some s'
        ∧ (∀ n, position (s' !!! n) = position (exampleStore !!! n))
        ∧ (∀ m path, pathTo exampleTree m path →
                     absolutePosition (s' !!! m) = sumOfOffsets s' path).
Proof.
  apply updateTransform_path_sums.
  - repeat (constructor; try (vm_compute; reflexivity)).
  - by compute_done.
Defined.

Lemma removeChild_absent_witness :
  removeChild exampleScene 5%nat 2%nat = (exampleScene, false)
  ∧ Node_removeChild (nodes exampleScene) 5%nat 2%nat = (nodes exampleScene, false).
Proof.
  apply removeChild_absent. by compute_done.
Defined.

Lemma addChild_registers_direct_child_witness :
  2%nat ∈ focusableComponents (addChild exampleScene (scene exampleScene) 2%nat)
  ∧ (6%nat ∈ focusableComponents (addChild exampleScene (scene exampleScene) 2%nat)
     ↔ 6%nat ∈ focusableComponents exampleScene).
Proof.
  destruct (addChild_registers_direct_child exampleScene 2%nat) as [Hchild Hother].
  split.
  - apply Hchild. vm_compute. reflexivity.
  - apply Hother. lia.
Defined.

Lemma removeChild_keeps_focus_registered_witness :
  focusRegistered (removeChild twoComponents 0%nat 2%nat).1
  ∧ focusableComponents (removeChild twoComponents 0%nat 2%nat).1
    ≡ₚ registryWithout (focusableComponents twoComponents) 2%nat
  ∧ focusedComponent (removeChild twoComponents 0%nat 2%nat).1
    = head (focusableComponents (removeChild twoComponents 0%nat 2%nat).1).
Proof.
  destruct (removeChild_keeps_focus_registered twoComponents 0%nat 2%nat) as [Hkeep Hmove].
  split.
  - apply Hkeep. intros f Hf. vm_compute in Hf. injection Hf as <-. by compute_done.
  - apply Hmove.
    + vm_compute. reflexivity.
    + vm_compute. reflexivity.
    + by compute_done.
Defined.

Example updateTransform_example :
  (λ s', (absolutePosition (s' !!! 5%nat), absolutePosition (s' !!! 6%nat)))
    <$> updateTransform 3 (<[6%nat := withParent (newNode (2, 3) Group None) (Some 5%nat)]>
                             exampleStore) 0%nat
  = Some ((1, 1), (3, 4)).
Proof. vm_compute. reflexivity. Qed.

(** * Further properties *)

(** ** Key decoder: tokens and remainders *)

Section DecoderMore.
Import Str Decoder.

(** The result of the loop does not depend on the fuel once there is
    enough of it. *)
Lemma handleInputLoop_fuel fuel fuel' input :
  (String.length input ≤ fuel)%nat → (String.length input ≤ fuel')%nat →
  handleInputLoop fuel input = handleInputLoop fuel' input.
Proof.
  revert fuel' input; induction fuel as [|fuel IH]; intros fuel' input H1 H2.
  - destruct input; [|simpl in H1; lia]. by destruct fuel'.
  - destruct fuel' as [|fuel'].
    + destruct input; [done|simpl in H2; lia].
    + cbn [handleInputLoop]. destruct (step input) as [[key rest]|] eqn:E; [|done].
      apply step_shorter in E. by rewrite (IH fuel' rest) by lia.
Qed.

(** Decoding goes on with the remainder after the first token. *)
Lemma _handleInput_step input key rest :
  step input = Some (key, rest) →
  _handleInput input = (λ keys, key :: keys) <$> _handleInput rest.
Proof.
  intros E. unfold _handleInput. pose proof (step_shorter _ _ _ E) as Hlt.
  destruct (String.length input) as [|n] eqn:Hn; [lia|].
  cbn [handleInputLoop]. rewrite E.
  rewrite (handleInputLoop_fuel n (String.length rest) rest) by lia.
  by destruct (handleInputLoop _ rest).
Qed.

Lemma handleInputLoop_count fuel input keys :
  handleInputLoop fuel input = Some keys → (length keys ≤ String.length input)%nat.
Proof.
  revert input keys; induction fuel as [|fuel IH]; intros input keys; simpl.
  - destruct (step input) as [[key rest]|]; [done|]. intros [= <-]. simpl. lia.
  - destruct (step input) as [[key rest]|] eqn:E; [|intros [= <-]; simpl; lia].
    destruct (handleInputLoop fuel rest) as [keys'|] eqn:E'; [|done].
    intros [= <-]. apply step_shorter in E. apply IH in E'. simpl. lia.
Qed.

Lemma append_empty_l (s : string) : (EmptyString ++ s)%string = s.
Proof. reflexivity. Qed.

Lemma append_String c (s1 s2 : string) :
  (String c s1 ++ s2)%string = String c (s1 ++ s2).
Proof. reflexivity. Qed.

End DecoderMore.

(** X1. [_handleInput] returns for every chunk, with at most one token per
    character of the chunk; the empty chunk gives no token. *)
Theorem decoder_returns_bounded (input : string) :
  ∃ keys, Decoder._handleInput input = Some keys
          ∧ (length keys ≤ String.length input)%nat
          ∧ Decoder._handleInput EmptyString = Some [].
Proof.
  destruct (_handleInput_returns input) as [keys Hk].
  exists keys. split; [done|]. split; [|done].
  by apply (handleInputLoop_count _ _ _ Hk).
Qed.

(** X2. A run of plain characters at the start of a chunk is passed on as
    one literal token per character, in order, and decoding goes on with
    what follows it. *)
Theorem decode_plain_prefix (s1 s2 : string) :
  allPlain s1 →
  Decoder._handleInput (s1 ++ s2)
  = (λ keys, literals s1 ++ keys) <$> Decoder._handleInput s2.
Proof.
  induction s1 as [|c s1 IH]; intros Hp.
  - rewrite append_empty_l. by destruct (Decoder._handleInput s2).
  - destruct Hp as [Hc Hp]. rewrite append_String. cbn [literals].
    rewrite (_handleInput_step _ _ _ (step_plain c (s1 ++ s2) Hc)), (IH Hp).
    by destruct (Decoder._handleInput s2).
Qed.


Section DecoderSteps.
Import Str Decoder.

Lemma startsWith_empty s : startsWith s EmptyString = true.
Proof. by destruct s. Qed.

Lemma startsWith_same c rest seq :
  startsWith (String c rest) (String c seq) = startsWith rest seq.
Proof.
  unfold startsWith. cbn [String.prefix]. by destruct (ascii_dec c c).
Qed.

(** Evaluating a turn of the loop on an input whose first characters are
    known. *)
Ltac decode_step :=
  unfold step, KEY_MAPPING, ESC, CR, LF, TAB, DEL, chr;
  repeat first [rewrite append_String | rewrite append_empty_l];
  cbn [firstMatch];
  repeat first
    [ rewrite startsWith_empty
    | rewrite startsWith_same
    | rewrite startsWith_other by (cbv; discriminate) ];
  reflexivity.

Lemma step_sequence seq key rest :
  (seq, key) ∈ KEY_MAPPING → seq ≠ ESC → seq ≠ (ESC ++ "[Z")%string →
  step (seq ++ rest) = Some (key, rest).
Proof.
  intros Hin Hesc Hz. unfold KEY_MAPPING in Hin.
  repeat (apply elem_of_cons in Hin as [Hin'|Hin];
          [injection Hin' as -> ->; try done; decode_step|]).
  by apply elem_of_nil in Hin.
Qed.

End DecoderSteps.

(** X3. A sequence of the mapping table other than ESC alone and ESC [ Z,
    at the start of a chunk, gives its token whatever follows it, and
    decoding goes on with what follows. *)
Theorem decode_sequence_then_rest (seq key rest : string) :
  (seq, key) ∈ Decoder.KEY_MAPPING →
  seq ≠ Str.ESC → seq ≠ (Str.ESC ++ "[Z")%string →
  Decoder._handleInput (seq ++ rest)
  = (λ keys, key :: keys) <$> Decoder._handleInput rest.
Proof.
  intros Hin Hesc Hz. by apply _handleInput_step, step_sequence.
Qed.

(** ** Drawing: what [render] writes and when it throws *)

Lemma io_bind_returned {A B} (w : list string) (a : A) (f : A → io B) :
  ((w, Returned a) ≫= f) = (w ++ (f a).1, (f a).2).
Proof. unfold mbind, io_bind. by destruct (f a). Qed.

Lemma forM__returned {A} (l : list A) (body : A → io unit) (chunks : A → list string) :
  (∀ x, x ∈ l → body x = (chunks x, Returned tt)) →
  forM_ l body = (concat (map chunks l), Returned tt).
Proof.
  induction l as [|x l IH]; intros H; [done|].
  cbn [forM_ map concat]. rewrite (H x) by left.
  rewrite io_bind_returned, IH; [done|]. intros y Hy. apply H. by right.
Qed.

Lemma repeatOrThrow_returns c n :
  0 ≤ n → repeatOrThrow c n = ([], Returned (Str.replicate (Z.to_nat n) c)).
Proof.
  intros Hn. unfold repeatOrThrow, Str.repeat.
  by rewrite (proj2 (Z.ltb_ge n 0)) by lia.
Qed.

Lemma repeatOrThrow_throws c n :
  n < 0 → repeatOrThrow c n = ([], Failed RangeError).
Proof.
  intros Hn. unfold repeatOrThrow, Str.repeat.
  by rewrite (proj2 (Z.ltb_lt n 0)) by lia.
Qed.

Lemma Rectangle_render_filled_returns this width height color :
  0 ≤ width ∨ height ≤ 0 →
  Rectangle_render this (width, height) color true
  = (KittyUtil.moveCursor ((absolutePosition this).2 + 1) ((absolutePosition this).1 + 1)
       :: concat (map (filledRow (absolutePosition this).1 (absolutePosition this).2
                         width color) (seqZ 0 height)),
     Returned tt).
Proof.
  destruct color as [[r g] b]. unfold Rectangle_render.
  destruct (absolutePosition this) as [x y]. cbn [fst snd].
  intros Hok. destruct (decide (height ≤ 0)) as [Hh|Hh].
  - rewrite seqZ_nil by done. reflexivity.
  - rewrite repeatOrThrow_returns by lia.
    rewrite (forM__returned _ _ (filledRow x y width (r, g, b))); [reflexivity|].
    intros row _. reflexivity.
Qed.

Lemma Rectangle_render_filled_throws this width height color :
  width < 0 → 0 < height →
  Rectangle_render this (width, height) color true
  = ([ KittyUtil.moveCursor ((absolutePosition this).2 + 1) ((absolutePosition this).1 + 1);
       KittyUtil.moveCursor ((absolutePosition this).2 + 0 + 1)
         ((absolutePosition this).1 + 1);
       KittyUtil.setBackgroundColor color.1.1 color.1.2 color.2 ],
     Failed RangeError).
Proof.
  destruct color as [[r g] b]. unfold Rectangle_render.
  destruct (absolutePosition this) as [x y]. cbn [fst snd].
  intros Hw Hh. rewrite seqZ_cons by done.
  rewrite repeatOrThrow_throws by lia. reflexivity.
Qed.

(** X4. A filled rectangle that has no negative width, or no row at all,
    is drawn without error: after the first cursor move come, for each of
    its rows from the top, the cursor move to the row, the background
    colour, two spaces per cell of width and the colour reset. With a
    negative width and at least one row, [render] throws a RangeError
    after it has set the background colour of the first row, which is not
    reset. *)
Theorem Rectangle_render_filled this width height color :
  let x := (absolutePosition this).1 in
  let y := (absolutePosition this).2 in
  (0 ≤ width ∨ height ≤ 0 →
   Rectangle_render this (width, height) color true
   = (KittyUtil.moveCursor (y + 1) (x + 1)
        :: concat (map (filledRow x y width color) (seqZ 0 height)),
      Returned tt))
  ∧ (width < 0 → 0 < height →
     Rectangle_render this (width, height) color true
     = ([ KittyUtil.moveCursor (y + 1) (x + 1);
          KittyUtil.moveCursor (y + 0 + 1) (x + 1);
          KittyUtil.setBackgroundColor color.1.1 color.1.2 color.2 ],
        Failed RangeError)).
Proof.
  cbn zeta. split.
  - apply Rectangle_render_filled_returns.
  - apply Rectangle_render_filled_throws.
Qed.

Lemma Rectangle_render_outlined_returns this width height color :
  1 ≤ width →
  Rectangle_render this (width, height) color false
  = ([ KittyUtil.moveCursor ((absolutePosition this).2 + 1) ((absolutePosition this).1 + 1);
       KittyUtil.setForegroundColor color.1.1 color.1.2 color.2;
       KittyUtil.moveCursor ((absolutePosition this).2 + 1) ((absolutePosition this).1 + 1);
       borderLine width ]
     ++ concat (map (sideRow (absolutePosition this).1 (absolutePosition this).2 width)
                  (seqZ 1 (height - 2)))
     ++ [ KittyUtil.moveCursor ((absolutePosition this).2 + height)
            ((absolutePosition this).1 + 1);
          borderLine width;
          KittyUtil.resetColors ],
     Returned tt).
Proof.
  destruct color as [[r g] b]. unfold Rectangle_render.
  destruct (absolutePosition this) as [x y]. cbn [fst snd].
  intros Hw. rewrite !repeatOrThrow_returns by lia.
  rewrite (forM__returned _ _ (sideRow x y width)); [reflexivity|].
  intros row _. reflexivity.
Qed.

Lemma Rectangle_render_outlined_throws this width height color :
  width < 1 →
  Rectangle_render this (width, height) color false
  = ([ KittyUtil.moveCursor ((absolutePosition this).2 + 1) ((absolutePosition this).1 + 1);
       KittyUtil.setForegroundColor color.1.1 color.1.2 color.2;
       KittyUtil.moveCursor ((absolutePosition this).2 + 1)
         ((absolutePosition this).1 + 1) ],
     Failed RangeError).
Proof.
  destruct color as [[r g] b]. unfold Rectangle_render.
  destruct (absolutePosition this) as [x y]. cbn [fst snd].
  intros Hw. rewrite repeatOrThrow_throws by lia. reflexivity.
Qed.

(** X5. An outlined rectangle of width at least 1 is drawn without error:
    first cursor move, foreground colour, the top border at row y + 1,
    one side row for each row strictly between the first and the last,
    the bottom border at row y + height, colour reset. With a width below
    1, [render] throws a RangeError after the foreground colour is set and
    before any border is written. *)
Theorem Rectangle_render_outlined this width height color :
  let x := (absolutePosition this).1 in
  let y := (absolutePosition this).2 in
  (1 ≤ width →
   Rectangle_render this (width, height) color false
   = ([ KittyUtil.moveCursor (y + 1) (x + 1);
        KittyUtil.setForegroundColor color.1.1 color.1.2 color.2;
        KittyUtil.moveCursor (y + 1) (x + 1);
        borderLine width ]
      ++ concat (map (sideRow x y width) (seqZ 1 (height - 2)))
      ++ [ KittyUtil.moveCursor (y + height) (x + 1);
           borderLine width;
           KittyUtil.resetColors ],
      Returned tt))
  ∧ (width < 1 →
     Rectangle_render this (width, height) color false
     = ([ KittyUtil.moveCursor (y + 1) (x + 1);
          KittyUtil.setForegroundColor color.1.1 color.1.2 color.2;
          KittyUtil.moveCursor (y + 1) (x + 1) ],
        Failed RangeError)).
Proof.
  cbn zeta. split.
  - apply Rectangle_render_outlined_returns.
  - apply Rectangle_render_outlined_throws.
Qed.

(** When [render] throws, by the shape of the node alone. *)
Lemma render_outcome nd :
  (render nd).2 = if drawableShape (draws nd) then Returned tt else Failed RangeError.
Proof.
  unfold render. destruct (draws nd) as [[width height] color fill|text color|]; [| |done].
  - destruct fill; cbn [drawableShape].
    + pose proof (Rectangle_render_filled_returns nd width height color) as Hok.
      pose proof (Rectangle_render_filled_throws nd width height color) as Hfail.
      destruct (decide (0 ≤ width ∨ height ≤ 0)) as [H|H].
      * rewrite Hok by done. cbn [snd].
        replace ((0 <=? width) || (height <=? 0)) with true; [done|].
        symmetry. apply orb_true_iff. destruct H; [left|right]; by apply Z.leb_le.
      * rewrite Hfail by lia. cbn [snd].
        replace ((0 <=? width) || (height <=? 0)) with false; [done|].
        symmetry. apply orb_false_iff. split; apply Z.leb_gt; lia.
    + pose proof (Rectangle_render_outlined_returns nd width height color) as Hok.
      pose proof (Rectangle_render_outlined_throws nd width height color) as Hfail.
      destruct (decide (1 ≤ width)) as [H|H].
      * rewrite Hok by done. cbn [snd]. by rewrite (proj2 (Z.leb_le 1 width)).
      * rewrite Hfail by lia. cbn [snd]. by rewrite (proj2 (Z.leb_gt 1 width)) by lia.
  - destruct color as [[r g] b]. unfold Text_render.
    by destruct (absolutePosition nd).
Qed.

(** ** The transform pass on any store *)

Lemma withAbsolutePosition_same nd : withAbsolutePosition nd (absolutePosition nd) = nd.
Proof. by destruct nd. Qed.

Lemma onlyAbsolute_refl s : onlyAbsolute s s.
Proof. intros n. by rewrite withAbsolutePosition_same. Qed.

Lemma onlyAbsolute_trans s1 s2 s3 :
  onlyAbsolute s1 s2 → onlyAbsolute s2 s3 → onlyAbsolute s1 s3.
Proof. intros H12 H23 n. rewrite (H23 n), (H12 n). reflexivity. Qed.

Lemma onlyAbsolute_fields s s' n :
  onlyAbsolute s s' →
  position (s' !!! n) = position (s !!! n)
  ∧ parent (s' !!! n) = parent (s !!! n)
  ∧ children (s' !!! n) = children (s !!! n)
  ∧ visible (s' !!! n) = visible (s !!! n)
  ∧ draws (s' !!! n) = draws (s !!! n)
  ∧ focus (s' !!! n) = focus (s !!! n).
Proof. intros H. rewrite (H n). done. Qed.

Lemma onlyAbsolute_insert (s : gmap id node) n a :
  onlyAbsolute s (<[n := withAbsolutePosition (s !!! n) a]> s).
Proof.
  intros m. rewrite lookup_total_insert. destruct (decide (n = m)) as [->|]; [done|].
  by rewrite withAbsolutePosition_same.
Qed.

Lemma forEach_onlyAbsolute (f : gmap id node → id → option (gmap id node)) l :
  (∀ s1 s2 x, f s1 x = Some s2 → onlyAbsolute s1 s2) →
  ∀ s s', forEach f s l = Some s' → onlyAbsolute s s'.
Proof.
  intros Hf. induction l as [|x l IH]; intros s s'; simpl.
  - intros [= <-]. apply onlyAbsolute_refl.
  - destruct (f s x) as [s1|] eqn:E; [|done]. intros H.
    eapply onlyAbsolute_trans; [by eapply Hf | by apply IH].
Qed.

Lemma updateTransform_onlyAbsolute fuel (s s' : gmap id node) n :
  updateTransform fuel s n = Some s' → onlyAbsolute s s'.
Proof.
  revert s s' n. induction fuel as [|fuel IH]; intros s s' n; [done|].
  cbn [updateTransform]. intros H.
  eapply onlyAbsolute_trans; [apply onlyAbsolute_insert|].
  eapply forEach_onlyAbsolute; [|exact H]. intros s1 s2 x. apply IH.
Qed.

(** X6. Whenever the transform pass returns, on any store and from any
    node, it has changed absolute positions only: local offset, parent,
    children, visibility, shape and focus state of every node are what they
    were. *)
Theorem updateTransform_changes_absolute_only fuel (s s' : gmap id node) this :
  updateTransform fuel s this = Some s' →
  ∀ n, position (s' !!! n) = position (s !!! n)
       ∧ parent (s' !!! n) = parent (s !!! n)
       ∧ children (s' !!! n) = children (s !!! n)
       ∧ visible (s' !!! n) = visible (s !!! n)
       ∧ draws (s' !!! n) = draws (s !!! n)
       ∧ focus (s' !!! n) = focus (s !!! n).
Proof.
  intros H n. by apply onlyAbsolute_fields, (updateTransform_onlyAbsolute fuel _ _ this).
Qed.

(** X7. Run on a node that has a parent, the pass takes the absolute
    position stored in the parent as it is, without recomputing it: every
    node of the subtree gets that position plus the local offsets on the
    path from the node the pass started at, and no node outside the subtree
    is written. *)
Theorem updateTransform_below_parent (s : gmap id node) (t : tree) (p : id) :
  shaped s (Some p) t → NoDup (ids t) → p ∉ ids t →
  ∃ s', updateTransform (height t) s (rootOf t) = Some s'
        ∧ (∀ m path, pathTo t m path →
                     absolutePosition (s' !!! m)
                     = addPos (absolutePosition (s !!! p)) (sumOfOffsets s path))
        ∧ (∀ m, m ∉ ids t → absolutePosition (s' !!! m) = absolutePosition (s !!! m)).
Proof.
  intros Hsh Hnd Hp.
  destruct (passOn_all t s (Some p) (absolutePosition (s !!! p)) (height t) Hsh Hnd
              ltac:(lia) (conj Hp eq_refl)) as (s' & Hrun & _ & Hout & Hin).
  by exists s'.
Qed.

(** ** Stores with a cycle *)

Lemma childOf_onlyAbsolute s s' n m :
  onlyAbsolute s s' → childOf s n m → childOf s' n m.
Proof.
  intros H. unfold childOf.
  by destruct (onlyAbsolute_fields s s' n H) as (_ & _ & -> & _).
Qed.

Lemma cyclicBelow_onlyAbsolute s s' n :
  onlyAbsolute s s' → cyclicBelow s n → cyclicBelow s' n.
Proof.
  intros H (m & c & H1 & H2 & H3). exists m, c.
  assert (Hsub : ∀ x y, childOf s x y → childOf s' x y)
    by (intros x y; by apply childOf_onlyAbsolute).
  split; [by eapply rtc_subrel|]. split; [by apply Hsub | by eapply rtc_subrel].
Qed.

Lemma cyclicBelow_child s n :
  cyclicBelow s n → ∃ c, c ∈ children (s !!! n) ∧ cyclicBelow s c.
Proof.
  intros (m & c & H1 & H2 & H3).
  apply rtc_inv in H1 as [->|(c' & Hc' & Hrest)].
  - exists c. split; [done|]. exists m, c. split; [done|]. done.
  - exists c'. split; [done|]. by exists m, c.
Qed.

Lemma forEach_None (f : gmap id node → id → option (gmap id node)) l c :
  (∀ s1 s2 x, f s1 x = Some s2 → onlyAbsolute s1 s2) →
  c ∈ l →
  ∀ s, (∀ s1, onlyAbsolute s s1 → f s1 c = None) → forEach f s l = None.
Proof.
  intros Hf. induction l as [|x l IH]; intros Hc s Hnone.
  - by apply elem_of_nil in Hc.
  - simpl. destruct (f s x) as [s1|] eqn:E; [|done].
    apply elem_of_cons in Hc as [->|Hc].
    + rewrite Hnone in E; [done|apply onlyAbsolute_refl].
    + apply IH; [done|]. intros s2 H2. apply Hnone.
      eapply onlyAbsolute_trans; [by eapply Hf | done].
Qed.

Lemma updateTransform_cyclic fuel (s : gmap id node) n :
  cyclicBelow s n → updateTransform fuel s n = None.
Proof.
  revert s n. induction fuel as [|fuel IH]; intros s n Hcyc; [done|].
  cbn [updateTransform].
  destruct (cyclicBelow_child s n Hcyc) as (c & Hc & Hcc).
  eapply forEach_None; [apply updateTransform_onlyAbsolute | exact Hc |].
  intros s1 H1. apply IH. eapply cyclicBelow_onlyAbsolute; [|exact Hcc].
  eapply onlyAbsolute_trans; [apply onlyAbsolute_insert | exact H1].
Qed.

Lemma addChild_attached st this child :
  attached (nodes (afterDetach st child)) (nodes (addChild st this child)) this child.
Proof.
  unfold addChild. destruct (decide (this = scene st)) as [->|].
  - eapply attached_sameLinks_r; [apply Node_addChild_spec | apply Scene_addChild_nodes].
  - apply Node_addChild_spec.
Qed.

(** X8. [addChild] accepts a node as its own child, and on a store in which
    a node is its own descendant the transform pass started above that node
    does not return, however much fuel it is given; a frame then ends after
    the screen was cleared. *)
Theorem updateTransform_never_returns_on_cycle :
  (∀ st n, childOf (nodes (addChild st n n)) n n)
  ∧ (∀ fuel (s : gmap id node) n,
        cyclicBelow s n →
        updateTransform fuel s n = None
        ∧ renderScene fuel s n = ([KittyUtil.clearScreen], Failed OutOfFuel)).
Proof.
  split.
  - intros st n. destruct (addChild_attached st n n) as [Hc _].
    unfold childOf. rewrite Hc, decide_True by done.
    apply elem_of_app. right. left.
  - intros fuel s n Hcyc. pose proof (updateTransform_cyclic fuel s n Hcyc) as H.
    split; [done|]. unfold renderScene. rewrite H. reflexivity.
Qed.

(** ** The traversal of the renderer *)

Lemma io_ret_bind {A B} (a : A) (f : A → io B) : (mret a ≫= f) = f a.
Proof. unfold mret, io_ret, mbind, io_bind. by destruct (f a). Qed.

Lemma io_bind_assoc {A B C} (m : io A) (f : A → io B) (g : B → io C) :
  ((m ≫= f) ≫= g) = (m ≫= λ a, f a ≫= g).
Proof.
  destruct m as [w [a|e]]; [|done]. unfold mbind, io_bind.
  destruct (f a) as [w' [b|e']]; [|done].
  destruct (g b) as [w'' r]. by rewrite app_assoc.
Qed.

Lemma forM__app {A} (l1 l2 : list A) (body : A → io unit) :
  forM_ (l1 ++ l2) body = (forM_ l1 body ;; forM_ l2 body).
Proof.
  induction l1 as [|x l1 IH]; cbn [forM_ app].
  - by rewrite io_ret_bind.
  - by rewrite IH, io_bind_assoc.
Qed.

Lemma idsOfAll_cons k kids : idsOfAll (k :: kids) = ids k ++ idsOfAll kids.
Proof. reflexivity. Qed.

(** The traversal of a subtree draws its nodes in pre-order. *)
Lemma _renderNode_drawAll (s : gmap id node) (t : tree) :
  ∀ par fuel, shaped s par t → (height t ≤ fuel)%nat →
  _renderNode fuel s (rootOf t) = drawAll s (ids t).
Proof.
  induction t as [n kids IH] using tree_induction.
  intros par fuel Hsh Hh. rewrite height_eq in Hh.
  inversion Hsh as [par' n' kids' Hp Hc Hk]; subst.
  destruct fuel as [|fuel]; [lia|]. cbn [_renderNode rootOf].
  rewrite ids_eq. unfold drawAll. cbn [forM_]. f_equal.
  rewrite Hc. clear Hc Hsh.
  assert (Hh' : (heightOfAll kids ≤ fuel)%nat) by lia. clear Hh.
  induction kids as [|k kids IHk]; [done|].
  apply Forall_cons in IH as [IH1 IH2]. apply Forall_cons in Hk as [Hk1 Hk2].
  cbn [heightOfAll foldr] in Hh'. fold (heightOfAll kids) in Hh'.
  rewrite idsOfAll_cons, forM__app. cbn [map forM_].
  rewrite (IH1 (Some n) fuel Hk1) by lia. unfold drawAll.
  by rewrite IHk by (done || lia).
Qed.

Lemma drawAll_returned s l :
  (∀ n, n ∈ l → drawableShape (draws (s !!! n)) = true) →
  drawAll s l = (concat (map (λ n, (render (s !!! n)).1) l), Returned tt).
Proof.
  intros H. apply forM__returned. intros n Hn.
  pose proof (render_outcome (s !!! n)) as Ho. rewrite (H n Hn) in Ho.
  destruct (render (s !!! n)) as [w r]. simpl in *. by subst.
Qed.

Lemma drawAll_failed s pre n post :
  (∀ m, m ∈ pre → drawableShape (draws (s !!! m)) = true) →
  drawableShape (draws (s !!! n)) = false →
  drawAll s (pre ++ n :: post)
  = (concat (map (λ m, (render (s !!! m)).1) pre) ++ (render (s !!! n)).1,
     Failed RangeError).
Proof.
  intros Hpre Hn. unfold drawAll. rewrite forM__app.
  fold (drawAll s pre). rewrite (drawAll_returned s pre Hpre).
  pose proof (render_outcome (s !!! n)) as Ho. rewrite Hn in Ho.
  cbn [forM_]. destruct (render (s !!! n)) as [w r]. simpl in *. subst.
  reflexivity.
Qed.

(** The shapes are the same after the transform pass. *)
Lemma shape_after_pass s s' n :
  onlyAbsolute s s' → draws (s' !!! n) = draws (s !!! n).
Proof. intros H. by destruct (onlyAbsolute_fields s s' n H) as (_ & _ & _ & _ & -> & _). Qed.

(** X9. A frame of a scene that holds a tree of distinct nodes whose
    shapes can all be drawn: the screen is cleared, the transform pass is
    run, and then every node of the tree is drawn once, in pre-order (a
    node before its children, the children in the order of the children
    list), each with the absolute position the pass has just given it. *)
Theorem renderScene_draws_in_preorder (s : gmap id node) (t : tree) :
  shaped s None t → NoDup (ids t) →
  (∀ n, n ∈ ids t → drawableShape (draws (s !!! n)) = true) →
  ∃ s', updateTransform (height t) s (rootOf t) = Some s'
        ∧ renderScene (height t) s (rootOf t)
          = (KittyUtil.clearScreen
               :: concat (map (λ n, (render (s' !!! n)).1) (ids t)),
             Returned s')
        ∧ (∀ m path, pathTo t m path →
                     absolutePosition (s' !!! m) = sumOfOffsets s path).
Proof.
  intros Hsh Hnd Hdraw.
  destruct (passOn_all t s None (0, 0) (height t) Hsh Hnd ltac:(lia) eq_refl)
    as (s' & Hrun & Hsame & _ & Hin).
  pose proof (updateTransform_onlyAbsolute _ _ _ _ Hrun) as Honly.
  exists s'. split; [done|]. split.
  - unfold renderScene. rewrite Hrun. cbv iota. rewrite io_ret_bind. cbv beta.
    rewrite (_renderNode_drawAll s' t None) by (by eapply shaped_sameButAbsolute || lia).
    rewrite drawAll_returned.
    { rewrite io_bind_returned. unfold mret, io_ret. cbn [fst snd].
      rewrite app_nil_r. reflexivity. }
    intros n Hn. rewrite (shape_after_pass s s') by done. by apply Hdraw.
  - intros m path Hpath. by rewrite (Hin m path Hpath), addPos_zero_l.
Qed.

(** X10. A frame in which the shape of one node cannot be drawn: the nodes
    before it in pre-order are drawn, that node writes what it writes
    before it throws, the nodes after it are not drawn, and the frame ends
    with the RangeError. *)
Theorem renderScene_stops_at_RangeError (s : gmap id node) (t : tree) pre n post :
  shaped s None t → NoDup (ids t) →
  ids t = pre ++ n :: post →
  (∀ m, m ∈ pre → drawableShape (draws (s !!! m)) = true) →
  drawableShape (draws (s !!! n)) = false →
  ∃ s', updateTransform (height t) s (rootOf t) = Some s'
        ∧ renderScene (height t) s (rootOf t)
          = (KittyUtil.clearScreen
               :: concat (map (λ m, (render (s' !!! m)).1) pre)
               ++ (render (s' !!! n)).1,
             Failed RangeError).
Proof.
  intros Hsh Hnd Hids Hpre Hn.
  destruct (passOn_all t s None (0, 0) (height t) Hsh Hnd ltac:(lia) eq_refl)
    as (s' & Hrun & Hsame & _ & _).
  pose proof (updateTransform_onlyAbsolute _ _ _ _ Hrun) as Honly.
  exists s'. split; [done|].
  unfold renderScene. rewrite Hrun. cbv iota. rewrite io_ret_bind. cbv beta.
  rewrite (_renderNode_drawAll s' t None) by (by eapply shaped_sameButAbsolute || lia).
  rewrite Hids, drawAll_failed; [reflexivity| |].
  - intros m Hm. rewrite (shape_after_pass s s') by done. by apply Hpre.
  - by rewrite (shape_after_pass s s').
Qed.

(** ** Sorting the registry *)

Lemma compareIndex_refl a : compareIndex a a ≤ 0.
Proof. destruct a; simpl; lia. Qed.

Lemma compareIndex_trans a b c :
  compareIndex a b ≤ 0 → compareIndex b c ≤ 0 → compareIndex a c ≤ 0.
Proof. destruct a, b, c; simpl; lia. Qed.

Lemma compareIndex_total a b : 0 < compareIndex a b → compareIndex b a ≤ 0.
Proof. destruct a, b; simpl; lia. Qed.

Lemma insertSorted_inTabOrder s a l :
  inTabOrder s l → inTabOrder s (insertSorted s a l).
Proof.
  induction l as [|b l IH]; intros Hl.
  - simpl. split; [constructor | done].
  - destruct Hl as [Hb Hl]. cbn [insertSorted].
    destruct (compareIndex (tabIndexOf s a) (tabIndexOf s b) <=? 0) eqn:E.
    + apply Z.leb_le in E. split; [|by split]. constructor; [done|].
      eapply Forall_impl; [exact Hb|]. intros c Hc. cbv beta in *.
      by eapply compareIndex_trans.
    + apply Z.leb_gt in E. split; [|by apply IH].
      rewrite insertSorted_Permutation. constructor; [|done].
      by apply compareIndex_total.
Qed.

Lemma sortFocusableComponents_inTabOrder s l : inTabOrder s (sortFocusableComponents s l).
Proof.
  induction l as [|a l IH]; [done|]. simpl. by apply insertSorted_inTabOrder.
Qed.

Lemma insertSorted_withTabIndex s k a l :
  withTabIndex s k (insertSorted s a l) = withTabIndex s k (a :: l).
Proof.
  unfold withTabIndex. induction l as [|b l IH]; [done|]. cbn [insertSorted].
  destruct (compareIndex (tabIndexOf s a) (tabIndexOf s b) <=? 0) eqn:E; [done|].
  apply Z.leb_gt in E. rewrite filter_cons, IH, !filter_cons.
  destruct (decide (tabIndexOf s b = k)) as [Hb|Hb];
    destruct (decide (tabIndexOf s a = k)) as [Ha|Ha]; try done.
  exfalso. rewrite Ha, Hb in E. pose proof (compareIndex_refl k). lia.
Qed.

(** X11. [sortFocusableComponents] keeps the components it is given and
    puts them in tab order: ascending tab index, the components without
    tab index last; components with the same tab index (or all without
    one) keep the order they had. *)
Theorem sortFocusableComponents_stable_order (s : gmap id node) (l : list id) :
  sortFocusableComponents s l ≡ₚ l
  ∧ inTabOrder s (sortFocusableComponents s l)
  ∧ ∀ k, withTabIndex s k (sortFocusableComponents s l) = withTabIndex s k l.
Proof.
  split; [apply sortFocusableComponents_Permutation|].
  split; [apply sortFocusableComponents_inTabOrder|].
  intros k. induction l as [|a l IH]; [done|]. simpl.
  rewrite insertSorted_withTabIndex. unfold withTabIndex in *.
  by rewrite !filter_cons, IH.
Qed.

Lemma insertSorted_ext s s' a l :
  sameCapabilities s s' → insertSorted s' a l = insertSorted s a l.
Proof.
  intros H. induction l as [|b l IH]; [done|]. cbn [insertSorted].
  rewrite (proj2 (H a)), (proj2 (H b)), IH. done.
Qed.

Lemma sortFocusableComponents_ext s s' l :
  sameCapabilities s s' → sortFocusableComponents s' l = sortFocusableComponents s l.
Proof.
  intros H. induction l as [|a l IH]; [done|]. simpl.
  by rewrite IH, (insertSorted_ext s s').
Qed.

Lemma inTabOrder_ext s s' l :
  sameCapabilities s s' → inTabOrder s l → inTabOrder s' l.
Proof.
  intros H. induction l as [|a l IH]; [done|]. intros [Ha Hl].
  split; [|by apply IH]. eapply Forall_impl; [exact Ha|].
  intros b. cbv beta. by rewrite (proj2 (H a)), (proj2 (H b)).
Qed.

Lemma inTabOrder_sublist s l1 x l2 :
  inTabOrder s (l1 ++ x :: l2) → inTabOrder s (l1 ++ l2).
Proof.
  induction l1 as [|a l1 IH]; simpl.
  - by intros [_ H].
  - intros [Ha Hl]. split; [|by apply IH].
    apply Forall_app in Ha as [Ha1 Ha2]. apply Forall_cons in Ha2 as [_ Ha2].
    by apply Forall_app.
Qed.

(** ** The registry of the scene *)

Lemma registryWithout_NoDup reg child :
  NoDup reg →
  NoDup (registryWithout reg child)
  ∧ (∀ x, x ∈ registryWithout reg child ↔ x ∈ reg ∧ x ≠ child)
  ∧ (∀ s, inTabOrder s reg → inTabOrder s (registryWithout reg child)).
Proof.
  intros Hnd. unfold registryWithout.
  destruct (indexOf reg child) as [i|] eqn:E.
  - destruct (indexOf_Some _ _ _ E) as (l1 & l2 & -> & Hx & ->).
    apply NoDup_app in Hnd as (Hnd1 & Hdis & Hnd2).
    apply NoDup_cons in Hnd2 as [Hx2 Hnd2].
    split; [|split].
    + apply NoDup_app. split; [done|]. split; [|done].
      intros y Hy1 Hy2. apply (Hdis y Hy1). by right.
    + intros x. rewrite !elem_of_app, elem_of_cons. split.
      * intros [H|H]; (split; [tauto|]); intros ->; [done|done].
      * intros [[H|[H|H]] Hne]; [by left|done|by right].
    + intros s. apply inTabOrder_sublist.
  - split; [done|]. split; [|done]. intros x. split; [|tauto].
    intros Hx. split; [done|]. intros ->.
    apply indexOf_elem in Hx as [j Hj]. congruence.
Qed.

Lemma Scene_removeChild_registry st child i :
  indexOf (children (nodes st !!! scene st)) child = Some i →
  focusableComponents (Scene_removeChild st child).1
  = match indexOf (focusableComponents st) child with
    | Some index =>
        sortFocusableComponents (nodes st) (splice1 index (focusableComponents st))
    | None => focusableComponents st
    end.
Proof.
  intros Hi.
  destruct (Node_removeChild_found _ _ _ _ Hi) as (l1 & l2 & s1 & HN & _ & HC).
  unfold Scene_removeChild. rewrite HN.
  assert (Hreg : ∀ st2 : state,
             focusableComponents
               (if bool_decide (focusedComponent st = Some child)
                then setFocus st2 (head (focusableComponents st2)) else st2)
             = focusableComponents st2).
  { intros st2. destruct (bool_decide _); [|done]. apply setFocus_spec. }
  cbn [fst]. rewrite Hreg. cbn [withNodes focusableComponents nodes].
  destruct (indexOf (focusableComponents st) child); [|done].
  cbn [withFocusableComponents focusableComponents].
  by apply sortFocusableComponents_ext.
Qed.

Lemma detached_other_children s s' this child l1 l2 n :
  detached s s' this child l1 l2 → n ≠ this →
  children (s' !!! n) = children (s !!! n).
Proof. intros (_ & _ & Hc & _) Hne. rewrite Hc. by rewrite decide_False. Qed.

Lemma removeChild_registryKept st this child :
  registryKept st → registryKept (removeChild st this child).1.
Proof.
  intros (HL & Hnd & Hiff & Hord).
  destruct (removeChild_cases st this child)
    as [[_ ->]|(l1 & l2 & st' & Heq & HD & HC & [HS _] & _)]; [done|].
  pose proof (linked_detached _ _ _ _ _ _ HL HD) as (HL' & Hnot & _).
  assert (Hi : ∃ i, indexOf (children (nodes st !!! this)) child = Some i).
  { apply indexOf_elem. destruct HD as (-> & _). apply elem_of_app. right. left. }
  destruct Hi as [i Hi].
  destruct (registryWithout_NoDup (focusableComponents st) child Hnd)
    as (Hnd' & Hmem & Hsub).
  destruct (decide (this = scene st)) as [->|Hne].
  - pose proof (Scene_removeChild_registry st child i Hi) as Hreg.
    rewrite Heq. unfold removeChild in Heq. rewrite decide_True in Heq by done.
    rewrite Heq in Hreg. cbn [fst] in *.
    assert (Hperm : focusableComponents st'
                    ≡ₚ registryWithout (focusableComponents st) child).
    { rewrite Hreg. unfold registryWithout.
      destruct (indexOf (focusableComponents st) child); [|done].
      apply sortFocusableComponents_Permutation. }
    split; [done|]. split; [by rewrite Hperm|]. split.
    + intros x. rewrite Hperm, Hmem, Hiff, HS, (proj1 (HC x)).
      destruct HD as (Hl & _ & Hc & _). rewrite Hc, decide_True by done.
      rewrite Hl, !elem_of_app, elem_of_cons.
      rewrite elem_of_app in Hnot. split.
      * intros [[[H|[H|H]] Hf] Hx]; [split; [by left|done] | done | split; [by right|done]].
      * intros [[H|H] Hf]; (split; [split; [tauto|done]|]); intros ->; tauto.
    + apply (inTabOrder_ext (nodes st)); [done|]. rewrite Hreg.
      destruct (indexOf (focusableComponents st) child); [|done].
      apply sortFocusableComponents_inTabOrder.
  - rewrite Heq. cbn [fst].
    unfold removeChild in Heq. rewrite decide_False in Heq by done.
    destruct (Node_removeChild (nodes st) this child) as [s1 r]. injection Heq as <- _.
    cbn [withNodes focusableComponents nodes scene] in *.
    split; [done|]. split; [done|]. split.
    + intros x. cbn [withNodes focusableComponents nodes scene].
      rewrite Hiff, (proj1 (HC x)).
      by rewrite (detached_other_children _ _ _ _ _ _ (scene st) HD).
    + by apply (inTabOrder_ext (nodes st)).
Qed.

Lemma afterDetach_registryKept st child :
  registryKept st →
  registryKept (afterDetach st child)
  ∧ parent (nodes (afterDetach st child) !!! child) = None.
Proof.
  intros HK. split; [|apply afterDetach_linked, HK].
  unfold afterDetach. destruct (parent (nodes st !!! child)); [|done].
  by apply removeChild_registryKept.
Qed.

Lemma Scene_addChild_registry_exact st child :
  focusableComponents (Scene_addChild st child)
  = if isFocusable (nodes st) child
    then sortFocusableComponents (nodes st)
           (focusableComponents (afterDetach st child) ++ [child])
    else focusableComponents (afterDetach st child).
Proof.
  destruct (Node_addChild_spec st (scene st) child) as (_ & HC & _ & HR & _).
  destruct (afterDetach_spec st child) as (HC0 & _).
  pose proof (sameCapabilities_trans _ _ _ HC0 HC) as HC1.
  unfold Scene_addChild. rewrite (proj1 (HC1 child)), <- HR.
  revert HC1. generalize (Node_addChild st (scene st) child) as st1. intros st1 HC1.
  destruct (isFocusable (nodes st) child); [|done].
  assert (Hreg : ∀ st2 : state,
             focusableComponents
               (match focusedComponent st2 with
                | Some _ => st2
                | None => setFocus st2 (head (focusableComponents st2))
                end) = focusableComponents st2).
  { intros st2. destruct (focusedComponent st2); [done|]. apply setFocus_spec. }
  rewrite Hreg. cbn [withFocusableComponents focusableComponents].
  by apply sortFocusableComponents_ext.
Qed.

Lemma addChild_registryKept st this child :
  registryKept st → registryKept (addChild st this child).
Proof.
  intros HK. pose proof (addChild_linked st this child (proj1 HK)) as HL'.
  destruct (afterDetach_registryKept st child HK) as [(HL1 & Hnd1 & Hiff1 & Hord1) Hnone].
  pose proof (addChild_attached st this child) as [Hc Hp].
  destruct (afterDetach_spec st child) as (HC0 & [HS0 _] & _).
  assert (Hfree : ∀ p, child ∉ children (nodes (afterDetach st child) !!! p)).
  { intros p Hin. apply HL1 in Hin. congruence. }
  assert (Hnotreg : child ∉ focusableComponents (afterDetach st child)).
  { intros Hin. apply Hiff1 in Hin as [Hin _]. by apply Hfree in Hin. }
  unfold addChild in *. destruct (decide (this = scene st)) as [->|Hne].
  - destruct (Scene_addChild_nodes st child) as (_ & HC2 & [HS2 _]).
    destruct (Node_addChild_spec st (scene st) child) as (_ & HC1 & [HS1 _] & _).
    assert (HC : sameCapabilities (nodes (afterDetach st child))
                   (nodes (Scene_addChild st child)))
      by (eapply sameCapabilities_trans; eauto).
    assert (HS : scene (Scene_addChild st child) = scene (afterDetach st child))
      by congruence.
    pose proof (Scene_addChild_registry_exact st child) as Hreg.
    split; [done|].
    assert (Hperm : focusableComponents (Scene_addChild st child)
                    ≡ₚ focusableComponents (afterDetach st child)
                       ++ (if isFocusable (nodes st) child then [child] else [])).
    { rewrite Hreg. destruct (isFocusable (nodes st) child).
      - apply sortFocusableComponents_Permutation.
      - by rewrite app_nil_r. }
    split; [|split].
    + rewrite Hperm. apply NoDup_app. split; [done|]. split.
      * intros x Hx Hx'. destruct (isFocusable (nodes st) child).
        -- apply list_elem_of_singleton in Hx' as ->. done.
        -- by apply elem_of_nil in Hx'.
      * destruct (isFocusable (nodes st) child); [apply NoDup_singleton | apply NoDup_nil_2].
    + intros x. rewrite Hperm, elem_of_app, Hiff1, HS, Hc, HS0, <- HS0.
      rewrite decide_True by congruence.
      rewrite elem_of_app, (proj1 (HC x)), list_elem_of_singleton.
      rewrite <- (proj1 (HC0 child)).
      split.
      * intros [[H Hf]|H]; [split; [by left|done]|].
        destruct (isFocusable (nodes (afterDetach st child)) child) eqn:E.
        -- apply list_elem_of_singleton in H as ->. split; [by right|done].
        -- by apply elem_of_nil in H.
      * intros [[H| ->] Hf]; [left; by split|]. right. rewrite Hf. left.
    + apply (inTabOrder_ext (nodes st)).
      { eapply sameCapabilities_trans; eauto. }
      rewrite Hreg. destruct (isFocusable (nodes st) child).
      * apply sortFocusableComponents_inTabOrder.
      * by apply (inTabOrder_ext (nodes (afterDetach st child))); [intros n; by destruct (HC0 n) as [-> ->]|].
  - destruct (Node_addChild_spec st this child) as (_ & HC1 & [HS1 _] & HR & _).
    split; [done|]. rewrite HR. split; [done|]. split.
    + intros x. rewrite Hiff1, HS1, Hc, (proj1 (HC1 x)).
      by rewrite decide_False by congruence.
    + by apply (inTabOrder_ext (nodes (afterDetach st child))).
Qed.

Lemma registryKept_same st st' :
  sameLinks (nodes st) (nodes st') → sameCapabilities (nodes st) (nodes st') →
  scene st' = scene st → focusableComponents st' = focusableComponents st →
  registryKept st → registryKept st'.
Proof.
  intros HL HC HS HR (H1 & H2 & H3 & H4).
  split; [by eapply linked_sameLinks|]. rewrite HR. split; [done|]. split.
  - intros x. by rewrite H3, HS, (proj2 (HL (scene st))), (proj1 (HC x)).
  - by apply (inTabOrder_ext (nodes st)).
Qed.

Lemma exec_registryKept handler st c :
  registryKept st → registryKept (exec handler st c).
Proof.
  intros HK. destruct c as [this child|this child|component|key|key]; simpl.
  - by apply addChild_registryKept.
  - by apply removeChild_registryKept.
  - destruct (setFocus_spec st component) as (HL & HC & [HS _] & _ & HR).
    by apply (registryKept_same st).
  - destruct (handleKey_cases handler st key) as [-> | [-> | ->]]; done.
  - done.
Qed.

(** X12. After any run of calls on a scene that starts with detached nodes
    and an empty registry, the registry lists, without repetition and in tab
    order, exactly the focusable nodes that are direct children of the
    scene. *)
Theorem registry_is_focusable_children handler st0 cs :
  allDetached (nodes st0) → focusableComponents st0 = [] →
  let st := run handler st0 cs in
  NoDup (focusableComponents st)
  ∧ (∀ x, x ∈ focusableComponents st
          ↔ x ∈ children (nodes st !!! scene st) ∧ isFocusable (nodes st) x = true)
  ∧ inTabOrder (nodes st) (focusableComponents st).
Proof.
  intros H0 Hreg st.
  assert (HK : registryKept st0).
  { split; [by apply allDetached_linked|]. rewrite Hreg.
    split; [apply NoDup_nil_2|]. split; [|done].
    intros x. rewrite (proj2 (H0 (scene st0))). split.
    - intros H. by apply elem_of_nil in H.
    - intros [H _]. by apply elem_of_nil in H. }
  assert (HK' : registryKept st).
  { subst st. clear H0 Hreg. revert st0 HK.
    induction cs as [|c cs IH]; intros st0 HK; [done|].
    simpl. apply IH. by apply exec_registryKept. }
  apply HK'.
Qed.

(** ** Focus flags and callbacks *)

Lemma flagged_not_focusable s n : isFocusable s n = false → flagged s n = false.
Proof. unfold isFocusable, flagged. by destruct (focus (s !!! n)). Qed.

Lemma onBlur_flagged st c n :
  flagged (nodes (onBlur st c)) n
  = if decide (n = c) then false else flagged (nodes st) n.
Proof.
  unfold onBlur. destruct (isFocusable (nodes st) c) eqn:E.
  - cbn [emit withNodes nodes]. unfold flagged. rewrite lookup_total_insert.
    destruct (decide (c = n)) as [->|]; [|by rewrite decide_False by done].
    rewrite decide_True by done. unfold isFocusable in E. cbn [withIsFocused focus].
    by destruct (focus (nodes st !!! n)).
  - destruct (decide (n = c)) as [->|]; [|done]. by apply flagged_not_focusable.
Qed.

Lemma onFocus_flagged st c n :
  flagged (nodes (onFocus st c)) n
  = if decide (n = c) then isFocusable (nodes st) c else flagged (nodes st) n.
Proof.
  unfold onFocus. destruct (isFocusable (nodes st) c) eqn:E.
  - cbn [emit withNodes nodes]. unfold flagged. rewrite lookup_total_insert.
    destruct (decide (c = n)) as [->|]; [|by rewrite decide_False by done].
    rewrite decide_True by done. unfold isFocusable in E. cbn [withIsFocused focus].
    by destruct (focus (nodes st !!! n)).
  - destruct (decide (n = c)) as [->|]; [|done]. by apply flagged_not_focusable.
Qed.

Lemma setFocus_flagged st component n :
  flagged (nodes (setFocus st component)) n
  = if decide (component = Some n) then isFocusable (nodes st) n
    else if decide (focusedComponent st = Some n) then false
         else flagged (nodes st) n.
Proof.
  unfold setFocus.
  set (st1 := match focusedComponent st with Some f => onBlur st f | None => st end).
  assert (H1 : flagged (nodes st1) n
               = if decide (focusedComponent st = Some n) then false
                 else flagged (nodes st) n).
  { subst st1. destruct (focusedComponent st) as [f|].
    - rewrite onBlur_flagged. destruct (decide (n = f)) as [->|].
      + by rewrite decide_True.
      + by rewrite decide_False by congruence.
    - by rewrite decide_False. }
  assert (HF : ∀ m, isFocusable (nodes st1) m = isFocusable (nodes st) m).
  { intros m. subst st1. destruct (focusedComponent st) as [f|]; [|done].
    by destruct (onBlur_spec st f) as (_ & HC & _); destruct (HC m). }
  destruct component as [c|].
  - rewrite onFocus_flagged. cbn [withFocusedComponent nodes].
    destruct (decide (n = c)) as [->|].
    + rewrite decide_True by done. apply HF.
    + by rewrite (decide_False (P := Some c = Some n)) by congruence.
  - by rewrite decide_False.
Qed.

Lemma setFocus_flagsAgree st component :
  flagsAgree st → flagsAgree (setFocus st component).
Proof.
  intros HA n. rewrite setFocus_flagged.
  destruct (setFocus_spec st component) as (_ & HC & _ & -> & _).
  rewrite (proj1 (HC n)).
  destruct (decide (component = Some n)) as [->|Hne]; [tauto|].
  destruct (decide (focusedComponent st = Some n)) as [Hf|Hf].
  - split; [done|]. by intros [? _].
  - split; [|by intros [? _]]. intros H. apply HA in H as [H _]. done.
Qed.

Lemma flagsAgree_same st st' :
  sameFocusFields (nodes st) (nodes st') →
  focusedComponent st' = focusedComponent st →
  flagsAgree st → flagsAgree st'.
Proof.
  intros HS HF HA n. unfold flagged, isFocusable. rewrite (HS n), HF. apply HA.
Qed.

Lemma Node_removeChild_focus (s : gmap id node) this child :
  sameFocusFields s (Node_removeChild s this child).1.
Proof.
  intros n. unfold Node_removeChild.
  destruct (indexOf (children (s !!! this)) child); [|done]. cbn [fst]. lookups.
Qed.

Lemma removeChild_flagsAgree st this child :
  flagsAgree st → flagsAgree (removeChild st this child).1.
Proof.
  intros HA. pose proof (Node_removeChild_focus (nodes st)) as HN.
  unfold removeChild, Scene_removeChild.
  destruct (decide (this = scene st)) as [->|].
  - specialize (HN (scene st) child).
    destruct (Node_removeChild (nodes st) (scene st) child) as [s1 [|]]; [|done].
    cbn [fst] in *.
    set (st2 := match indexOf (focusableComponents (withNodes st s1)) child with
                | Some index => _ | None => withNodes st s1 end).
    assert (H2 : flagsAgree st2).
    { apply (flagsAgree_same st); [| |done]; subst st2;
        by destruct (indexOf (focusableComponents (withNodes st s1)) child). }
    destruct (bool_decide _); [|done]. by apply setFocus_flagsAgree.
  - specialize (HN this child).
    destruct (Node_removeChild (nodes st) this child) as [s1 removed].
    by apply (flagsAgree_same st).
Qed.

Lemma Node_addChild_flagsAgree st this child :
  flagsAgree st → flagsAgree (Node_addChild st this child).
Proof.
  intros HA. unfold Node_addChild. fold (afterDetach st child).
  assert (H1 : flagsAgree (afterDetach st child)).
  { unfold afterDetach. destruct (parent (nodes st !!! child)); [|done].
    by apply removeChild_flagsAgree. }
  apply (flagsAgree_same (afterDetach st child)); [|done|done].
  intros n. cbn [withNodes nodes]. lookups.
Qed.

Lemma addChild_flagsAgree st this child :
  flagsAgree st → flagsAgree (addChild st this child).
Proof.
  intros HA. unfold addChild. destruct (decide (this = scene st)) as [->|];
    [|by apply Node_addChild_flagsAgree].
  unfold Scene_addChild.
  pose proof (Node_addChild_flagsAgree st (scene st) child HA) as H1. revert H1.
  generalize (Node_addChild st (scene st) child) as st1. intros st1 H1.
  destruct (isFocusable (nodes st1) child); [|done].
  set (st2 := withFocusableComponents st1 _).
  assert (H2 : flagsAgree st2) by (by apply (flagsAgree_same st1)).
  destruct (focusedComponent st2); [done|]. by apply setFocus_flagsAgree.
Qed.

Lemma exec_flagsAgree handler st c :
  flagsAgree st → flagsAgree (exec handler st c).
Proof.
  intros HA. destruct c as [this child|this child|component|key|key]; simpl.
  - by apply addChild_flagsAgree.
  - by apply removeChild_flagsAgree.
  - by apply setFocus_flagsAgree.
  - destruct (handleKey_cases handler st key) as [-> | [-> | ->]]; done.
  - done.
Qed.

(** X13. After any run of calls on a scene that starts without focus and
    without any [isFocused] flag set, the flag is set on the focused
    component, when it is focusable, and on no other node; so at most one
    node has its flag set. *)
Theorem focus_flag_follows_focus handler st0 cs :
  (∀ n, flagged (nodes st0) n = false) → focusedComponent st0 = None →
  let st := run handler st0 cs in
  (∀ n, flagged (nodes st) n = true
        ↔ focusedComponent st = Some n ∧ isFocusable (nodes st) n = true)
  ∧ (∀ n m, flagged (nodes st) n = true → flagged (nodes st) m = true → n = m).
Proof.
  intros Hflags Hnone st.
  assert (HA : flagsAgree st0).
  { intros n. rewrite Hflags, Hnone. split; [done|]. by intros [? _]. }
  assert (HA' : flagsAgree st).
  { subst st. clear Hflags Hnone. revert st0 HA.
    induction cs as [|c cs IH]; intros st0 HA; [done|].
    simpl. apply IH. by apply exec_flagsAgree. }
  split; [exact HA'|]. intros n m Hn Hm.
  apply HA' in Hn as [Hn _]. apply HA' in Hm as [Hm _]. congruence.
Qed.

Lemma onBlur_events st c :
  events (onBlur st c) = events st ++ (if isFocusable (nodes st) c then [OnBlur c] else []).
Proof. by destruct (onBlur_spec st c) as (_ & _ & _ & _ & _ & ->). Qed.

(** X14. [setFocus] first calls [onBlur] of the component that was focused
    and then [onFocus] of the new one (each only on a focusable node), and
    makes no other callback; in particular, on the component that already
    holds the focus it calls [onBlur] and then [onFocus] of that same
    component, which stays focused. *)
Theorem setFocus_callbacks st component :
  events (setFocus st component) = events st ++ blurCall st ++ focusCall st component
  ∧ focusedComponent (setFocus st component) = component
  ∧ (∀ c, focusedComponent st = Some c → component = Some c →
          isFocusable (nodes st) c = true →
          events (setFocus st component) = events st ++ [OnBlur c; OnFocus c]
          ∧ flagged (nodes (setFocus st component)) c = true).
Proof.
  assert (HE : events (setFocus st component)
               = events st ++ blurCall st ++ focusCall st component).
  { unfold setFocus, blurCall, focusCall.
    set (st1 := match focusedComponent st with Some f => onBlur st f | None => st end).
    assert (H1 : events st1
                 = events st ++ match focusedComponent st with
                                | Some f => if isFocusable (nodes st) f then [OnBlur f] else []
                                | None => []
                                end).
    { subst st1. destruct (focusedComponent st) as [f|].
      - apply onBlur_events.
      - by rewrite app_nil_r. }
    assert (HF : ∀ m, isFocusable (nodes st1) m = isFocusable (nodes st) m).
    { intros m. subst st1. destruct (focusedComponent st) as [f|]; [|done].
      by destruct (onBlur_spec st f) as (_ & HC & _); destruct (HC m). }
    destruct component as [c|].
    - destruct (onFocus_spec (withFocusedComponent st1 (Some c)) c)
        as (_ & _ & _ & _ & _ & ->).
      cbn [withFocusedComponent events nodes]. rewrite H1, HF. by rewrite <- app_assoc.
    - cbn [withFocusedComponent events]. rewrite H1. by rewrite app_nil_r. }
  split; [done|]. split; [apply setFocus_spec|].
  intros c Hf -> Hc. split.
  - rewrite HE. unfold blurCall, focusCall. by rewrite Hf, Hc.
  - rewrite setFocus_flagged. by rewrite decide_True.
Qed.

(** ** Input manager *)

Lemma handlersFor_register m key handler key' :
  handlersFor (registerGlobalHandler m key handler) key'
  = if decide (key = key') then handlersFor m key ++ [handler] else handlersFor m key'.
Proof.
  unfold handlersFor, registerGlobalHandler. cbn [globalHandlers].
  rewrite lookup_insert. by destruct (decide (key = key')) as [->|].
Qed.

Lemma handlersFor_unregister m key handler key' :
  handlersFor (unregisterGlobalHandler m key handler) key'
  = if decide (key = key') then registryWithout (handlersFor m key) handler
    else handlersFor m key'.
Proof.
  unfold handlersFor, unregisterGlobalHandler, registryWithout.
  destruct (globalHandlers m !! key) as [l|] eqn:E.
  - destruct (indexOf l handler) as [i|] eqn:Ei.
    + cbn [globalHandlers]. rewrite lookup_insert.
      destruct (decide (key = key')) as [->|]; [done|done].
    + destruct (decide (key = key')) as [<-|]; [by rewrite E|done].
  - destruct (decide (key = key')) as [<-|]; [by rewrite E|done].
Qed.

Lemma registryWithout_app_new l x :
  x ∉ l → registryWithout (l ++ [x]) x = l.
Proof.
  intros Hx. unfold registryWithout.
  destruct (indexOf (l ++ [x]) x) as [i|] eqn:E.
  - destruct (indexOf_Some _ _ _ E) as (l1 & l2 & Heq & Hx1 & ->).
    assert (Hl2 : l2 = [] ∧ l1 = l).
    { destruct l2 as [|y l2 _] using rev_ind.
      - by apply app_inj_tail in Heq as [-> _].
      - replace (l1 ++ x :: l2 ++ [y]) with ((l1 ++ x :: l2) ++ [y]) in Heq
          by (by rewrite <- app_assoc).
        apply app_inj_tail in Heq as [-> _]. exfalso. apply Hx.
        apply elem_of_app. right. left. }
    destruct Hl2 as [-> ->]. by rewrite app_nil_r.
  - exfalso. assert (Hin : x ∈ l ++ [x]) by (apply elem_of_app; right; left).
    apply indexOf_elem in Hin as [j Hj]. congruence.
Qed.

Lemma registryWithout_first l x :
  x ∈ l → ∃ l1 l2, l = l1 ++ x :: l2 ∧ (x ∉ l1) ∧ registryWithout l x = l1 ++ l2.
Proof.
  intros Hx. unfold registryWithout. apply indexOf_elem in Hx as [i Hi]. rewrite Hi.
  destruct (indexOf_Some _ _ _ Hi) as (l1 & l2 & -> & Hx1 & ->). by exists l1, l2.
Qed.

(** X16. Global handlers are kept per key in the order of registration.
    Registering appends the handler to the list of its key and leaves the
    other keys alone; unregistering takes the earliest registration of the
    handler out of the list of its key, and does nothing when the handler
    is not registered for the key; so registering a handler that was not
    registered for the key and unregistering it again restores the
    handlers of every key. *)
Theorem global_handler_registration m key handler :
  (∀ key', handlersFor (registerGlobalHandler m key handler) key'
           = if decide (key = key') then handlersFor m key ++ [handler]
             else handlersFor m key')
  ∧ (handler ∉ handlersFor m key → unregisterGlobalHandler m key handler = m)
  ∧ (handler ∈ handlersFor m key →
     ∃ l1 l2, handlersFor m key = l1 ++ handler :: l2 ∧ (handler ∉ l1)
              ∧ handlersFor (unregisterGlobalHandler m key handler) key = l1 ++ l2)
  ∧ (handler ∉ handlersFor m key →
     ∀ key', handlersFor
               (unregisterGlobalHandler (registerGlobalHandler m key handler) key handler)
               key'
             = handlersFor m key').
Proof.
  split; [apply handlersFor_register|]. split; [|split].
  - intros Hnot. unfold unregisterGlobalHandler, handlersFor in *.
    destruct (globalHandlers m !! key) as [l|]; [|done].
    by rewrite (indexOf_None l handler).
  - intros Hin. rewrite handlersFor_unregister, decide_True by done.
    by apply registryWithout_first.
  - intros Hnot key'. rewrite handlersFor_unregister, !handlersFor_register.
    destruct (decide (key = key')) as [<-|]; [|done].
    rewrite decide_True by done. by apply registryWithout_app_new.
Qed.

(** What [InputManager.handleKey] calls, returns and leaves alone. *)
Lemma InputManager_handleKey_spec handler m key :
  globalCalls (InputManager_handleKey handler m key).1
  = globalCalls m ++ ((λ h, (h, key)) <$> handlersFor m key)
  ∧ (InputManager_handleKey handler m key).2
    = match managerScene m with
      | Some st => (handleKey handler st key).2
      | None => false
      end
  ∧ managerScene (InputManager_handleKey handler m key).1
    = (λ st, (handleKey handler st key).1) <$> managerScene m
  ∧ globalHandlers (InputManager_handleKey handler m key).1 = globalHandlers m.
Proof.
  unfold InputManager_handleKey, handlersFor.
  destruct (managerScene m) as [st|]; cbn [fmap option_fmap option_map].
  - destruct (handleKey handler st key) as [st' handled]. cbn.
    by destruct (globalHandlers m !! key).
  - cbn. by destruct (globalHandlers m !! key).
Qed.

Lemma _handleKey_fields handler m key :
  globalCalls (_handleKey handler m key) = globalCalls m
  ∧ globalHandlers (_handleKey handler m key) = globalHandlers m
  ∧ managerScene (_handleKey handler m key)
    = (λ st, (handleKey handler st key).1) <$> managerScene m.
Proof.
  unfold _handleKey. destruct (managerScene m) as [st|] eqn:E; cbn; [done|].
  by rewrite E.
Qed.

(** X17. A chunk read from the keyboard is decoded and its tokens are
    handed to the scene one by one, in order, as simulated key presses of
    the same tokens would be; but the keyboard handler calls the scene
    itself, so no global handler is called for typed keys, while every
    simulated key press calls the global handlers of its key. *)
Theorem typed_keys_bypass_global_handlers handler m input :
  ∃ keys m',
    Decoder._handleInput input = Some keys
    ∧ KeyboardInputHandler_handleInput handler m input = Some m'
    ∧ managerScene m' = managerScene (foldl (simulateKeyPress handler) m keys)
    ∧ globalCalls m' = globalCalls m
    ∧ globalCalls (foldl (simulateKeyPress handler) m keys)
      = globalCalls m
        ++ concat (map (λ key, (λ h, (h, key)) <$> handlersFor m key) keys).
Proof.
  destruct (_handleInput_returns input) as [keys Hk].
  exists keys, (foldl (_handleKey handler) m keys).
  split; [done|]. unfold KeyboardInputHandler_handleInput. rewrite Hk.
  split; [done|]. clear Hk.
  assert (H : ∀ m1 m2 : manager,
             managerScene m1 = managerScene m2 → globalHandlers m2 = globalHandlers m →
             managerScene (foldl (_handleKey handler) m1 keys)
             = managerScene (foldl (simulateKeyPress handler) m2 keys)
             ∧ globalCalls (foldl (_handleKey handler) m1 keys) = globalCalls m1
             ∧ globalCalls (foldl (simulateKeyPress handler) m2 keys)
               = globalCalls m2
                 ++ concat (map (λ key, (λ h, (h, key)) <$> handlersFor m key) keys)).
  { induction keys as [|key keys IH]; intros m1 m2 Hs Hg.
    - cbn. by rewrite app_nil_r.
    - cbn [foldl map concat].
      destruct (_handleKey_fields handler m1 key) as (Hc1 & Hg1 & Hs1).
      destruct (InputManager_handleKey_spec handler m2 key) as (Hc2 & _ & Hs2 & Hg2).
      destruct (IH (_handleKey handler m1 key) (simulateKeyPress handler m2 key))
        as (IH1 & IH2 & IH3).
      + unfold simulateKeyPress. by rewrite Hs1, Hs2, Hs.
      + unfold simulateKeyPress. by rewrite Hg2.
      + split; [done|]. split; [by rewrite IH2|].
        rewrite IH3. unfold simulateKeyPress. rewrite Hc2, <- app_assoc.
        do 3 f_equal. unfold handlersFor. by rewrite Hg. }
  destruct (H m m eq_refl eq_refl) as (H1 & H2 & H3). done.
Qed.

(** ** Strings: slices *)

Lemma substring_take_drop n m s : String.substring n m s = takeS m (dropS n s).
Proof.
  unfold takeS, dropS. revert s; induction n as [|n IH]; intros s; [done|].
  destruct s as [|c s]; [by destruct m|]. simpl. apply IH.
Qed.

Lemma takeS_length n s :
  String.length (takeS n s) = Nat.min n (String.length s).
Proof.
  unfold takeS. revert s; induction n as [|n IH]; intros [|c s]; simpl; auto.
Qed.

Lemma dropS_length n s : String.length (dropS n s) = (String.length s - n)%nat.
Proof. apply substring_length. Qed.

Lemma takeS_dropS n s : (takeS n s ++ dropS n s)%string = s.
Proof.
  unfold takeS, dropS. revert s; induction n as [|n IH]; intros [|c s]; try done.
  simpl. rewrite append_String. by rewrite IH.
Qed.

Lemma takeS_all n s : (String.length s ≤ n)%nat → takeS n s = s.
Proof.
  unfold takeS. revert s; induction n as [|n IH]; intros [|c s] H; simpl in *;
    try done; try lia. by rewrite IH by lia.
Qed.

Lemma takeS_app a b : takeS (String.length a) (a ++ b) = a.
Proof.
  unfold takeS. induction a as [|c a IH].
  - rewrite append_empty_l. by destruct b.
  - rewrite append_String. simpl. by rewrite IH.
Qed.

Lemma dropS_app a b : dropS (String.length a) (a ++ b) = b.
Proof.
  unfold dropS. induction a as [|c a IH]; [by rewrite append_empty_l|].
  rewrite append_String. simpl. by rewrite IH.
Qed.

Lemma append_assoc_s (a b c : string) : ((a ++ b) ++ c)%string = (a ++ b ++ c)%string.
Proof.
  induction a as [|x a IH]; [by rewrite !append_empty_l|].
  rewrite !append_String. by rewrite IH.
Qed.

Lemma append_length_s (a b : string) :
  String.length (a ++ b) = (String.length a + String.length b)%nat.
Proof.
  induction a as [|x a IH]; [by rewrite append_empty_l|].
  rewrite append_String. simpl. by rewrite IH.
Qed.

(** A slice inside the string. *)
Lemma jsSlice_inside s a b :
  0 ≤ a ≤ b → b ≤ Z.of_nat (String.length s) →
  jsSlice s a b = takeS (Z.to_nat (b - a)) (dropS (Z.to_nat a) s).
Proof.
  intros Ha Hb. unfold jsSlice.
  rewrite (proj2 (Z.ltb_ge a 0)), (proj2 (Z.ltb_ge b 0)) by lia.
  rewrite !Z.min_l, Z.max_l by lia. apply substring_take_drop.
Qed.

Lemma jsSlice_prefix s b :
  0 ≤ b ≤ Z.of_nat (String.length s) → jsSlice s 0 b = takeS (Z.to_nat b) s.
Proof.
  intros Hb. rewrite jsSlice_inside by lia. by rewrite Z.sub_0_r.
Qed.

Lemma jsSliceFrom_inside s a :
  0 ≤ a ≤ Z.of_nat (String.length s) → jsSliceFrom s a = dropS (Z.to_nat a) s.
Proof.
  intros Ha. unfold jsSliceFrom. rewrite jsSlice_inside by lia.
  apply takeS_all. rewrite dropS_length. lia.
Qed.

(** ** Text input *)

Lemma editing_editedBy ti key ed :
  cursorInValue ti → TextInput.editing ti key = Some ed → editedBy ti ed key.
Proof.
  intros [H0 H1]. unfold TextInput.editing, editedBy.
  destruct (String.eqb key "backspace") eqn:E1.
  { apply String.eqb_eq in E1 as ->.
    destruct (0 <? TextInput.cursorPos ti) eqn:E; [|done]. apply Z.ltb_lt in E.
    intros [= <-]. left. split; [done|]. split; [done|].
    rewrite jsSlice_prefix, jsSliceFrom_inside by lia.
    by replace (Z.to_nat (TextInput.cursorPos ti - 1))
      with (Z.to_nat (TextInput.cursorPos ti) - 1)%nat by lia. }
  destruct (String.eqb key "delete") eqn:E2.
  { apply String.eqb_eq in E2 as ->.
    destruct (TextInput.cursorPos ti <? _) eqn:E; [|done]. apply Z.ltb_lt in E.
    intros [= <-]. right. left. split; [done|]. split; [done|].
    rewrite jsSlice_prefix, jsSliceFrom_inside by lia.
    by replace (Z.to_nat (TextInput.cursorPos ti + 1))
      with (S (Z.to_nat (TextInput.cursorPos ti))) by lia. }
  destruct (String.eqb key "left") eqn:E3.
  { apply String.eqb_eq in E3 as ->.
    destruct (0 <? TextInput.cursorPos ti) eqn:E; [|done]. apply Z.ltb_lt in E.
    intros [= <-]. do 2 right. left. done. }
  destruct (String.eqb key "right") eqn:E4.
  { apply String.eqb_eq in E4 as ->.
    destruct (TextInput.cursorPos ti <? _) eqn:E; [|done]. apply Z.ltb_lt in E.
    intros [= <-]. do 3 right. left. done. }
  destruct (String.eqb key "home") eqn:E5.
  { apply String.eqb_eq in E5 as ->. intros [= <-]. do 4 right. left. done. }
  destruct (String.eqb key "end") eqn:E6.
  { apply String.eqb_eq in E6 as ->. intros [= <-]. do 5 right. left. done. }
  destruct (String.length key =? 1)%nat eqn:E7; [|done].
  apply Nat.eqb_eq in E7.
  destruct (_ <? _) eqn:E; [|done]. apply Z.ltb_lt in E.
  intros [= <-]. do 6 right. split; [done|]. split; [done|].
  by rewrite jsSlice_prefix, jsSliceFrom_inside by lia.
Qed.

Lemma editedBy_lengths ti ed key :
  cursorInValue ti → editedBy ti ed key →
  cursorInValue ed
  ∧ (Z.of_nat (String.length (TextInput.value ed))
     ≤ Z.max (Z.of_nat (String.length (TextInput.value ti))) ((TextInput.size ti).1 - 3))
  ∧ (TextInput.value ed ≠ TextInput.value ti
     ↔ key = "backspace"%string ∨ key = "delete"%string ∨ String.length key = 1%nat).
Proof.
  intros [H0 H1] Hed. unfold cursorInValue.
  assert (Hne : ∀ a b : string, String.length a ≠ String.length b → a ≠ b)
    by (intros a b Hl ->; done).
  destruct Hed as [(-> & Hc & ->)|[(-> & Hc & ->)|[(-> & Hc & ->)|[(-> & Hc & ->)
                  |[(-> & ->)|[(-> & ->)|(Hk & Hc & ->)]]]]]];
    cbn [TextInput.edit TextInput.value TextInput.cursorPos];
    rewrite ?append_length_s, ?takeS_length, ?dropS_length.
  - split; [lia|]. split; [lia|]. split; [auto|]. intros _. apply Hne.
    rewrite append_length_s, takeS_length, dropS_length. lia.
  - split; [lia|]. split; [lia|]. split; [auto|]. intros _. apply Hne.
    rewrite append_length_s, takeS_length, dropS_length. lia.
  - split; [lia|]. split; [lia|]. split; [done|]. intros [H|[H|H]]; done.
  - split; [lia|]. split; [lia|]. split; [done|]. intros [H|[H|H]]; done.
  - split; [lia|]. split; [lia|]. split; [done|]. intros [H|[H|H]]; done.
  - split; [lia|]. split; [lia|]. split; [done|]. intros [H|[H|H]]; done.
  - rewrite Hk. split; [lia|]. split; [lia|]. split; [auto|]. intros _. apply Hne.
    rewrite !append_length_s, takeS_length, dropS_length. lia.
Qed.

Lemma editing_fields ti key ed :
  TextInput.editing ti key = Some ed →
  ∃ v cp, ed = TextInput.edit ti v cp.
Proof.
  unfold TextInput.editing.
  repeat (match goal with
          | |- (if ?b then _ else _) = _ → _ => destruct b
          end); intros [= <-]; eauto.
Qed.

Lemma handleKeyWith_cases handlers ti key :
  let r := TextInput.handleKeyWith handlers ti key in
  let asked := afterHandler handlers ti key in
  (r = asked
   ∧ (TextInput.isFocused ti = false ∨ asked.2 = true
      ∨ TextInput.editing asked.1 key = None))
  ∨ (∃ ed, TextInput.isFocused ti = true ∧ asked.2 = false
           ∧ TextInput.editing asked.1 key = Some ed
           ∧ r.2 = true
           ∧ (r.1 = TextInput._updateTextDisplay ed
              ∨ r.1 = TextInput.notify (TextInput._updateTextDisplay ed))).
Proof.
  unfold TextInput.handleKeyWith, afterHandler.
  destruct (TextInput.isFocused ti); cbn [negb]; [|left; auto].
  destruct (match handlers key with
            | Some handler => handler ti
            | None => (ti, false)
            end) as [ti1 [|]]; cbn [fst snd]; [left; auto|].
  destruct (TextInput.editing ti1 key) as [ed|]; [|left; auto].
  right. exists ed. repeat split; try done.
  destruct (_ && _); cbn; auto.
Qed.

Lemma afterHandler_keeps (P : TextInput.t → Prop) handlers ti key :
  handlersKeep P handlers → P ti → P (afterHandler handlers ti key).1.
Proof.
  intros Hk HP. unfold afterHandler.
  destruct (TextInput.isFocused ti); [|done].
  destruct (handlers key) as [handler|] eqn:Hh; [|done].
  by apply (Hk key).
Qed.

Lemma handleKeyWith_keeps (P : TextInput.t → Prop) handlers ti key :
  handlersKeep P handlers →
  (∀ ti ed, P ti → TextInput.editing ti key = Some ed →
     P (TextInput._updateTextDisplay ed)
     ∧ P (TextInput.notify (TextInput._updateTextDisplay ed))) →
  P ti → P (TextInput.handleKeyWith handlers ti key).1.
Proof.
  intros Hk Hed HP.
  pose proof (afterHandler_keeps P handlers ti key Hk HP) as Hasked.
  destruct (handleKeyWith_cases handlers ti key)
    as [[-> _]|(ed & _ & _ & He & _ & Hr)]; [done|].
  destruct (Hed _ _ Hasked He). by destruct Hr as [-> | ->].
Qed.

Lemma editing_withinCapacity bound size ti key ed :
  withinCapacity bound size ti → TextInput.editing ti key = Some ed →
  withinCapacity bound size (TextInput._updateTextDisplay ed)
  ∧ withinCapacity bound size (TextInput.notify (TextInput._updateTextDisplay ed)).
Proof.
  intros (Hc & Hs & Hb) Hed.
  destruct (editedBy_lengths _ _ _ Hc (editing_editedBy _ _ _ Hc Hed)) as (Hc' & Hlen & _).
  apply editing_fields in Hed as (v & cp & ->).
  cbn [TextInput.edit TextInput.value] in Hlen. rewrite Hs in Hlen.
  unfold withinCapacity.
  cbn [TextInput._updateTextDisplay TextInput.notify TextInput.edit TextInput.value
       TextInput.size].
  repeat split; try done; try apply Hc'; lia.
Qed.

Lemma afterEvent_withinCapacity handlers bound size ti e :
  handlersKeep (withinCapacity bound size) handlers →
  withinCapacity bound size ti →
  withinCapacity bound size (afterEvent handlers ti e).
Proof.
  intros Hk Hw. destruct e as [| |key]; cbn [afterEvent]; [done..|].
  apply handleKeyWith_keeps; [done| |done].
  intros ti' ed. apply editing_withinCapacity.
Qed.

(** X18. A text input keeps its cursor inside its value as long as the
    registered handlers do: when every handler leaves the cursor inside the
    value, the size as it is and the value no longer than the greater of
    the width less three and the length of the value the input was
    constructed with, then this holds however the input is focused, blurred
    and handed keys after its construction. [TextInput] itself does not put
    the cursor back into a value that a handler shortened: with the [enter]
    handler of test/chat_ui.ts, which clears the value and leaves
    [cursorPos], the keys h, i and enter handed to the focused message
    input of a scene 80 cells wide leave the cursor position 2 over the
    empty value. *)
Theorem TextInput_cursor_in_value :
  (∀ (handlers : string → option (TextInput.t → TextInput.t * bool))
     (size : Z * Z) (color textColor focusColor : Z * Z * Z)
     (placeholder value : string) (onChange : bool) (es : list inputEvent),
     handlersKeep (withinCapacity (Z.of_nat (String.length value)) size) handlers →
     let ti := afterEvents handlers
                 (TextInput.new size color textColor focusColor placeholder value
                    onChange)
                 es in
     cursorInValue ti
     ∧ Z.of_nat (String.length (TextInput.value ti))
       ≤ Z.max (Z.of_nat (String.length value)) (size.1 - 3))
  ∧ (let ti := afterEvents ChatUi.keyboardHandlers (ChatUi.messageInput 80)
                  [Focus; Key "h"; Key "i"; Key "enter"] in
     TextInput.value ti = EmptyString ∧ TextInput.cursorPos ti = 2).
Proof.
  split.
  - intros handlers size color textColor focusColor placeholder value onChange es Hk.
    cbn zeta. unfold afterEvents.
    set (ti0 := TextInput.new _ _ _ _ _ _ _).
    assert (H0 : withinCapacity (Z.of_nat (String.length value)) size ti0).
    { unfold withinCapacity, cursorInValue, ti0; cbn. split; [lia|]. split; [done|lia]. }
    clearbody ti0. revert ti0 H0.
    induction es as [|e es IH]; intros ti0 H0; cbn [foldl].
    + by destruct H0 as (? & _ & ?).
    + by apply IH, afterEvent_withinCapacity.
  - by vm_compute.
Qed.

Lemma editing_shown ti key ed :
  displayed ti ∧ focusShown ti → TextInput.editing ti key = Some ed →
  (displayed (TextInput._updateTextDisplay ed)
   ∧ focusShown (TextInput._updateTextDisplay ed))
  ∧ (displayed (TextInput.notify (TextInput._updateTextDisplay ed))
     ∧ focusShown (TextInput.notify (TextInput._updateTextDisplay ed))).
Proof.
  intros [Hd Hf] Hed. by apply editing_fields in Hed as (v & cp & ->).
Qed.

Lemma afterEvent_shown handlers ti e :
  handlersKeep (λ ti, displayed ti ∧ focusShown ti) handlers →
  displayed ti ∧ focusShown ti →
  displayed (afterEvent handlers ti e) ∧ focusShown (afterEvent handlers ti e).
Proof.
  intros Hk [Hd Hf]. destruct e as [| |key]; cbn [afterEvent]; [done..|].
  apply (handleKeyWith_keeps (λ ti, displayed ti ∧ focusShown ti)); [done| |done].
  intros ti' ed. apply editing_shown.
Qed.

(** X19. A text input shows its state as long as the registered handlers
    do: when every handler leaves the text node, the cursor node and the
    background in step with the input (as the [enter] handler of
    test/chat_ui.ts does, which calls [_updateTextDisplay] after clearing
    the value), then however the input is focused, blurred and handed keys
    after its construction, its text node shows the value in the text
    colour, or the placeholder in the dim colour when the value is empty;
    its cursor node stands one cell after the cursor position; the cursor
    node is visible exactly when the input has the focus, and the
    background has the focus colour exactly then. *)
Theorem TextInput_display_follows_state
    (handlers : string → option (TextInput.t → TextInput.t * bool))
    (size : Z * Z) (color textColor focusColor : Z * Z * Z)
    (placeholder value : string) (onChange : bool) (es : list inputEvent) :
  handlersKeep (λ ti, displayed ti ∧ focusShown ti) handlers →
  let ti := afterEvents handlers
              (TextInput.new size color textColor focusColor placeholder value onChange)
              es in
  displayed ti ∧ focusShown ti.
Proof.
  intros Hk. cbn zeta. unfold afterEvents.
  set (ti0 := TextInput.new _ _ _ _ _ _ _).
  assert (H0 : displayed ti0 ∧ focusShown ti0) by done.
  clearbody ti0. revert ti0 H0.
  induction es as [|e es IH]; intros ti0 H0; cbn [foldl]; [done|].
  by apply IH, afterEvent_shown.
Qed.

Lemma insert_take n k v :
  (n ≤ String.length v)%nat →
  takeS (n + String.length k) (insertedAt n k v) = (takeS n v ++ k)%string.
Proof.
  intros Hn. unfold insertedAt. rewrite <- append_assoc_s.
  rewrite <- (takeS_app (takeS n v ++ k) (dropS n v)) at 2.
  f_equal. rewrite append_length_s, takeS_length. lia.
Qed.

Lemma insert_drop n k v :
  (n ≤ String.length v)%nat →
  dropS (n + String.length k) (insertedAt n k v) = dropS n v.
Proof.
  intros Hn. unfold insertedAt. rewrite <- append_assoc_s.
  rewrite <- (dropS_app (takeS n v ++ k) (dropS n v)) at 2.
  f_equal. rewrite append_length_s, takeS_length. lia.
Qed.

Lemma insert_take_before n k v :
  (n ≤ String.length v)%nat → takeS n (insertedAt n k v) = takeS n v.
Proof.
  intros Hn. unfold insertedAt.
  rewrite <- (takeS_app (takeS n v) (k ++ dropS n v)) at 2.
  f_equal. rewrite takeS_length. lia.
Qed.

Lemma editing_character ti key :
  cursorInValue ti → String.length key = 1%nat →
  TextInput.editing ti key
  = if Z.of_nat (String.length (TextInput.value ti)) <? (TextInput.size ti).1 - 3
    then Some (TextInput.edit ti
                 (insertedAt (Z.to_nat (TextInput.cursorPos ti)) key (TextInput.value ti))
                 (TextInput.cursorPos ti + 1))
    else None.
Proof.
  intros Hc Hk.
  assert (Hn : ∀ name, String.length name ≠ 1%nat → String.eqb key name = false).
  { intros name Hl. apply String.eqb_neq. intros <-. done. }
  unfold TextInput.editing, insertedAt.
  rewrite !Hn by (cbn; lia). rewrite Hk, Nat.eqb_refl.
  by rewrite jsSlice_prefix, jsSliceFrom_inside by done.
Qed.

Lemma editing_backspace ti :
  cursorInValue ti →
  TextInput.editing ti "backspace"
  = if 0 <? TextInput.cursorPos ti
    then Some (TextInput.edit ti
                 (takeS (Z.to_nat (TextInput.cursorPos ti) - 1) (TextInput.value ti)
                  ++ dropS (Z.to_nat (TextInput.cursorPos ti)) (TextInput.value ti))
                 (TextInput.cursorPos ti - 1))
    else None.
Proof.
  intros Hc. unfold TextInput.editing. rewrite String.eqb_refl.
  destruct (0 <? TextInput.cursorPos ti) eqn:E; [|done]. apply Z.ltb_lt in E.
  destruct Hc. rewrite jsSlice_prefix, jsSliceFrom_inside by lia.
  by replace (Z.to_nat (TextInput.cursorPos ti - 1))
    with (Z.to_nat (TextInput.cursorPos ti) - 1)%nat by lia.
Qed.

Lemma TextInput_handleKey_eq handlers ti key :
  TextInput.handleKey handlers ti key
  = if negb (TextInput.isFocused ti) then (ti, false)
    else match handlers key with
         | Some true => (ti, true)
         | _ =>
           match TextInput.editing ti key with
           | Some ed =>
               (if TextInput.onChange ti
                   && (String.eqb key "backspace" || String.eqb key "delete"
                       || (String.length key =? 1)%nat)
                then TextInput.notify (TextInput._updateTextDisplay ed)
                else TextInput._updateTextDisplay ed, true)
           | None => (ti, false)
           end
         end.
Proof.
  unfold TextInput.handleKey, TextInput.handleKeyWith.
  destruct (negb _); [done|]. by destruct (handlers key) as [[|]|].
Qed.

Lemma handleKey_unclaimed handlers ti key ed :
  TextInput.isFocused ti = true → unclaimed handlers key →
  TextInput.editing ti key = Some ed →
  TextInput.value (TextInput.handleKey handlers ti key).1 = TextInput.value ed
  ∧ TextInput.cursorPos (TextInput.handleKey handlers ti key).1 = TextInput.cursorPos ed
  ∧ TextInput.isFocused (TextInput.handleKey handlers ti key).1 = true
  ∧ TextInput.size (TextInput.handleKey handlers ti key).1 = TextInput.size ti
  ∧ (TextInput.handleKey handlers ti key).2 = true.
Proof.
  intros Hf Hu Hed. rewrite TextInput_handleKey_eq, Hf, Hed. cbn [negb].
  apply editing_fields in Hed as (v & cp & ->). unfold unclaimed in Hu.
  destruct (handlers key) as [[|]|]; [done|..]; by destruct (_ && _).
Qed.

(** X20. Typing a character into a focused text input that has room and
    then pressing backspace gives back the value and the cursor position
    there were before. *)
Theorem TextInput_insert_then_backspace (handlers : string → option bool)
    (ti : TextInput.t) (c : string) :
  TextInput.isFocused ti = true → cursorInValue ti →
  String.length c = 1%nat →
  Z.of_nat (String.length (TextInput.value ti)) < (TextInput.size ti).1 - 3 →
  unclaimed handlers c → unclaimed handlers "backspace" →
  let typed := (TextInput.handleKey handlers ti c).1 in
  let erased := (TextInput.handleKey handlers typed "backspace").1 in
  TextInput.value typed
  = insertedAt (Z.to_nat (TextInput.cursorPos ti)) c (TextInput.value ti)
  ∧ TextInput.cursorPos typed = TextInput.cursorPos ti + 1
  ∧ TextInput.value erased = TextInput.value ti
  ∧ TextInput.cursorPos erased = TextInput.cursorPos ti.
Proof.
  intros Hf Hc Hk Hroom Hu Hb. cbn zeta.
  pose proof (editing_character ti c Hc Hk) as Hed.
  rewrite (proj2 (Z.ltb_lt _ _) Hroom) in Hed.
  destruct (handleKey_unclaimed handlers ti c _ Hf Hu Hed) as (Hv & Hp & Hf' & _ & _).
  set (typed := (TextInput.handleKey handlers ti c).1) in *.
  cbn [TextInput.edit TextInput.value TextInput.cursorPos] in Hv, Hp.
  split; [done|]. split; [done|].
  assert (Hc' : cursorInValue typed).
  { unfold cursorInValue. rewrite Hv, Hp. unfold insertedAt.
    rewrite !append_length_s, takeS_length, dropS_length, Hk.
    destruct Hc. lia. }
  pose proof (editing_backspace typed Hc') as Hed'.
  destruct Hc as [Hc0 Hc1].
  rewrite (proj2 (Z.ltb_lt 0 (TextInput.cursorPos typed))) in Hed' by lia.
  destruct (handleKey_unclaimed handlers typed _ _ Hf' Hb Hed') as (Hv' & Hp' & _).
  rewrite Hv', Hp'. cbn [TextInput.edit TextInput.value TextInput.cursorPos].
  rewrite Hv, Hp. split; [|lia].
  replace (Z.to_nat (TextInput.cursorPos ti + 1) - 1)%nat
    with (Z.to_nat (TextInput.cursorPos ti)) by lia.
  replace (Z.to_nat (TextInput.cursorPos ti + 1))
    with (Z.to_nat (TextInput.cursorPos ti) + String.length c)%nat by lia.
  rewrite insert_take_before, insert_drop by lia.
  apply takeS_dropS.
Qed.

Lemma typeKeys_literals handlers s :
  (∀ key, String.length key = 1%nat → unclaimed handlers key) →
  ∀ ti,
  TextInput.isFocused ti = true → cursorInValue ti →
  Z.of_nat (String.length (TextInput.value ti)) + Z.of_nat (String.length s)
  ≤ (TextInput.size ti).1 - 3 →
  TextInput.value (typeKeys handlers ti (literals s))
  = insertedAt (Z.to_nat (TextInput.cursorPos ti)) s (TextInput.value ti)
  ∧ TextInput.cursorPos (typeKeys handlers ti (literals s))
    = TextInput.cursorPos ti + Z.of_nat (String.length s).
Proof.
  intros Hu. induction s as [|c s IH]; intros ti Hf Hc Hroom.
  - cbn [literals typeKeys foldl String.length]. unfold insertedAt.
    rewrite append_empty_l, takeS_dropS. split; [done|lia].
  - change (typeKeys handlers ti (literals (String c s)))
      with (typeKeys handlers (TextInput.handleKey handlers ti (String c EmptyString)).1
              (literals s)).
    cbn [String.length] in Hroom.
    set (key := String c EmptyString).
    assert (Hk : String.length key = 1%nat) by done.
    pose proof (editing_character ti key Hc Hk) as Hed.
    rewrite (proj2 (Z.ltb_lt _ _)) in Hed by lia.
    destruct (handleKey_unclaimed handlers ti key _ Hf (Hu key Hk) Hed)
      as (Hv & Hp & Hf' & Hs & _).
    set (typed := (TextInput.handleKey handlers ti key).1) in *.
    cbn [TextInput.edit TextInput.value TextInput.cursorPos] in Hv, Hp.
    assert (Hc' : cursorInValue typed).
    { unfold cursorInValue. rewrite Hv, Hp. unfold insertedAt.
      rewrite !append_length_s, takeS_length, dropS_length, Hk.
      destruct Hc. lia. }
    assert (Hl : String.length (TextInput.value typed)
                 = S (String.length (TextInput.value ti))).
    { rewrite Hv. unfold insertedAt.
      rewrite !append_length_s, takeS_length, dropS_length, Hk.
      destruct Hc. lia. }
    destruct (IH typed Hf' Hc') as [Hv2 Hp2]; [rewrite Hs, Hl; lia|].
    rewrite Hv2, Hp2, Hp, Hv. cbn [String.length]. split; [|lia].
    destruct Hc as [Hc0 Hc1].
    replace (Z.to_nat (TextInput.cursorPos ti + 1))
      with (Z.to_nat (TextInput.cursorPos ti) + String.length key)%nat by lia.
    unfold insertedAt at 1. rewrite insert_take, insert_drop by lia.
    unfold insertedAt. by rewrite append_assoc_s.
Qed.

(** X21. A chunk of plain characters typed at a focused text input that
    has room for all of them is decoded to one token per character, and
    handing the tokens to the input one after the other puts the chunk into
    the value at the cursor and moves the cursor behind it. *)
Theorem TextInput_types_plain_chunk (handlers : string → option bool)
    (ti : TextInput.t) (s : string) :
  TextInput.isFocused ti = true → cursorInValue ti → allPlain s →
  (∀ key, String.length key = 1%nat → unclaimed handlers key) →
  Z.of_nat (String.length (TextInput.value ti)) + Z.of_nat (String.length s)
  ≤ (TextInput.size ti).1 - 3 →
  ∃ keys, Decoder._handleInput s = Some keys
    ∧ TextInput.value (typeKeys handlers ti keys)
      = insertedAt (Z.to_nat (TextInput.cursorPos ti)) s (TextInput.value ti)
    ∧ TextInput.cursorPos (typeKeys handlers ti keys)
      = TextInput.cursorPos ti + Z.of_nat (String.length s).
Proof.
  intros Hf Hc Hp Hu Hroom. exists (literals s).
  split; [by apply _handleInput_plain|].
  by apply typeKeys_literals.
Qed.

Section DecoderCharacters.
Import Str Decoder.

Lemma step_character c rest :
  c ≠ ascii_of_nat 27 → step (String c rest) = Some (keyOf c, rest).
Proof.
  intros Hesc. unfold keyOf.
  repeat (destruct (decide _) as [->|?];
          [by apply (step_sequence (String _ EmptyString) _ rest); [compute_done|..]|]).
  by apply step_plain.
Qed.

Lemma step_not_space input key rest :
  step input = Some (key, rest) → key ≠ " "%string.
Proof.
  destruct input as [|c input]; [done|].
  destruct (decide (c = ascii_of_nat 27)) as [->|Hc].
  - unfold step.
    destruct (firstMatch KEY_MAPPING _) as [[seq k]|] eqn:E; [|by intros [= <- <-]].
    intros [= <- <-]. apply firstMatch_elem in E. unfold KEY_MAPPING in E.
    repeat (apply elem_of_cons in E as [E'|E]; [by injection E' as -> ->|]).
    by apply elem_of_nil in E.
  - rewrite step_character by done. intros [= <- <-]. unfold keyOf.
    repeat (destruct (decide _) as [?|?]; [done|]).
    intros [= ->]. done.
Qed.

Lemma handleInputLoop_no_space fuel input keys :
  handleInputLoop fuel input = Some keys → Forall (λ key, key ≠ " "%string) keys.
Proof.
  revert input keys; induction fuel as [|fuel IH]; intros input keys; simpl.
  - destruct (step input) as [[key rest]|]; [done|]. by intros [= <-].
  - destruct (step input) as [[key rest]|] eqn:E; [|by intros [= <-]].
    destruct (handleInputLoop fuel rest) as [keys'|] eqn:E'; [|done].
    intros [= <-]. constructor; [by eapply step_not_space|by eapply IH].
Qed.

End DecoderCharacters.

Lemma noSpace_app a b : noSpace (a ++ b) ↔ noSpace a ∧ noSpace b.
Proof.
  induction a as [|c a IH]; [rewrite append_empty_l; cbn; tauto|].
  rewrite append_String. cbn [noSpace]. tauto.
Qed.

Lemma noSpace_take n s : noSpace s → noSpace (takeS n s).
Proof. intros H. rewrite <- (takeS_dropS n s) in H. by apply noSpace_app in H as []. Qed.

Lemma noSpace_drop n s : noSpace s → noSpace (dropS n s).
Proof. intros H. rewrite <- (takeS_dropS n s) in H. by apply noSpace_app in H as []. Qed.

Lemma noSpace_key key :
  String.length key = 1%nat → key ≠ " "%string → noSpace key.
Proof.
  destruct key as [|c [|c' key]]; try done. intros _ Hne. split; [|done].
  by intros ->.
Qed.

Lemma noSpace_jsSlice s a b : noSpace s → noSpace (jsSlice s a b).
Proof.
  intros H. unfold jsSlice. rewrite substring_take_drop.
  by apply noSpace_take, noSpace_drop.
Qed.

Lemma editing_noSpace ti key ed :
  noSpace (TextInput.value ti) → key ≠ " "%string →
  TextInput.editing ti key = Some ed →
  noSpace (TextInput.value (TextInput._updateTextDisplay ed))
  ∧ noSpace (TextInput.value (TextInput.notify (TextInput._updateTextDisplay ed))).
Proof.
  intros Hn Hk.
  cbn [TextInput._updateTextDisplay TextInput.notify TextInput.value].
  unfold TextInput.editing, jsSliceFrom.
  repeat (match goal with
          | |- (if ?b then _ else _) = _ → _ => destruct b eqn:?
          end); intros [= <-]; cbn [TextInput.edit TextInput.value];
    rewrite ?noSpace_app; repeat split; auto using noSpace_jsSlice.
  all: apply noSpace_key; [by apply Nat.eqb_eq|done].
Qed.

(** X22. A space cannot be typed into a text input: every chunk is decoded
    to tokens none of which is the space character (a typed space is handed
    on as the token [space]), and a value without a space stays without one
    whatever these tokens do to the input, as long as no registered handler
    puts a space into the value itself. *)
Theorem TextInput_no_space_typed
    (handlers : string → option (TextInput.t → TextInput.t * bool))
    (ti : TextInput.t) (input : string) :
  handlersKeep (λ ti, noSpace (TextInput.value ti)) handlers →
  noSpace (TextInput.value ti) →
  ∃ keys, Decoder._handleInput input = Some keys
    ∧ Forall (λ key, key ≠ " "%string) keys
    ∧ noSpace (TextInput.value (typeKeysWith handlers ti keys)).
Proof.
  intros Hh Hn. destruct (_handleInput_returns input) as [keys Hk].
  exists keys. split; [done|].
  apply handleInputLoop_no_space in Hk. split; [done|].
  clear input. revert ti Hn.
  induction Hk as [|key keys Hkey _ IH]; intros ti Hn; [done|].
  cbn [typeKeysWith foldl]. apply IH.
  apply (handleKeyWith_keeps (λ ti, noSpace (TextInput.value ti))); [done| |done].
  intros ti' ed Hn' Hed. by apply (editing_noSpace ti' key).
Qed.

(** X23. The tokens of the mapping table other than the six editing keys
    (among them [space], [enter], [tab], [escape], [up] and [down]) are not
    handled by a text input and change nothing in it, unless a registered
    handler claims them. *)
Theorem TextInput_ignores_other_tokens (handlers : string → option bool)
    (ti : TextInput.t) (seq key : string) :
  (seq, key) ∈ Decoder.KEY_MAPPING → key ∉ editingKeys → unclaimed handlers key →
  TextInput.handleKey handlers ti key = (ti, false).
Proof.
  intros Hin Hne Hu. rewrite TextInput_handleKey_eq. unfold unclaimed in Hu.
  destruct (negb _); [done|].
  assert (He : TextInput.editing ti key = None).
  { unfold Decoder.KEY_MAPPING in Hin.
    repeat (apply elem_of_cons in Hin as [Hin'|Hin];
            [injection Hin' as -> ->;
             first [done | exfalso; apply Hne; unfold editingKeys; set_solver]|]).
    by apply elem_of_nil in Hin. }
  rewrite He. by destruct (handlers key) as [[|]|].
Qed.

(** X24. Beyond what a registered handler does itself, a text input calls
    [onChange] exactly when its own editing changed the value, once and
    with the new value: with the input taken as the registered handler of
    the key left it (the input itself when there is none or the input has
    no focus) and the cursor inside the value then, the calls of [onChange]
    after the key are those before, and one more with the new value when
    [onChange] is set and the value differs. Moving the cursor, an
    unhandled key and a key claimed by the handler add no call. *)
Theorem TextInput_onChange_on_new_value
    (handlers : string → option (TextInput.t → TextInput.t * bool))
    (ti : TextInput.t) (key : string) :
  cursorInValue (afterHandler handlers ti key).1 →
  let asked := (afterHandler handlers ti key).1 in
  let ti' := (TextInput.handleKeyWith handlers ti key).1 in
  TextInput.changes ti'
  = TextInput.changes asked
    ++ (if TextInput.onChange asked
           && negb (String.eqb (TextInput.value ti') (TextInput.value asked))
        then [TextInput.value ti'] else []).
Proof.
  intros Hc. cbn zeta.
  destruct (handleKeyWith_cases handlers ti key)
    as [[-> _]|(ed & _ & _ & He & _ & Hr)].
  { by rewrite String.eqb_refl, andb_false_r, app_nil_r. }
  unfold TextInput.handleKeyWith, afterHandler in *.
  destruct (TextInput.isFocused ti); cbn [negb] in *.
  2: { by rewrite String.eqb_refl, andb_false_r, app_nil_r. }
  destruct (match handlers key with
            | Some handler => handler ti
            | None => (ti, false)
            end) as [asked claimed]; cbn [fst snd] in *.
  destruct claimed; cbn [fst].
  { by rewrite String.eqb_refl, andb_false_r, app_nil_r. }
  rewrite He. cbn [fst]. clear Hr.
  pose proof (editedBy_lengths _ _ _ Hc (editing_editedBy _ _ _ Hc He)) as (_ & _ & Hiff).
  apply editing_fields in He as (v & cp & ->).
  cbn [TextInput.edit TextInput.value] in Hiff.
  set (b := String.eqb key "backspace" || String.eqb key "delete"
            || (String.length key =? 1)%nat).
  assert (Hb : b = negb (String.eqb v (TextInput.value asked))).
  { destruct (String.eqb_spec v (TextInput.value asked)) as [Heq|Hneq]; cbn [negb].
    - destruct b eqn:Eb; [|done]. exfalso. apply (proj2 Hiff); [|done].
      unfold b in Eb. rewrite !orb_true_iff, !String.eqb_eq, Nat.eqb_eq in Eb. tauto.
    - apply Hiff in Hneq. unfold b.
      rewrite !orb_true_iff, !String.eqb_eq, Nat.eqb_eq. tauto. }
  rewrite Hb.
  destruct (TextInput.onChange asked), (String.eqb v (TextInput.value asked)) eqn:E;
    cbn; rewrite ?E; cbn; by rewrite ?app_nil_r.
Qed.

(** ** Button *)

Lemma _handleInput_keysOf s :
  noEscape s → Decoder._handleInput s = Some (keysOf s).
Proof.
  induction s as [|c s IH]; [done|]. intros [Hc Hs].
  rewrite (_handleInput_step _ _ _ (step_character c s Hc)), (IH Hs). done.
Qed.

Lemma Button_handleKey_keyOf b c :
  Button.handleKey b (keyOf c)
  = if Button.isFocused b && activating c && Button.onClick b
    then (Button.click b, true) else (b, false).
Proof.
  unfold Button.handleKey, keyOf, activating.
  repeat (destruct (decide _) as [->|?]; [done|]).
  rewrite bool_decide_false by tauto.
  replace (String.eqb (String c EmptyString) "enter") with false
    by (cbn; by destruct (Ascii.eqb c _)).
  replace (String.eqb (String c EmptyString) "space") with false
    by (cbn; by destruct (Ascii.eqb c _)).
  replace (String.eqb (String c EmptyString) " ") with false; [done|].
  symmetry. apply String.eqb_neq. by intros [= ->].
Qed.

Lemma pressKeys_keysOf s : ∀ b,
  Button.clicks (pressKeys b (keysOf s))
  = (Button.clicks b
     + (if Button.isFocused b && Button.onClick b then countActivating s else 0))%nat
  ∧ Button.isFocused (pressKeys b (keysOf s)) = Button.isFocused b.
Proof.
  induction s as [|c s IH]; intros b.
  - cbn. split; [|done]. destruct (_ && _); lia.
  - change (pressKeys b (keysOf (String c s)))
      with (pressKeys (Button.handleKey b (keyOf c)).1 (keysOf s)).
    destruct (IH (Button.handleKey b (keyOf c)).1) as [-> ->].
    rewrite Button_handleKey_keyOf. cbn [countActivating].
    destruct b as [? ? ? ? ? onClick clicks isFocused ? ?].
    cbn [Button.isFocused Button.onClick Button.clicks].
    destruct isFocused, (activating c), onClick; cbn; split; try done; lia.
Qed.

(** X25. The tokens decoded from a chunk without ESC, handed to a button
    one after the other, call [onClick] of a focused button once for every
    carriage return, line feed and space of the chunk and for no other
    character; a button that is not focused calls it for none. *)
Theorem Button_clicks_per_activating_character (b : Button.t) (s : string) :
  noEscape s →
  ∃ keys, Decoder._handleInput s = Some keys
    ∧ Button.clicks (pressKeys b keys)
      = (Button.clicks b
         + (if Button.isFocused b && Button.onClick b
            then countActivating s else 0))%nat.
Proof.
  intros Hs. exists (keysOf s). split; [by apply _handleInput_keysOf|].
  apply pressKeys_keysOf.
Qed.


(** ** Arrow keys *)

Section ArrowScan.
Variables (s : gmap id node) (key : string) (focused : id).

Lemma scanned_keep seen acc x :
  scanned s key focused seen acc →
  (x = focused
   ∨ match distanceFrom s key focused x, acc.2 with
     | Some dx, Some d => d ≤ dx
     | Some dx, None => False
     | None, _ => True
     end) →
  scanned s key focused (seen ++ [x]) acc.
Proof.
  destruct acc as [[c|] [d|]]; cbn [scanned snd]; try done.
  - intros (l1 & l2 & -> & Hc & Hd & Hl1 & Hl2) Hx.
    exists l1, (l2 ++ [x]). rewrite <- app_assoc. repeat split; try done.
    intros c' d' [Hin|Hin%list_elem_of_singleton]%elem_of_app Hne Hd'; [eauto|].
    subst c'. destruct Hx as [->|Hx]; [done|]. by rewrite Hd' in Hx.
  - intros Hnone Hx c' [Hin|Hin%list_elem_of_singleton]%elem_of_app Hne; [eauto|].
    subst c'. destruct Hx as [->|Hx]; [done|].
    by destruct (distanceFrom s key focused x).
Qed.

Lemma scanned_step seen acc x :
  scanned s key focused seen acc →
  scanned s key focused (seen ++ [x]) (nearestStep s key focused acc x).
Proof.
  intros Hacc. unfold nearestStep. fold (distanceFrom s key focused x).
  destruct (decide (x = focused)) as [Hx|Hx]; [apply scanned_keep; auto|].
  destruct (distanceFrom s key focused x) as [dx|] eqn:Ex;
    [|apply scanned_keep; [done|right; by rewrite Ex]].
  destruct acc as [[c|] [d|]]; cbn [scanned snd] in *; try done.
  - destruct (dx <? d) eqn:E.
    + apply Z.ltb_lt in E. destruct Hacc as (l1 & l2 & -> & Hc & Hd & Hl1 & Hl2).
      exists (l1 ++ c :: l2), []. repeat split; try done.
      * intros c' d' [Hin|[->|Hin]%elem_of_cons]%elem_of_app Hne Hd'.
        -- specialize (Hl1 _ _ Hin Hne Hd'). lia.
        -- rewrite Hd in Hd'. injection Hd' as <-. lia.
        -- specialize (Hl2 _ _ Hin Hne Hd'). lia.
      * intros c' d' Hin. by apply elem_of_nil in Hin.
    + apply Z.ltb_ge in E.
      apply (scanned_keep _ (Some c, Some d)); [done|]. right. by rewrite Ex.
  - exists seen, []. repeat split; try done.
    + intros c' d' Hin Hne Hd'. by rewrite (Hacc _ Hin Hne) in Hd'.
    + intros c' d' Hin. by apply elem_of_nil in Hin.
Qed.

Lemma scanned_all tabbable :
  scanned s key focused tabbable (foldl (nearestStep s key focused) (None, None) tabbable).
Proof.
  induction tabbable as [|x l IH] using rev_ind.
  - intros c' Hin. by apply elem_of_nil in Hin.
  - rewrite foldl_app. cbn [foldl]. by apply scanned_step.
Qed.

End ArrowScan.

(** X26. The arrow-key scan of [Scene.handleKey], over whatever list of
    components it is given: the component it picks is another component
    than the focused one, lies strictly in the direction of the arrow, and
    no other such component of the list is nearer (the distance being the
    offset along the arrow plus the offset across it); of several at the
    same distance the first of the list is picked. It picks none exactly
    when no other component of the list lies in that direction. *)
Theorem arrow_scan_picks_nearest (s : gmap id node) (key : string) (focused : id)
    (tabbable : list id) :
  match arrowScan s key focused tabbable with
  | Some c =>
      ∃ l1 l2 d, tabbable = l1 ++ c :: l2
        ∧ c ≠ focused
        ∧ distanceFrom s key focused c = Some d
        ∧ 0 < d
        ∧ (∀ c' d', c' ∈ l1 → c' ≠ focused →
                    distanceFrom s key focused c' = Some d' → d < d')
        ∧ (∀ c' d', c' ∈ l2 → c' ≠ focused →
                    distanceFrom s key focused c' = Some d' → d ≤ d')
  | None =>
      ∀ c', c' ∈ tabbable → c' ≠ focused → distanceFrom s key focused c' = None
  end.
Proof.
  unfold arrowScan. pose proof (scanned_all s key focused tabbable) as H.
  destruct (foldl _ _ _) as [[c|] [d|]]; cbn [scanned fst] in *; try done.
  destruct H as (l1 & l2 & -> & Hc & Hd & Hl1 & Hl2).
  exists l1, l2, d. repeat split; try done.
  unfold distanceFrom, arrowDistance in Hd.
  repeat (match type of Hd with
          | (if ?a && ?b then _ else _) = _ =>
              destruct a; cbn [andb] in Hd;
              [destruct b eqn:?; [injection Hd as <-; lia|]|]
          end); done.
Qed.

(** ** Finding the scene *)

Lemma findScene_more fuel fuel' st n r :
  findScene fuel st n = Some r → (fuel ≤ fuel')%nat → findScene fuel' st n = Some r.
Proof.
  revert fuel' n; induction fuel as [|fuel IH]; intros fuel' n.
  - destruct fuel'; simpl; destruct (decide _); try done;
      destruct (parent _); done.
  - destruct fuel' as [|fuel']; [lia|]. simpl.
    destruct (decide _); [done|]. destruct (parent _); [|done].
    intros H Hle. apply IH; [done|lia].
Qed.

Lemma findScene_walk st t m path :
  pathTo t m path → ∀ par, shaped (nodes st) par t →
  ∀ fuel,
    findScene (fuel + (length path - 1)) st m
    = (if bool_decide (scene st ∈ tail path) then Some (Some (scene st))
       else findScene fuel st (rootOf t)).
Proof.
  induction 1 as [n kids|n kids k m path Hk Hpath IH]; intros par Hshaped fuel.
  - cbn [length tail]. rewrite bool_decide_false by (by intros ?%elem_of_nil).
    by rewrite Nat.sub_diag, Nat.add_0_r.
  - inversion Hshaped as [par' n' kids' Hpar Hkids Hall]; subst.
    rewrite Forall_forall in Hall. specialize (Hall k Hk).
    assert (Hpk : parent (nodes st !!! rootOf k) = Some n)
      by (by inversion Hall).
    assert (Hlen : (0 < length path)%nat) by (inversion Hpath; simpl; lia).
    cbn [length tail rootOf].
    replace (fuel + (S (length path) - 1))%nat
      with (S fuel + (length path - 1))%nat by lia.
    rewrite (IH _ Hall (S fuel)).
    assert (Hhead : ∃ rest, path = rootOf k :: rest)
      by (inversion Hpath; simpl; eauto).
    destruct Hhead as [rest ->]. cbn [tail].
    destruct (decide (scene st ∈ rest)) as [Hin|Hin].
    + rewrite !bool_decide_true; [done|by right|done].
    + rewrite (bool_decide_false _ Hin). cbn [findScene].
      destruct (decide (rootOf k = scene st)) as [Heq|Hne].
      * rewrite bool_decide_true by (rewrite Heq; left). by rewrite Heq.
      * rewrite Hpk. rewrite bool_decide_false; [done|].
        intros [?|?]%elem_of_cons; [congruence|done].
Qed.

(** X27. [findScene] on a node of a tree whose root has no parent returns
    the scene when the scene is the node or one of its ancestors, and
    [null] when it is not: a component of a subtree that is not attached
    below the scene finds no scene to redraw. *)
Theorem findScene_nearest_scene (st : state) (t : tree) (m : id) (path : list id)
    (fuel : nat) :
  shaped (nodes st) None t → pathTo t m path → (length path ≤ S fuel)%nat →
  findScene fuel st m
  = Some (if bool_decide (scene st ∈ path) then Some (scene st) else None).
Proof.
  intros Hshaped Hpath Hfuel.
  pose proof (findScene_walk st t m path Hpath None Hshaped 0) as Hwalk.
  assert (Hroot : ∃ rest, path = rootOf t :: rest)
    by (inversion Hpath; simpl; eauto).
  destruct Hroot as [rest ->]. cbn [tail length] in *.
  assert (Hpar : parent (nodes st !!! rootOf t) = None) by (by inversion Hshaped).
  apply (findScene_more (0 + (S (length rest) - 1))); [|lia].
  rewrite Hwalk. destruct (decide (scene st ∈ rest)) as [Hin|Hin].
  - rewrite !bool_decide_true; [done|by right|done].
  - rewrite (bool_decide_false _ Hin). cbn [findScene].
    destruct (decide (rootOf t = scene st)) as [Heq|Hne].
    + rewrite bool_decide_true by (rewrite Heq; left). by rewrite Heq.
    + rewrite Hpar. rewrite bool_decide_false; [done|].
      intros [?|?]%elem_of_cons; [congruence|done].
Qed.


(** ** Tab container *)

Section TabContainerFacts.

Lemma lookup_total_None (s : gmap id node) n :
  s !! n = None → parent (s !!! n) = None ∧ children (s !!! n) = [].
Proof. intros H. rewrite lookup_total_alt, H. done. Qed.

Lemma create_other st n nd m :
  m ≠ n → nodes (create st n nd) !!! m = nodes st !!! m.
Proof. intros Hne. unfold create. cbn. by rewrite lookup_total_insert_ne. Qed.

Lemma create_known st n nd m :
  is_Some (nodes st !! m) → is_Some (nodes (create st n nd) !! m).
Proof.
  intros H. unfold create. cbn. rewrite lookup_insert_is_Some.
  destruct (decide (n = m)); auto.
Qed.

Lemma recolour_sameLinks st n c :
  sameLinks (nodes st) (nodes (create st n (withColor (nodes st !!! n) c))).
Proof.
  intros m. unfold create. cbn. destruct (decide (m = n)) as [->|Hne].
  - by rewrite lookup_total_insert_eq.
  - by rewrite lookup_total_insert_ne.
Qed.

Lemma insert_known (s : gmap id node) n nd m :
  is_Some (s !! m) → is_Some (<[n := nd]> s !! m).
Proof. intros H. rewrite lookup_insert_is_Some. destruct (decide (n = m)); auto. Qed.

Lemma onFocus_known st c m :
  is_Some (nodes st !! m) → is_Some (nodes (onFocus st c) !! m).
Proof. unfold onFocus. destruct (isFocusable _ _); [apply insert_known|done]. Qed.

Lemma onBlur_known st c m :
  is_Some (nodes st !! m) → is_Some (nodes (onBlur st c) !! m).
Proof. unfold onBlur. destruct (isFocusable _ _); [apply insert_known|done]. Qed.

Lemma setFocus_known st component m :
  is_Some (nodes st !! m) → is_Some (nodes (setFocus st component) !! m).
Proof.
  intros H. unfold setFocus.
  assert (H1 : is_Some (nodes (match focusedComponent st with
                               | Some f => onBlur st f
                               | None => st
                               end) !! m))
    by (destruct (focusedComponent st); [by apply onBlur_known|done]).
  destruct component; [|done]. by apply onFocus_known.
Qed.

Lemma Node_removeChild_known (s : gmap id node) this child m :
  is_Some (s !! m) → is_Some ((Node_removeChild s this child).1 !! m).
Proof.
  intros H. unfold Node_removeChild. destruct (indexOf _ _); [|done].
  cbn. by do 2 apply insert_known.
Qed.

Lemma removeChild_known st this child m :
  is_Some (nodes st !! m) → is_Some (nodes (removeChild st this child).1 !! m).
Proof.
  intros H. unfold removeChild. destruct (decide (this = scene st)) as [->|Hne].
  - unfold Scene_removeChild.
    pose proof (Node_removeChild_known (nodes st) (scene st) child m H) as H1.
    destruct (Node_removeChild (nodes st) (scene st) child) as [s1 [|]]; [|done].
    cbn [fst] in *.
    set (st2 := match indexOf (focusableComponents (withNodes st s1)) child with
                | Some index => _
                | None => _
                end).
    assert (H2 : is_Some (nodes st2 !! m))
      by (unfold st2; by destruct (indexOf _ _)).
    destruct (bool_decide _); [by apply setFocus_known|done].
  - pose proof (Node_removeChild_known (nodes st) this child m H) as H1.
    by destruct (Node_removeChild (nodes st) this child) as [s1 removed].
Qed.

Lemma Node_addChild_known st this child m :
  is_Some (nodes st !! m) → is_Some (nodes (Node_addChild st this child) !! m).
Proof.
  intros H. unfold Node_addChild. cbn. do 2 apply insert_known.
  destruct (parent _); [by apply removeChild_known|done].
Qed.

Lemma addChild_known st this child m :
  is_Some (nodes st !! m) → is_Some (nodes (addChild st this child) !! m).
Proof.
  intros H. unfold addChild. destruct (decide _); [|by apply Node_addChild_known].
  unfold Scene_addChild.
  pose proof (Node_addChild_known st (scene st) child m H) as H1.
  generalize dependent (Node_addChild st (scene st) child). intros st1 H1.
  destruct (isFocusable _ _); [|done]. cbn.
  destruct (focusedComponent st1); [done|]. by apply setFocus_known.
Qed.

(** The children of a node that is neither the new parent nor the former
    parent of the child are not changed by [addChild]; the child is put
    behind the children of a new parent that was not its parent before. *)
Lemma afterDetach_children st child n :
  parent (nodes st !!! child) ≠ Some n →
  children (nodes (afterDetach st child) !!! n) = children (nodes st !!! n).
Proof.
  intros Hp. unfold afterDetach.
  destruct (parent (nodes st !!! child)) as [p|] eqn:E; [|done].
  destruct (removeChild_cases st p child)
    as [[_ ->]|(l1 & l2 & st' & -> & (_ & _ & Hc & _) & _)]; [done|].
  cbn [fst]. rewrite Hc. destruct (decide (n = p)) as [->|]; [done|done].
Qed.

Lemma addChild_children_other st this child n :
  n ≠ this → parent (nodes st !!! child) ≠ Some n →
  children (nodes (addChild st this child) !!! n) = children (nodes st !!! n).
Proof.
  intros Hne Hp. destruct (addChild_attached st this child) as [Hc _].
  rewrite Hc, decide_False by done. by apply afterDetach_children.
Qed.

Lemma addChild_children_this st this child :
  parent (nodes st !!! child) ≠ Some this →
  children (nodes (addChild st this child) !!! this)
  = children (nodes st !!! this) ++ [child].
Proof.
  intros Hp. destruct (addChild_attached st this child) as [Hc _].
  rewrite Hc, decide_True by done. by rewrite afterDetach_children.
Qed.

Lemma afterDetach_parent st child n :
  n ≠ child →
  parent (nodes (afterDetach st child) !!! n) = parent (nodes st !!! n).
Proof.
  intros Hne. unfold afterDetach.
  destruct (parent (nodes st !!! child)) as [p|] eqn:E; [|done].
  destruct (removeChild_cases st p child)
    as [[_ ->]|(l1 & l2 & st' & -> & (_ & _ & _ & Hp) & _)]; [done|].
  cbn [fst]. by rewrite Hp, decide_False.
Qed.

Lemma addChild_parent_other st this child n :
  n ≠ child →
  parent (nodes (addChild st this child) !!! n) = parent (nodes st !!! n).
Proof.
  intros Hne. destruct (addChild_attached st this child) as [_ Hp].
  rewrite Hp, decide_False by done. by apply afterDetach_parent.
Qed.

Lemma new_unlinked st n : nodes st !! n = None → unlinked st n.
Proof. apply lookup_total_None. Qed.

Lemma unlinked_not_parent st n c :
  linked (nodes st) → unlinked st n → parent (nodes st !!! c) ≠ Some n.
Proof.
  intros (_ & H2 & _) [_ Hc] Hp. apply H2 in Hp. rewrite Hc in Hp.
  by apply elem_of_nil in Hp.
Qed.

Lemma addChild_unlinked st this child n :
  linked (nodes st) → unlinked st n → n ≠ this → n ≠ child →
  unlinked (addChild st this child) n.
Proof.
  intros HL Hn H1 H2. split.
  - rewrite addChild_parent_other by done. apply Hn.
  - rewrite addChild_children_other; [apply Hn|done|by apply unlinked_not_parent].
Qed.

Lemma create_unlinked_other st m nd n :
  n ≠ m → unlinked st n → unlinked (create st m nd) n.
Proof. intros Hne Hn. unfold unlinked. by rewrite create_other. Qed.

Lemma create_self st n nd : nodes (create st n nd) !!! n = nd.
Proof. unfold create. cbn. by rewrite lookup_total_insert_eq. Qed.

Lemma create_unlinked_linked st n nd :
  linked (nodes st) → unlinked st n →
  parent nd = None → children nd = [] →
  linked (nodes (create st n nd)).
Proof.
  intros HL [Hnp Hnc] Hp Hc.
  eapply linked_sameLinks; [done|].
  intros m. destruct (decide (m = n)) as [->|Hne].
  - rewrite create_self. by rewrite Hp, Hc, Hnp, Hnc.
  - by rewrite create_other.
Qed.

Lemma create_self_known st n nd : is_Some (nodes (create st n nd) !! n).
Proof. unfold create. cbn. rewrite lookup_insert_is_Some. auto. Qed.

Lemma known_not_new st n m :
  is_Some (nodes st !! n) → nodes st !! m = None → n ≠ m.
Proof. intros [x Hx] Hm ->. congruence. Qed.

(** Attaching a node to a node without children makes it the only child. *)
Lemma addChild_only st this child :
  linked (nodes st) → children (nodes st !!! this) = [] →
  children (nodes (addChild st this child) !!! this) = [child].
Proof.
  intros HL Hc. rewrite addChild_children_this, Hc; [done|].
  intros Hp. destruct HL as (_ & H2 & _). apply H2 in Hp. rewrite Hc in Hp.
  by apply elem_of_nil in Hp.
Qed.

(** Taking the only child away leaves no child. *)
Lemma removeChild_only st this child :
  linked (nodes st) → children (nodes st !!! this) = [child] →
  linked (nodes (removeChild st this child).1)
  ∧ children (nodes (removeChild st this child).1 !!! this) = [].
Proof.
  intros HL Hc.
  destruct (removeChild_cases st this child)
    as [[Hnot _]|(l1 & l2 & st' & -> & HD & _)].
  - exfalso. apply Hnot. rewrite Hc. left.
  - cbn [fst]. destruct (linked_detached _ _ _ _ _ _ HL HD) as (HL' & _ & _).
    split; [done|]. destruct HD as (Hl & _ & Hch & _).
    rewrite Hch, decide_True by done. rewrite Hc in Hl.
    destruct l1 as [|a l1]; [by injection Hl as <-|].
    injection Hl as _ Hl. by destruct l1.
Qed.

Lemma tabAt_inside (l : list TabContainer.tab) i :
  0 ≤ i < Z.of_nat (length l) → ∃ tab, TabContainer.tabAt l i = Some tab.
Proof.
  intros Hi. unfold TabContainer.tabAt. rewrite (proj2 (Z.ltb_ge i 0)) by lia.
  destruct (lookup_lt_is_Some_2 l (Z.to_nat i)) as [tab Ht]; [lia|]. eauto.
Qed.

Lemma tabAt_app (l : list TabContainer.tab) tab i :
  i < Z.of_nat (length l) →
  TabContainer.tabAt (l ++ [tab]) i = TabContainer.tabAt l i.
Proof.
  intros Hi. unfold TabContainer.tabAt. destruct (i <? 0) eqn:E; [done|].
  apply Z.ltb_ge in E. apply lookup_app_l. lia.
Qed.

Lemma addTab_invariant st tc title content tabButton tabBg tabTitle :
  tabInvariant st tc → newNodes st [tabButton; tabBg; tabTitle] →
  tabInvariant (TabContainer.addTab st tc title content tabButton tabBg tabTitle).1
    (TabContainer.addTab st tc title content tabButton tabBg tabTitle).2.
Proof.
  intros (HL & Hk & Hbar & [H0 Hr] & Hs) [Hnd Hnew].
  apply NoDup_cons in Hnd as [Hbg Hnd]. apply NoDup_cons in Hnd as [Hgx _].
  assert (Hb : nodes st !! tabButton = None)
    by (apply Hnew; rewrite !elem_of_cons; auto).
  assert (Hg : nodes st !! tabBg = None)
    by (apply Hnew; rewrite !elem_of_cons; auto).
  assert (Hx : nodes st !! tabTitle = None)
    by (apply Hnew; rewrite !elem_of_cons; auto).
  assert (Hbg' : tabButton ≠ tabBg)
    by (intros ->; apply Hbg; rewrite !elem_of_cons; auto).
  assert (Hbx : tabButton ≠ tabTitle)
    by (intros ->; apply Hbg; rewrite !elem_of_cons; auto).
  assert (Hgx' : tabBg ≠ tabTitle)
    by (intros ->; apply Hgx; rewrite !elem_of_cons; auto).
  set (ca := TabContainer.contentArea tc) in *.
  pose proof (known_not_new _ _ _ Hk Hb) as Hcb.
  pose proof (known_not_new _ _ _ Hk Hg) as Hcg.
  pose proof (known_not_new _ _ _ Hk Hx) as Hcx.
  unfold TabContainer.addTab.
  set (len := Z.of_nat (length (TabContainer.tabs tc))).
  set (tabWidth := Z.max 10 _).
  set (st1 := create st tabButton _).
  set (st2 := create st1 tabBg _).
  set (st3 := addChild st2 tabButton tabBg).
  set (st4 := create st3 tabTitle _).
  set (st5 := addChild st4 tabButton tabTitle).
  set (st6 := addChild st5 (TabContainer.tabBar tc) tabButton).
  (* the store after each step *)
  assert (HL1 : linked (nodes st1))
    by (apply create_unlinked_linked; [done|by apply new_unlinked|done..]).
  assert (HL2 : linked (nodes st2)).
  { apply create_unlinked_linked; [done| |done..].
    apply create_unlinked_other; [done|by apply new_unlinked]. }
  assert (HL3 : linked (nodes st3)) by (by apply addChild_linked).
  assert (Hx3 : unlinked st3 tabTitle).
  { apply addChild_unlinked; [done| |done..].
    do 2 (apply create_unlinked_other; [done|]). by apply new_unlinked. }
  assert (HL4 : linked (nodes st4)) by (by apply create_unlinked_linked).
  assert (HL5 : linked (nodes st5)) by (by apply addChild_linked).
  assert (HL6 : linked (nodes st6)) by (by apply addChild_linked).
  assert (Hk6 : is_Some (nodes st6 !! ca)).
  { do 2 apply addChild_known. apply create_known, addChild_known.
    by do 2 apply create_known. }
  (* the button has no parent before it is put into the tab bar *)
  assert (Hpb : parent (nodes st5 !!! tabButton) = None).
  { unfold st5. rewrite addChild_parent_other by done.
    unfold st4. rewrite create_other by done.
    unfold st3. rewrite addChild_parent_other by done.
    unfold st2. rewrite create_other by done.
    unfold st1. by rewrite create_self. }
  (* the content area keeps its children *)
  assert (Hc6 : children (nodes st6 !!! ca) = children (nodes st !!! ca)).
  { unfold st6. rewrite addChild_children_other; [|done|by rewrite Hpb].
    unfold st5. rewrite addChild_children_other; [|done|].
    2:{ unfold st4. by rewrite create_self. }
    unfold st4. rewrite create_other by done.
    unfold st3. rewrite addChild_children_other; [|done|].
    2:{ unfold st2. by rewrite create_self. }
    unfold st2. rewrite create_other by done.
    unfold st1. by rewrite create_other. }
  destruct (len =? TabContainer.activeTabIndex tc) eqn:E; cbn [fst snd].
  - apply Z.eqb_eq in E.
    assert (Hnil : TabContainer.tabs tc = []).
    { destruct Hr as [Hr|[Hr _]]; [lia|done]. }
    assert (Hact : TabContainer.activeTabIndex tc = 0).
    { rewrite <- E. unfold len. by rewrite Hnil. }
    unfold activeShown in Hs. rewrite Hnil, Hact in Hs. cbn in Hs.
    split; [by apply addChild_linked|]. split; [by apply addChild_known|].
    split; [done|]. split.
    + split; [done|]. left. cbn. rewrite Hnil, Hact. cbn. lia.
    + unfold activeShown. cbn [TabContainer.withTabs TabContainer.contentArea
        TabContainer.tabs TabContainer.activeTabIndex]. fold ca.
      rewrite Hnil, Hact. cbn [app TabContainer.tabAt Z.ltb Z.compare Z.to_nat lookup
        list_lookup TabContainer.content].
      apply addChild_only; [done|]. by rewrite Hc6.
  - apply Z.eqb_neq in E.
    assert (Hlt : TabContainer.activeTabIndex tc < len).
    { destruct Hr as [Hr|[Hr1 Hr2]]; [done|]. exfalso. apply E.
      unfold len. by rewrite Hr1, Hr2. }
    split; [done|]. split; [done|]. split; [done|]. split.
    + split; [done|]. left. cbn. rewrite length_app. cbn. fold len. lia.
    + unfold activeShown. cbn [TabContainer.withTabs TabContainer.contentArea
        TabContainer.tabs TabContainer.activeTabIndex]. fold ca.
      rewrite tabAt_app by done. by rewrite Hc6.
Qed.

Lemma recolour_invariant st tc n c kids :
  linked (nodes st) → is_Some (nodes st !! TabContainer.contentArea tc) →
  children (nodes st !!! TabContainer.contentArea tc) = kids →
  let st' := create st n (withColor (nodes st !!! n) c) in
  linked (nodes st') ∧ is_Some (nodes st' !! TabContainer.contentArea tc)
  ∧ children (nodes st' !!! TabContainer.contentArea tc) = kids.
Proof.
  intros HL Hk Hc. cbn zeta. pose proof (recolour_sameLinks st n c) as HS.
  split; [by eapply linked_sameLinks|]. split; [by apply create_known|].
  by rewrite (proj2 (HS _)).
Qed.

Lemma setActiveTab_invariant st tc index :
  tabInvariant st tc →
  ∃ st' tc', TabContainer.setActiveTab st tc index = Some (st', tc')
    ∧ tabInvariant st' tc'
    ∧ TabContainer.tabs tc' = TabContainer.tabs tc
    ∧ TabContainer.activeTabIndex tc'
      = (if (0 <=? index) && (index <? Z.of_nat (length (TabContainer.tabs tc)))
         then index else TabContainer.activeTabIndex tc).
Proof.
  intros Hinv. pose proof Hinv as (HL & Hk & Hbar & [H0 Hr] & Hs).
  unfold TabContainer.setActiveTab.
  destruct ((0 <=? index) && (index <? _)) eqn:E.
  2:{ by exists st, tc. }
  apply andb_true_iff in E as [E1 E2]. apply Z.leb_le in E1. apply Z.ltb_lt in E2.
  assert (Hlt : TabContainer.activeTabIndex tc < Z.of_nat (length (TabContainer.tabs tc))).
  { destruct Hr as [Hr|[Hr _]]; [done|]. rewrite Hr in E2. cbn in E2. lia. }
  rewrite (proj2 (Z.ltb_lt _ _) Hlt).
  destruct (tabAt_inside (TabContainer.tabs tc) (TabContainer.activeTabIndex tc))
    as [oldTab Hold]; [lia|].
  destruct (tabAt_inside (TabContainer.tabs tc) index) as [newTab Hnew]; [lia|].
  unfold activeShown in Hs. rewrite Hold in Hs. rewrite Hold. cbn [mbind option_bind].
  rewrite Hnew. cbn [mbind option_bind].
  destruct (removeChild_only st _ _ HL Hs) as [HL1 Hc1].
  set (st1 := (removeChild st (TabContainer.contentArea tc)
                 (TabContainer.content oldTab)).1) in *.
  assert (Hk1 : is_Some (nodes st1 !! TabContainer.contentArea tc))
    by (by apply removeChild_known).
  destruct (recolour_invariant st1 tc (TabContainer.tabBackground oldTab)
              (TabContainer.inactiveTabColor tc) [] HL1 Hk1 Hc1) as (HL2 & Hk2 & Hc2).
  set (st2 := create st1 (TabContainer.tabBackground oldTab) _) in *.
  destruct (recolour_invariant st2 tc (TabContainer.tabBackground newTab)
              (TabContainer.activeTabColor tc) [] HL2 Hk2 Hc2) as (HL3 & Hk3 & Hc3).
  set (st3 := create st2 (TabContainer.tabBackground newTab) _) in *.
  eexists _, _. split; [done|]. split; [|done].
  split; [by apply addChild_linked|]. split; [by apply addChild_known|].
  split; [done|]. split.
  - split; [done|]. left. done.
  - unfold activeShown. cbn [TabContainer.withActiveTabIndex TabContainer.contentArea
      TabContainer.tabs TabContainer.activeTabIndex]. rewrite Hnew.
    by apply addChild_only.
Qed.

Lemma setActiveTab_returns st tc index :
  activeInRange tc →
  ∃ st' tc', TabContainer.setActiveTab st tc index = Some (st', tc')
    ∧ TabContainer.tabs tc' = TabContainer.tabs tc
    ∧ TabContainer.activeTabIndex tc'
      = (if (0 <=? index) && (index <? Z.of_nat (length (TabContainer.tabs tc)))
         then index else TabContainer.activeTabIndex tc).
Proof.
  intros [H0 Hr]. unfold TabContainer.setActiveTab.
  destruct ((0 <=? index) && (index <? _)) eqn:E.
  2:{ by exists st, tc. }
  apply andb_true_iff in E as [E1 E2]. apply Z.leb_le in E1. apply Z.ltb_lt in E2.
  assert (Hlt : TabContainer.activeTabIndex tc < Z.of_nat (length (TabContainer.tabs tc))).
  { destruct Hr as [Hr|[Hr _]]; [done|]. rewrite Hr in E2. cbn in E2. lia. }
  rewrite (proj2 (Z.ltb_lt _ _) Hlt).
  destruct (tabAt_inside (TabContainer.tabs tc) (TabContainer.activeTabIndex tc))
    as [oldTab ->]; [lia|].
  destruct (tabAt_inside (TabContainer.tabs tc) index) as [newTab Hnew]; [lia|].
  cbn [mbind option_bind]. rewrite Hnew. cbn [mbind option_bind].
  by eexists _, _.
Qed.

Lemma handleKey_invariant contentHandleKey st tc key :
  tabInvariant st tc →
  ∃ st' tc' handled,
    TabContainer.handleKey contentHandleKey st tc key = Some (st', tc', handled)
    ∧ tabInvariant st' tc'.
Proof.
  intros Hinv. unfold TabContainer.handleKey.
  destruct (match TabContainer.tabAt _ _ with Some _ => _ | None => _ end);
    [by eexists _, _, _|].
  destruct (String.eqb key "tab"); [|by eexists _, _, _].
  destruct (_ =? 0); [by eexists _, _, _|].
  destruct (setActiveTab_invariant st tc
              (Z.rem (TabContainer.activeTabIndex tc + 1)
                 (Z.of_nat (length (TabContainer.tabs tc)))) Hinv)
    as (st' & tc' & -> & Hinv' & _).
  by eexists _, _, _.
Qed.

Lemma new_invariant st this background tabBar contentArea position size tabHeight
    color activeTabColor inactiveTabColor :
  linked (nodes st) → newNodes st [this; background; tabBar; contentArea] →
  let p := TabContainer.new st this background tabBar contentArea position size
             tabHeight color activeTabColor inactiveTabColor in
  tabInvariant p.1 p.2.
Proof.
  intros HL [Hnd Hnew]. cbn zeta.
  apply NoDup_cons in Hnd as [H1 Hnd]. apply NoDup_cons in Hnd as [H2 Hnd].
  apply NoDup_cons in Hnd as [H3 _].
  assert (Ht : nodes st !! this = None) by (apply Hnew; rewrite !elem_of_cons; auto).
  assert (Hb : nodes st !! background = None)
    by (apply Hnew; rewrite !elem_of_cons; auto).
  assert (Hr : nodes st !! tabBar = None) by (apply Hnew; rewrite !elem_of_cons; auto).
  assert (Hc : nodes st !! contentArea = None)
    by (apply Hnew; rewrite !elem_of_cons; auto).
  assert (Htb : this ≠ background)
    by (intros ->; apply H1; rewrite !elem_of_cons; auto).
  assert (Htr : this ≠ tabBar) by (intros ->; apply H1; rewrite !elem_of_cons; auto).
  assert (Htc : this ≠ contentArea)
    by (intros ->; apply H1; rewrite !elem_of_cons; auto).
  assert (Hbr : background ≠ tabBar)
    by (intros ->; apply H2; rewrite !elem_of_cons; auto).
  assert (Hbc : background ≠ contentArea)
    by (intros ->; apply H2; rewrite !elem_of_cons; auto).
  assert (Hrc : tabBar ≠ contentArea)
    by (intros ->; apply H3; rewrite !elem_of_cons; auto).
  unfold TabContainer.new.
  set (st0 := create st this _).
  set (st1 := create st0 background _).
  set (st2 := addChild st1 this background).
  set (st3 := create st2 tabBar _).
  set (st4 := addChild st3 this tabBar).
  set (st5 := create st4 contentArea _).
  set (st6 := addChild st5 this contentArea).
  cbn [fst snd].
  assert (HL0 : linked (nodes st0))
    by (apply create_unlinked_linked; [done|by apply new_unlinked|done..]).
  assert (HL1 : linked (nodes st1)).
  { apply create_unlinked_linked; [done| |done..].
    apply create_unlinked_other; [done|by apply new_unlinked]. }
  assert (HL2 : linked (nodes st2)) by (by apply addChild_linked).
  assert (Hr2 : unlinked st2 tabBar).
  { apply addChild_unlinked; [done| |done..].
    do 2 (apply create_unlinked_other; [done|]). by apply new_unlinked. }
  assert (Hc2 : unlinked st2 contentArea).
  { apply addChild_unlinked; [done| |done..].
    do 2 (apply create_unlinked_other; [done|]). by apply new_unlinked. }
  assert (HL3 : linked (nodes st3)) by (by apply create_unlinked_linked).
  assert (HL4 : linked (nodes st4)) by (by apply addChild_linked).
  assert (Hc4 : unlinked st4 contentArea).
  { apply addChild_unlinked; [done| |done..]. by apply create_unlinked_other. }
  assert (HL5 : linked (nodes st5)) by (by apply create_unlinked_linked).
  split; [by apply addChild_linked|].
  split; [apply addChild_known, create_self_known|].
  split; [done|]. split; [split; [done|by right]|].
  unfold activeShown. cbn [TabContainer.contentArea TabContainer.tabs
    TabContainer.activeTabIndex TabContainer.tabAt Z.ltb Z.compare lookup list_lookup
    Z.to_nat].
  unfold st6. rewrite addChild_children_other; [|done|].
  - unfold st5. by rewrite create_self.
  - unfold st5. by rewrite create_self.
Qed.

Lemma tabRun_invariant contentHandleKey cs : ∀ st tc,
  tabInvariant st tc → createsNew contentHandleKey (st, tc) cs →
  ∃ st' tc', tabRun contentHandleKey (st, tc) cs = Some (st', tc')
    ∧ tabInvariant st' tc'.
Proof.
  induction cs as [|c cs IH]; intros st tc Hinv Hnew; [by eexists _, _|].
  cbn [createsNew tabRun] in *. destruct Hnew as [Hc Hnew].
  assert (Hstep : ∃ st' tc', tabExec contentHandleKey (st, tc) c = Some (st', tc')
                    ∧ tabInvariant st' tc').
  { destruct c as [title content tabButton tabBg tabTitle|index|key]; cbn [tabExec fst snd].
    - eexists _, _. split; [by rewrite <- surjective_pairing|].
      by apply addTab_invariant.
    - destruct (setActiveTab_invariant st tc index Hinv) as (st' & tc' & ? & ? & _).
      eauto.
    - destruct (handleKey_invariant contentHandleKey st tc key Hinv)
        as (st' & tc' & handled & -> & ?).
      eexists _, _. by split. }
  destruct Hstep as (st' & tc' & Hexec & Hinv'). rewrite Hexec in *.
  by apply IH.
Qed.

End TabContainerFacts.

(** X28. A tab container made by its constructor from new nodes, in a store
    whose parent references and children lists agree, after any run of
    [addTab], [setActiveTab] (with an integer) and [handleKey]: no call
    stops with a [TypeError]; the active index is the index of a tab, or 0
    while there is no tab; and the content area holds the content of the
    active tab and nothing else. *)
Theorem TabContainer_shows_active_tab (contentHandleKey : id → string → option bool)
    (st : state) (this background tabBar contentArea : id)
    (position size : Z * Z) (tabHeight : Z)
    (color activeTabColor inactiveTabColor : Z * Z * Z) (cs : list tabCall) :
  linked (nodes st) → newNodes st [this; background; tabBar; contentArea] →
  let p := TabContainer.new st this background tabBar contentArea position size
             tabHeight color activeTabColor inactiveTabColor in
  createsNew contentHandleKey p cs →
  ∃ st' tc', tabRun contentHandleKey p cs = Some (st', tc')
    ∧ activeInRange tc'
    ∧ activeShown st' tc'.
Proof.
  intros HL Hnew p Hcs.
  pose proof (new_invariant st this background tabBar contentArea position size
                tabHeight color activeTabColor inactiveTabColor HL Hnew) as Hinv.
  cbn zeta in Hinv. fold p in Hinv.
  destruct p as [st0 tc0].
  destruct (tabRun_invariant contentHandleKey cs st0 tc0 Hinv Hcs)
    as (st' & tc' & Hrun & _ & _ & _ & Hr & Hs).
  by exists st', tc'.
Qed.

(** X29. On a tab container whose active index is in range, a key that the
    content of the active tab does not handle: the key [tab] is handled and
    makes the next tab the active one, the first after the last, or
    changes nothing when there is no tab; any other key is not handled and
    changes nothing. *)
Theorem TabContainer_tab_key_cycles (contentHandleKey : id → string → option bool)
    (st : state) (tc : TabContainer.t) (key : string) :
  activeInRange tc →
  (∀ activeTab answer,
     TabContainer.tabAt (TabContainer.tabs tc) (TabContainer.activeTabIndex tc)
     = Some activeTab →
     contentHandleKey (TabContainer.content activeTab) key = Some answer →
     answer = false) →
  ∃ st' tc',
    TabContainer.handleKey contentHandleKey st tc key
    = Some (st', tc', bool_decide (key = "tab"%string))
    ∧ TabContainer.tabs tc' = TabContainer.tabs tc
    ∧ TabContainer.activeTabIndex tc'
      = (if bool_decide (key = "tab"%string ∧ TabContainer.tabs tc ≠ [])
         then (TabContainer.activeTabIndex tc + 1)
              `mod` Z.of_nat (length (TabContainer.tabs tc))
         else TabContainer.activeTabIndex tc)
    ∧ (key ≠ "tab"%string ∨ TabContainer.tabs tc = [] → st' = st ∧ tc' = tc).
Proof.
  intros Hinv Hunhandled. unfold TabContainer.handleKey.
  assert (Hh : match TabContainer.tabAt (TabContainer.tabs tc)
                       (TabContainer.activeTabIndex tc) with
               | Some activeTab =>
                   match contentHandleKey (TabContainer.content activeTab) key with
                   | Some answer => answer
                   | None => false
                   end
               | None => false
               end = false).
  { destruct (TabContainer.tabAt _ _) as [activeTab|] eqn:E; [|done].
    destruct (contentHandleKey _ _) as [answer|] eqn:E'; [|done]. eauto. }
  rewrite Hh. destruct (String.eqb_spec key "tab") as [->|Hne].
  2:{ exists st, tc. rewrite bool_decide_false by done.
      rewrite bool_decide_false by tauto. auto. }
  rewrite bool_decide_true by done.
  destruct (TabContainer.tabs tc) as [|tab l] eqn:Etabs.
  { exists st, tc. cbn. rewrite Etabs. rewrite bool_decide_false by tauto. auto. }
  rewrite <- Etabs.
  assert (Hlen : 0 < Z.of_nat (length (TabContainer.tabs tc)))
    by (rewrite Etabs; cbn; lia).
  rewrite (proj2 (Z.eqb_neq _ 0)) by lia.
  pose proof Hinv as [H0 Hr].
  assert (Hlt : TabContainer.activeTabIndex tc < Z.of_nat (length (TabContainer.tabs tc))).
  { destruct Hr as [Hr|[Hr _]]; [done|]. by rewrite Etabs in Hr. }
  destruct (setActiveTab_returns st tc
              (Z.rem (TabContainer.activeTabIndex tc + 1)
                 (Z.of_nat (length (TabContainer.tabs tc)))) Hinv)
    as (st' & tc' & -> & Htabs & Hact).
  exists st', tc'. cbn [mbind option_bind]. split; [done|]. split; [done|].
  rewrite Z.rem_mod_nonneg in Hact by lia.
  pose proof (Z.mod_pos_bound (TabContainer.activeTabIndex tc + 1)
                (Z.of_nat (length (TabContainer.tabs tc))) Hlen) as Hb.
  rewrite (proj2 (Z.leb_le _ _)), (proj2 (Z.ltb_lt _ _)) in Hact by lia.
  cbn [andb] in Hact. split.
  - rewrite bool_decide_true; [done|]. split; [done|]. by rewrite Etabs.
  - intros [?|Hnil]; [done|]. by rewrite Etabs in Hnil.
Qed.


(** ** The first focusable child *)

Lemma addChild_sameCapabilities st this child :
  sameCapabilities (nodes st) (nodes (addChild st this child)).
Proof.
  destruct (afterDetach_spec st child) as (HC0 & _).
  destruct (Node_addChild_spec st this child) as (_ & HC & _).
  pose proof (sameCapabilities_trans _ _ _ HC0 HC) as HC1.
  unfold addChild. destruct (decide (this = scene st)) as [->|]; [|done].
  eapply sameCapabilities_trans; [exact HC1|]. apply Scene_addChild_nodes.
Qed.

(** The registry after a focusable child was added to the scene: the
    registry as the detaching of the child left it, with the child, in tab
    order. *)
Lemma Scene_addChild_sorted st child :
  isFocusable (nodes st) child = true →
  focusableComponents (addChild st (scene st) child)
  ≡ₚ focusableComponents (afterDetach st child) ++ [child]
  ∧ inTabOrder (nodes (addChild st (scene st) child))
      (focusableComponents (addChild st (scene st) child)).
Proof.
  intros HF. pose proof (addChild_sameCapabilities st (scene st) child) as HC.
  revert HC. unfold addChild. rewrite decide_True by done. intros HC.
  rewrite Scene_addChild_registry_exact, HF. split.
  - apply sortFocusableComponents_Permutation.
  - eapply inTabOrder_ext; [exact HC|]. apply sortFocusableComponents_inTabOrder.
Qed.

(** C10. When the Scene's [addChild] adds a focusable component while no
    component is focused, the registry becomes the registry it was (without
    the child, when the child was a child of the scene before) with the
    child added, put in tab order; the focus is set to its first component,
    which no component of the registry precedes in tab order, and that
    component's [onFocus] is called. And a call that turns a set focus into
    an unset one is [setFocus(null)], or it removes (or re-attaches
    elsewhere) the focused component and leaves the registry empty. *)
Theorem first_focusable_child_takes_focus handler st :
  (∀ child,
      registryFocusable st →
      isFocusable (nodes st) child = true →
      focusedComponent st = None →
      ∃ f, head (focusableComponents (addChild st (scene st) child)) = Some f
           ∧ focusedComponent (addChild st (scene st) child) = Some f
           ∧ events (addChild st (scene st) child) = events st ++ [OnFocus f]
           ∧ focusableComponents (addChild st (scene st) child)
             ≡ₚ focusableComponents (afterDetach st child) ++ [child]
           ∧ inTabOrder (nodes (addChild st (scene st) child))
               (focusableComponents (addChild st (scene st) child))
           ∧ ∀ x, x ∈ focusableComponents (addChild st (scene st) child) →
                  compareIndex (tabIndexOf (nodes (addChild st (scene st) child)) f)
                    (tabIndexOf (nodes (addChild st (scene st) child)) x) ≤ 0)
  ∧ (∀ c f,
        focusedComponent st = Some f →
        focusedComponent (exec handler st c) = None →
        c = SetFocus None
        ∨ ((∃ this, c = RemoveChild this f ∨ c = AddChild this f)
           ∧ focusableComponents (exec handler st c) = [])).
Proof.
  split.
  - intros child HRF HF HN.
    destruct (Scene_addChild_sorted st child HF) as [Hperm Horder].
    assert (Hfirst : ∃ f, head (focusableComponents (addChild st (scene st) child)) = Some f
                          ∧ focusedComponent (addChild st (scene st) child) = Some f
                          ∧ events (addChild st (scene st) child)
                            = events st ++ [OnFocus f]).
    { unfold addChild. rewrite decide_True by done.
      by apply Scene_addChild_first_focus. }
    destruct Hfirst as (f & Hhead & Hfocus & Hevents).
    exists f. do 5 (split; [done|]).
    destruct (focusableComponents (addChild st (scene st) child)) as [|f' rest];
      [done|].
    injection Hhead as ->. destruct Horder as [Hf _].
    intros x [->|Hx]%elem_of_cons.
    + apply compareIndex_refl.
    + rewrite Forall_forall in Hf. by apply Hf.
  - intros c f Hf Hnone.
    destruct c as [this child|this child|component|key|key]; simpl in *.
    + destruct (addChild_focus_unset st this child Hnone) as [Hnone' ->].
      destruct (afterDetach_focus_unset st child f Hf Hnone') as [-> ->].
      right. eauto.
    + destruct (removeChild_focus_unset st this child f Hf Hnone) as [-> ->].
      right. eauto.
    + destruct (setFocus_spec st component) as (_ & _ & _ & HF & _).
      left. congruence.
    + destruct (handleKey_cases handler st key) as [H | [H | H]];
        rewrite H in Hnone; simpl in Hnone; congruence.
    + congruence.
Qed.

Lemma first_focusable_child_takes_focus_witness :
  (∃ f, head (focusableComponents (addChild twoUnfocused (scene twoUnfocused) 4%nat))
        = Some f
        ∧ focusedComponent (addChild twoUnfocused (scene twoUnfocused) 4%nat) = Some f
        ∧ events (addChild twoUnfocused (scene twoUnfocused) 4%nat)
          = events twoUnfocused ++ [OnFocus f]
        ∧ focusableComponents (addChild twoUnfocused (scene twoUnfocused) 4%nat)
          ≡ₚ focusableComponents (afterDetach twoUnfocused 4%nat) ++ [4%nat]
        ∧ inTabOrder (nodes (addChild twoUnfocused (scene twoUnfocused) 4%nat))
            (focusableComponents (addChild twoUnfocused (scene twoUnfocused) 4%nat))
        ∧ ∀ x, x ∈ focusableComponents (addChild twoUnfocused (scene twoUnfocused) 4%nat) →
               compareIndex
                 (tabIndexOf (nodes (addChild twoUnfocused (scene twoUnfocused) 4%nat)) f)
                 (tabIndexOf (nodes (addChild twoUnfocused (scene twoUnfocused) 4%nat)) x)
               ≤ 0)
  ∧ focusableComponents twoUnfocused = [3; 2]%nat
  ∧ focusableComponents (addChild twoUnfocused (scene twoUnfocused) 4%nat)
    = [4; 3; 2]%nat
  ∧ focusedComponent (addChild twoUnfocused (scene twoUnfocused) 4%nat) = Some 4%nat
  ∧ (RemoveChild 0 2 = SetFocus None
     ∨ ((∃ this, RemoveChild 0 2 = RemoveChild this 2%nat
                 ∨ RemoveChild 0 2 = AddChild this 2%nat)
        ∧ focusableComponents (exec noHandler oneComponent (RemoveChild 0 2)) = [])).
Proof.
  assert (Hreg : focusableComponents twoUnfocused = [3; 2]%nat)
    by (vm_compute; reflexivity).
  split; [|split; [exact Hreg|split; [|split]]].
  - apply (proj1 (first_focusable_child_takes_focus noHandler twoUnfocused) 4%nat).
    + intros x Hx. rewrite Hreg in Hx.
      repeat (apply elem_of_cons in Hx as [->|Hx]; [vm_compute; reflexivity|]).
      by apply elem_of_nil in Hx.
    + vm_compute. reflexivity.
    + vm_compute. reflexivity.
  - vm_compute. reflexivity.
  - vm_compute. reflexivity.
  - apply (proj2 (first_focusable_child_takes_focus noHandler oneComponent)
             (RemoveChild 0 2) 2%nat).
    + vm_compute. reflexivity.
    + vm_compute. reflexivity.
Defined.


(** ** The tree under callbacks that redraw *)

Lemma io_bind_inv {A B} (m : io A) (f : A → io B) w b :
  m ≫= f = (w, Returned b) →
  ∃ w1 a w2, m = (w1, Returned a) ∧ f a = (w2, Returned b) ∧ w = w1 ++ w2.
Proof.
  destruct m as [w1 [a|e]]; unfold mbind, io_bind; [|done].
  destruct (f a) as [w2 r] eqn:E. intros [= <- ->]. by exists w1, a, w2.
Qed.

Lemma io_returned_bind {A B} (a : A) (f : A → io B) :
  (([], Returned a) : io A) ≫= f = f a.
Proof. apply io_ret_bind. Qed.

Lemma io_ret_inv {A} (a b : A) (w : list string) :
  (mret a : io A) = (w, Returned b) → a = b.
Proof. by intros [= _ ->]. Qed.

Lemma sameButDrawn_refl s : sameButDrawn s s.
Proof. by intros n. Qed.

Lemma sameButDrawn_trans s1 s2 s3 :
  sameButDrawn s1 s2 → sameButDrawn s2 s3 → sameButDrawn s1 s3.
Proof.
  intros H1 H2 n. destruct (H1 n) as (<- & <- & <-). apply H2.
Qed.

Lemma sameButDrawn_insert s1 s2 k nd1 nd2 :
  sameButDrawn s1 s2 →
  parent nd2 = parent nd1 → children nd2 = children nd1 → focus nd2 = focus nd1 →
  sameButDrawn (<[k := nd1]> s1) (<[k := nd2]> s2).
Proof.
  intros H Hp Hc Hf n. rewrite !lookup_total_insert. by case_decide.
Qed.

Lemma sameButDrawn_capabilities s s' : sameButDrawn s s' → sameCapabilities s s'.
Proof.
  intros H n. unfold isFocusable, tabIndexOf. by destruct (H n) as (_ & _ & ->).
Qed.

Lemma sameButDrawn_links s s' : sameButDrawn s s' → sameLinks s s'.
Proof. intros H n. by destruct (H n) as (-> & -> & _). Qed.

Lemma sameButDrawing_refl st : sameButDrawing st st.
Proof. by split; [apply sameButDrawn_refl|]. Qed.

Lemma sameButDrawing_trans st1 st2 st3 :
  sameButDrawing st1 st2 → sameButDrawing st2 st3 → sameButDrawing st1 st3.
Proof.
  intros (H1 & E1 & E2 & E3 & E4 & E5) (H1' & E1' & E2' & E3' & E4' & E5').
  split; [by eapply sameButDrawn_trans|]. repeat split; congruence.
Qed.

Ltac same_state :=
  split; [try done|cbn; repeat split; try done; try congruence].

Ltac same_fields H :=
  cbn; rewrite ?lookup_total_insert; repeat case_decide; cbn; try done;
  first [apply H | f_equal; apply H].

Lemma Node_removeChild_drawn s1 s2 this child :
  sameButDrawn s1 s2 →
  (Node_removeChild s2 this child).2 = (Node_removeChild s1 this child).2
  ∧ sameButDrawn (Node_removeChild s1 this child).1 (Node_removeChild s2 this child).1.
Proof.
  intros H. unfold Node_removeChild.
  destruct (H this) as (_ & -> & _).
  destruct (indexOf (children (s1 !!! this)) child) as [index|]; cbn [fst snd]; [|done].
  split; [done|].
  apply sameButDrawn_insert; [apply sameButDrawn_insert; [done|..]|..]; same_fields H.
Qed.

Lemma renderScene_drawn fuel s rootNode w s' :
  renderScene fuel s rootNode = (w, Returned s') → sameButDrawn s s'.
Proof.
  unfold renderScene. intros H.
  apply io_bind_inv in H as (w1 & [] & w2 & _ & H & _).
  apply io_bind_inv in H as (w3 & s1 & w4 & Hu & H & _).
  apply io_bind_inv in H as (w5 & [] & w6 & _ & H & _).
  apply io_ret_inv in H as <-.
  destruct (updateTransform fuel s rootNode) as [s2|] eqn:E; [|done].
  apply io_ret_inv in Hu as <-.
  apply updateTransform_onlyAbsolute in E. intros n. by rewrite (E n).
Qed.

Lemma redraw_drawn fuel st this w st' :
  redraw fuel st this = (w, Returned st') → sameButDrawing st st'.
Proof.
  unfold redraw. destruct (findScene fuel st this) as [[sc|]|]; [| |done].
  - intros H. apply io_bind_inv in H as (w1 & s & w2 & Hr & H & _).
    apply io_ret_inv in H as <-. apply renderScene_drawn in Hr.
    by split.
  - intros H. apply io_ret_inv in H as <-. apply sameButDrawing_refl.
Qed.

Lemma recolour_drawn (s : gmap id node) k c :
  sameButDrawn s (<[k := withColor (s !!! k) c]> s).
Proof. intros n. rewrite lookup_total_insert. by case_decide as E; [rewrite E|]. Qed.

Lemma buttonOnFocus_sets fuel buttons : callbackSets true (buttonOnFocus fuel buttons).
Proof.
  intros c st w st'. unfold buttonOnFocus, Button_onFocus.
  destruct (buttons c) as [b|].
  - intros H. apply redraw_drawn in H.
    eapply sameButDrawing_trans; [|exact H].
    split; [apply recolour_drawn|done].
  - intros H. apply io_ret_inv in H as <-. apply sameButDrawing_refl.
Qed.

Lemma buttonOnBlur_sets fuel buttons : callbackSets false (buttonOnBlur fuel buttons).
Proof.
  intros c st w st'. unfold buttonOnBlur, Button_onBlur.
  destruct (buttons c) as [b|].
  - intros H. apply redraw_drawn in H.
    eapply sameButDrawing_trans; [|exact H].
    split; [apply recolour_drawn|done].
  - intros H. apply io_ret_inv in H as <-. apply sameButDrawing_refl.
Qed.

Section DrawnFacts.

Variables componentOnFocus componentOnBlur : id → state → io state.
Hypothesis focusSets : callbackSets true componentOnFocus.
Hypothesis blurSets : callbackSets false componentOnBlur.


Lemma flagged_drawing st1 st2 c flag e :
  sameButDrawing st1 st2 →
  sameButDrawing
    (emit (withNodes st1 (<[c := withIsFocused (nodes st1 !!! c) flag]> (nodes st1))) e)
    (withNodes (emit st2 e)
       (<[c := withIsFocused (nodes (emit st2 e) !!! c) flag]> (nodes (emit st2 e)))).
Proof.
  intros (H & E1 & E2 & E3 & E4 & E5). split.
  - cbn. apply sameButDrawn_insert; try done; try apply H.
    cbn. by destruct (H c) as (_ & _ & ->).
  - cbn. repeat split; congruence.
Qed.

Lemma onFocusDrawn_sim st1 st2 c w r :
  sameButDrawing st1 st2 →
  onFocusDrawn componentOnFocus st2 c = (w, Returned r) →
  sameButDrawing (onFocus st1 c) r.
Proof.
  intros Hs. unfold onFocusDrawn, onFocus.
  destruct (sameButDrawn_capabilities _ _ (proj1 Hs) c) as [-> _].
  destruct (isFocusable (nodes st1) c).
  - intros H. apply focusSets in H.
    eapply sameButDrawing_trans; [|exact H]. by apply flagged_drawing.
  - intros H. by apply io_ret_inv in H as <-.
Qed.

Lemma onBlurDrawn_sim st1 st2 c w r :
  sameButDrawing st1 st2 →
  onBlurDrawn componentOnBlur st2 c = (w, Returned r) →
  sameButDrawing (onBlur st1 c) r.
Proof.
  intros Hs. unfold onBlurDrawn, onBlur.
  destruct (sameButDrawn_capabilities _ _ (proj1 Hs) c) as [-> _].
  destruct (isFocusable (nodes st1) c).
  - intros H. apply blurSets in H.
    eapply sameButDrawing_trans; [|exact H]. by apply flagged_drawing.
  - intros H. by apply io_ret_inv in H as <-.
Qed.

Lemma withFocusedComponent_drawing st1 st2 component :
  sameButDrawing st1 st2 →
  sameButDrawing (withFocusedComponent st1 component) (withFocusedComponent st2 component).
Proof. intros (H & E1 & E2 & E3 & E4 & E5). same_state. Qed.

Lemma setFocusDrawn_sim st1 st2 component w r :
  sameButDrawing st1 st2 →
  setFocusDrawn componentOnFocus componentOnBlur st2 component = (w, Returned r) →
  sameButDrawing (setFocus st1 component) r.
Proof.
  intros Hs H. unfold setFocusDrawn in H.
  apply io_bind_inv in H as (w1 & st2' & w2 & Hb & Hf & _).
  unfold setFocus.
  assert (Hs' : sameButDrawing
                  match focusedComponent st1 with
                  | Some f => onBlur st1 f
                  | None => st1
                  end st2').
  { pose proof Hs as (H0 & E1 & E2 & E3 & E4 & E5). rewrite E2 in Hb.
    destruct (focusedComponent st1) as [f|].
    - by apply (onBlurDrawn_sim _ st2 _ w1).
    - by apply io_ret_inv in Hb as <-. }
  apply (withFocusedComponent_drawing _ _ component) in Hs'.
  destruct component as [c|].
  - by apply (onFocusDrawn_sim _ _ _ w2 _ Hs').
  - by apply io_ret_inv in Hf as <-.
Qed.

Lemma Scene_removeChildDrawn_sim st1 st2 child w r :
  sameButDrawing st1 st2 →
  Scene_removeChildDrawn componentOnFocus componentOnBlur st2 child = (w, Returned r) →
  sameButDrawing (Scene_removeChild st1 child).1 r.1
  ∧ r.2 = (Scene_removeChild st1 child).2.
Proof.
  intros Hs. pose proof Hs as (H & E1 & E2 & E3 & E4 & E5).
  unfold Scene_removeChildDrawn, Scene_removeChild. rewrite E1, E2.
  destruct (Node_removeChild_drawn _ _ (scene st1) child H) as [Hr Hn].
  destruct (Node_removeChild (nodes st1) (scene st1) child) as [s1 removed1].
  destruct (Node_removeChild (nodes st2) (scene st1) child) as [s2 removed2].
  cbn [fst snd] in Hr, Hn. subst removed2.
  destruct removed1.
  2: { intros Hm. by apply io_ret_inv in Hm as <-. }
  cbn [focusableComponents withNodes nodes]. rewrite E3.
  intros Hm. apply io_bind_inv in Hm as (w1 & st3 & w2 & Hm & Hret & _).
  apply io_ret_inv in Hret as <-. cbn [fst snd]. split; [|done].
  set (st1' := match indexOf (focusableComponents st1) child with
               | Some index =>
                   withFocusableComponents (withNodes st1 s1)
                     (sortFocusableComponents s1
                        (splice1 index (focusableComponents st1)))
               | None => withNodes st1 s1
               end) in *.
  set (st2' := match indexOf (focusableComponents st1) child with
               | Some index =>
                   withFocusableComponents (withNodes st2 s2)
                     (sortFocusableComponents s2
                        (splice1 index (focusableComponents st1)))
               | None => withNodes st2 s2
               end) in *.
  assert (Hs' : sameButDrawing st1' st2').
  { unfold st1', st2'. destruct (indexOf (focusableComponents st1) child).
    - split; [done|]. cbn. repeat split; try done.
      apply sortFocusableComponents_ext. by apply sameButDrawn_capabilities.
    - by split. }
  destruct (bool_decide (focusedComponent st1 = Some child)).
  - destruct Hs' as (H' & E1' & E2' & E3' & E4' & E5'). rewrite E3' in Hm.
    apply (setFocusDrawn_sim _ st2' _ w1); [same_state|done].
  - by apply io_ret_inv in Hm as <-.
Qed.

Lemma removeChildDrawn_sim st1 st2 this child w r :
  sameButDrawing st1 st2 →
  removeChildDrawn componentOnFocus componentOnBlur st2 this child = (w, Returned r) →
  sameButDrawing (removeChild st1 this child).1 r.1
  ∧ r.2 = (removeChild st1 this child).2.
Proof.
  intros Hs. pose proof Hs as (H & E1 & E2 & E3 & E4 & E5).
  unfold removeChildDrawn, removeChild. rewrite E1.
  destruct (decide (this = scene st1)); [by apply Scene_removeChildDrawn_sim|].
  destruct (Node_removeChild_drawn _ _ this child H) as [Hr Hn].
  destruct (Node_removeChild (nodes st1) this child) as [s1 removed1].
  destruct (Node_removeChild (nodes st2) this child) as [s2 removed2].
  cbn [fst snd] in Hr, Hn. subst removed2.
  intros Hm. apply io_ret_inv in Hm as <-. cbn [fst snd]. split; [same_state|done].
Qed.

Lemma Node_addChildDrawn_sim st1 st2 this child w r :
  sameButDrawing st1 st2 →
  Node_addChildDrawn componentOnFocus componentOnBlur st2 this child = (w, Returned r) →
  sameButDrawing (Node_addChild st1 this child) r.
Proof.
  intros Hs. pose proof Hs as (H & E1 & E2 & E3 & E4 & E5).
  unfold Node_addChildDrawn, Node_addChild.
  destruct (H child) as (-> & _ & _).
  intros Hm. apply io_bind_inv in Hm as (w1 & st2' & w2 & Hm & Hret & _).
  apply io_ret_inv in Hret as <-.
  set (st1' := match parent (nodes st1 !!! child) with
               | Some p => (removeChild st1 p child).1
               | None => st1
               end).
  assert (Hs' : sameButDrawing st1' st2').
  { unfold st1'. destruct (parent (nodes st1 !!! child)) as [p|].
    - apply io_bind_inv in Hm as (w3 & r & w4 & Hm & Hret & _).
      apply io_ret_inv in Hret as <-.
      by apply (removeChildDrawn_sim _ _ _ _ _ _ Hs) in Hm as [? _].
    - by apply io_ret_inv in Hm as <-. }
  destruct Hs' as (H' & E1' & E2' & E3' & E4' & E5').
  split; [|cbn; repeat split; done].
  cbn [nodes withNodes].
  apply sameButDrawn_insert; [apply sameButDrawn_insert; [done|..]|..];
    same_fields H'.
Qed.

Lemma Scene_addChildDrawn_sim st1 st2 child w r :
  sameButDrawing st1 st2 →
  Scene_addChildDrawn componentOnFocus componentOnBlur st2 child = (w, Returned r) →
  sameButDrawing (Scene_addChild st1 child) r.
Proof.
  intros Hs. pose proof Hs as (H & E1 & E2 & E3 & E4 & E5).
  unfold Scene_addChildDrawn, Scene_addChild. rewrite E1.
  intros Hm. apply io_bind_inv in Hm as (w1 & st2' & w2 & Hm & Hrest & _).
  apply (Node_addChildDrawn_sim _ _ _ _ _ _ Hs) in Hm.
  set (st1' := Node_addChild st1 (scene st1) child) in *.
  pose proof Hm as (H' & E1' & E2' & E3' & E4' & E5').
  destruct (sameButDrawn_capabilities _ _ H' child) as [Hfoc _]. rewrite Hfoc in Hrest.
  destruct (isFocusable (nodes st1') child).
  2: { by apply io_ret_inv in Hrest as <-. }
  cbn [focusedComponent withFocusableComponents focusableComponents] in *.
  rewrite E2', E3' in Hrest.
  rewrite (sortFocusableComponents_ext _ _ _ (sameButDrawn_capabilities _ _ H')) in Hrest.
  assert (Hs2 : sameButDrawing
                  (withFocusableComponents st1'
                     (sortFocusableComponents (nodes st1')
                        (focusableComponents st1' ++ [child])))
                  (withFocusableComponents st2'
                     (sortFocusableComponents (nodes st1')
                        (focusableComponents st1' ++ [child])))).
  { same_state. }
  destruct (focusedComponent st1').
  - by apply io_ret_inv in Hrest as <-.
  - by apply (setFocusDrawn_sim _ _ _ w2 _ Hs2).
Qed.

Lemma addChildDrawn_sim st1 st2 this child w r :
  sameButDrawing st1 st2 →
  addChildDrawn componentOnFocus componentOnBlur st2 this child = (w, Returned r) →
  sameButDrawing (addChild st1 this child) r.
Proof.
  intros Hs. unfold addChildDrawn, addChild.
  destruct Hs as (H & E1 & E2). rewrite E1.
  destruct (decide (this = scene st1)).
  - by apply Scene_addChildDrawn_sim.
  - by apply Node_addChildDrawn_sim.
Qed.

Lemma execDrawn_linked st c w r :
  linked (nodes st) →
  execDrawn componentOnFocus componentOnBlur st c = (w, Returned r) →
  linked (nodes r).
Proof.
  intros HL. destruct c as [this child|this child]; cbn [execDrawn]; intros H.
  - apply (addChildDrawn_sim st) in H as [Hd _]; [|apply sameButDrawing_refl].
    eapply linked_sameLinks; [by apply (addChild_linked st this child)|].
    by apply sameButDrawn_links.
  - apply io_bind_inv in H as (w1 & p & w2 & H & Hret & _).
    apply io_ret_inv in Hret as <-.
    apply (removeChildDrawn_sim st) in H as [[Hd _] _]; [|apply sameButDrawing_refl].
    eapply linked_sameLinks; [by apply (removeChild_linked st this child)|].
    by apply sameButDrawn_links.
Qed.

Lemma runDrawn_linked cs : ∀ st w r,
  linked (nodes st) →
  runDrawn componentOnFocus componentOnBlur st cs = (w, Returned r) →
  linked (nodes r).
Proof.
  induction cs as [|c cs IH]; intros st w r HL; cbn [runDrawn].
  - intros H. by apply io_ret_inv in H as <-.
  - intros H. apply io_bind_inv in H as (w1 & st' & w2 & He & Hr & _).
    eapply IH; [|exact Hr]. by eapply execDrawn_linked.
Qed.

End DrawnFacts.

Lemma removeChildDrawn_unfocused componentOnFocus componentOnBlur st this child :
  focusedComponent st ≠ Some child →
  removeChildDrawn componentOnFocus componentOnBlur st this child
  = ([], Returned (removeChild st this child)).
Proof.
  intros Hf.
  unfold removeChildDrawn, removeChild, Scene_removeChildDrawn, Scene_removeChild.
  rewrite bool_decide_eq_false_2 by done.
  destruct (decide (this = scene st)).
  - by destruct (Node_removeChild (nodes st) (scene st) child) as [s1 [|]].
  - by destruct (Node_removeChild (nodes st) this child) as [s1 removed].
Qed.

Lemma Node_addChildDrawn_unfocused componentOnFocus componentOnBlur st this child :
  focusedComponent st ≠ Some child →
  Node_addChildDrawn componentOnFocus componentOnBlur st this child
  = ([], Returned (Node_addChild st this child)).
Proof.
  intros Hf. unfold Node_addChildDrawn, Node_addChild.
  destruct (parent (nodes st !!! child)) as [p|]; [|done].
  by rewrite removeChildDrawn_unfocused.
Qed.

Lemma addChildDrawn_unfocused componentOnFocus componentOnBlur st this child :
  focusedComponent st ≠ Some child →
  this ≠ scene st ∨ focusedComponent st ≠ None →
  addChildDrawn componentOnFocus componentOnBlur st this child
  = ([], Returned (addChild st this child)).
Proof.
  intros Hf Hor. unfold addChildDrawn, addChild.
  destruct (decide (this = scene st)) as [->|]; [|by apply Node_addChildDrawn_unfocused].
  destruct Hor as [|Hsome]; [done|].
  unfold Scene_addChildDrawn, Scene_addChild.
  rewrite Node_addChildDrawn_unfocused, io_returned_bind by done.
  destruct (isFocusable _ child); [|done].
  cbn [focusedComponent withFocusableComponents].
  destruct (Node_addChild_spec st (scene st) child) as (_ & _ & _ & _ & -> & _).
  destruct (afterDetach_unfocused st child Hf) as [-> _].
  by destruct (focusedComponent st).
Qed.

Lemma returns_ret {A} (a : A) : returns (mret a : io A).
Proof. by exists [], a. Qed.

Lemma returns_bind {A B} (m : io A) (f : A → io B) :
  returns m → (∀ a, returns (f a)) → returns (m ≫= f).
Proof.
  intros (w & a & ->) Hf. destruct (Hf a) as (w' & b & Hb).
  exists (w ++ w'), b. unfold mbind, io_bind. by rewrite Hb.
Qed.

Section DrawnReturns.

Variables componentOnFocus componentOnBlur : id → state → io state.
Hypothesis focusReturns : callbackReturns componentOnFocus.
Hypothesis blurReturns : callbackReturns componentOnBlur.

Lemma setFocusDrawn_returns st component :
  returns (setFocusDrawn componentOnFocus componentOnBlur st component).
Proof.
  unfold setFocusDrawn, onFocusDrawn, onBlurDrawn. apply returns_bind.
  - destruct (focusedComponent st) as [f|]; [|apply returns_ret].
    destruct (isFocusable _ f); [apply blurReturns|apply returns_ret].
  - intros st1. destruct component as [c|]; [|apply returns_ret].
    destruct (isFocusable _ c); [apply focusReturns|apply returns_ret].
Qed.

Lemma removeChildDrawn_returns st this child :
  returns (removeChildDrawn componentOnFocus componentOnBlur st this child).
Proof.
  unfold removeChildDrawn, Scene_removeChildDrawn.
  destruct (decide (this = scene st)).
  - destruct (Node_removeChild (nodes st) (scene st) child) as [s1 [|]];
      [|apply returns_ret].
    apply returns_bind; [|intros; apply returns_ret].
    destruct (bool_decide _); [apply setFocusDrawn_returns|apply returns_ret].
  - destruct (Node_removeChild (nodes st) this child) as [s1 removed].
    apply returns_ret.
Qed.

Lemma addChildDrawn_returns st this child :
  returns (addChildDrawn componentOnFocus componentOnBlur st this child).
Proof.
  assert (HN : ∀ this, returns (Node_addChildDrawn componentOnFocus componentOnBlur
                                  st this child)).
  { intros this'. unfold Node_addChildDrawn.
    apply returns_bind; [|intros; apply returns_ret].
    destruct (parent (nodes st !!! child)) as [p|]; [|apply returns_ret].
    apply returns_bind; [apply removeChildDrawn_returns|intros; apply returns_ret]. }
  unfold addChildDrawn, Scene_addChildDrawn.
  destruct (decide (this = scene st)); [|apply HN].
  apply returns_bind; [apply HN|]. intros st1.
  destruct (isFocusable (nodes st1) child); [|apply returns_ret].
  destruct (focusedComponent _); [apply returns_ret|apply setFocusDrawn_returns].
Qed.

End DrawnReturns.




(** ** Instances of the further properties *)

Lemma decode_plain_prefix_witness :
  Decoder._handleInput ("ab" ++ (Str.ESC ++ "[A"))
  = (λ keys, literals "ab" ++ keys) <$> Decoder._handleInput (Str.ESC ++ "[A").
Proof.
  apply decode_plain_prefix. cbn. repeat split; discriminate.
Defined.

Lemma decode_sequence_then_rest_witness :
  Decoder._handleInput ((Str.ESC ++ "[A") ++ "x")
  = (λ keys, "up"%string :: keys) <$> Decoder._handleInput "x".
Proof.
  apply decode_sequence_then_rest.
  - by compute_done.
  - vm_compute. discriminate.
  - vm_compute. discriminate.
Defined.

Lemma Rectangle_render_filled_witness :
  Rectangle_render (newNode (0, 0) Group None) (2, 1) (0, 0, 0) true
  = (KittyUtil.moveCursor (0 + 1) (0 + 1)
       :: concat (map (filledRow 0 0 2 (0, 0, 0)) (seqZ 0 1)),
     Returned tt)
  ∧ Rectangle_render (newNode (0, 0) Group None) (-1, 1) (0, 0, 0) true
    = ([ KittyUtil.moveCursor (0 + 1) (0 + 1);
         KittyUtil.moveCursor (0 + 0 + 1) (0 + 1);
         KittyUtil.setBackgroundColor 0 0 0 ],
       Failed RangeError).
Proof.
  split.
  - apply (proj1 (Rectangle_render_filled (newNode (0, 0) Group None) 2 1 (0, 0, 0))).
    lia.
  - apply (proj2 (Rectangle_render_filled (newNode (0, 0) Group None) (-1) 1 (0, 0, 0)));
      lia.
Defined.

Lemma Rectangle_render_outlined_witness :
  Rectangle_render (newNode (0, 0) Group None) (2, 3) (0, 0, 0) false
  = ([ KittyUtil.moveCursor (0 + 1) (0 + 1);
       KittyUtil.setForegroundColor 0 0 0;
       KittyUtil.moveCursor (0 + 1) (0 + 1);
       borderLine 2 ]
     ++ concat (map (sideRow 0 0 2) (seqZ 1 (3 - 2)))
     ++ [ KittyUtil.moveCursor (0 + 3) (0 + 1);
          borderLine 2;
          KittyUtil.resetColors ],
     Returned tt)
  ∧ Rectangle_render (newNode (0, 0) Group None) (0, 3) (0, 0, 0) false
    = ([ KittyUtil.moveCursor (0 + 1) (0 + 1);
         KittyUtil.setForegroundColor 0 0 0;
         KittyUtil.moveCursor (0 + 1) (0 + 1) ],
       Failed RangeError).
Proof.
  split.
  - apply (proj1 (Rectangle_render_outlined (newNode (0, 0) Group None) 2 3 (0, 0, 0))).
    lia.
  - apply (proj2 (Rectangle_render_outlined (newNode (0, 0) Group None) 0 3 (0, 0, 0))).
    lia.
Defined.

Lemma updateTransform_changes_absolute_only_witness :
  ∃ s', updateTransform 3 exampleStore 0%nat = Some s'
        ∧ ∀ n, position (s' !!! n) = position (exampleStore !!! n)
               ∧ parent (s' !!! n) = parent (exampleStore !!! n)
               ∧ children (s' !!! n) = children (exampleStore !!! n)
               ∧ visible (s' !!! n) = visible (exampleStore !!! n)
               ∧ draws (s' !!! n) = draws (exampleStore !!! n)
               ∧ focus (s' !!! n) = focus (exampleStore !!! n).
Proof.
  eexists. split; [vm_compute; reflexivity|].
  apply (updateTransform_changes_absolute_only 3 exampleStore _ 0%nat).
  vm_compute. reflexivity.
Defined.

Lemma updateTransform_below_parent_witness :
  ∃ s', updateTransform (height (Tree 5 [Tree 6 []])) exampleStore 5%nat = Some s'
        ∧ (∀ m path, pathTo (Tree 5 [Tree 6 []]) m path →
                     absolutePosition (s' !!! m)
                     = addPos (absolutePosition (exampleStore !!! 0%nat))
                         (sumOfOffsets exampleStore path))
        ∧ (∀ m, m ∉ ids (Tree 5 [Tree 6 []]) →
                absolutePosition (s' !!! m) = absolutePosition (exampleStore !!! m)).
Proof.
  apply (updateTransform_below_parent exampleStore (Tree 5 [Tree 6 []]) 0%nat).
  - repeat (constructor; try (vm_compute; reflexivity)).
  - by compute_done.
  - by compute_done.
Defined.

Lemma updateTransform_never_returns_on_cycle_witness :
  childOf (nodes (addChild exampleScene 5%nat 5%nat)) 5%nat 5%nat
  ∧ updateTransform 10 (nodes (addChild exampleScene 5%nat 5%nat)) 5%nat = None
  ∧ renderScene 10 (nodes (addChild exampleScene 5%nat 5%nat)) 5%nat
    = ([KittyUtil.clearScreen], Failed OutOfFuel).
Proof.
  destruct updateTransform_never_returns_on_cycle as [Hself Hcycle].
  split; [apply Hself|]. apply Hcycle.
  exists 5%nat, 5%nat. split; [apply rtc_refl|]. split; [apply Hself|apply rtc_refl].
Defined.

Lemma renderScene_draws_in_preorder_witness :
  ∃ s', updateTransform (height exampleTree) exampleStore (rootOf exampleTree) = Some s'
        ∧ renderScene (height exampleTree) exampleStore (rootOf exampleTree)
          = (KittyUtil.clearScreen
               :: concat (map (λ n, (render (s' !!! n)).1) (ids exampleTree)),
             Returned s')
        ∧ (∀ m path, pathTo exampleTree m path →
                     absolutePosition (s' !!! m) = sumOfOffsets exampleStore path).
Proof.
  apply renderScene_draws_in_preorder.
  - repeat (constructor; try (vm_compute; reflexivity)).
  - by compute_done.
  - intros n Hn.
    repeat (apply elem_of_cons in Hn as [->|Hn]; [vm_compute; reflexivity|]).
    by apply elem_of_nil in Hn.
Defined.

Lemma renderScene_stops_at_RangeError_witness :
  ∃ s', updateTransform (height (Tree 0 [Tree 1 []])) negativeStore 0%nat = Some s'
        ∧ renderScene (height (Tree 0 [Tree 1 []])) negativeStore 0%nat
          = (KittyUtil.clearScreen
               :: concat (map (λ m, (render (s' !!! m)).1) [0%nat])
               ++ (render (s' !!! 1%nat)).1,
             Failed RangeError).
Proof.
  apply (renderScene_stops_at_RangeError negativeStore (Tree 0 [Tree 1 []])
           [0%nat] 1%nat []).
  - repeat (constructor; try (vm_compute; reflexivity)).
  - by compute_done.
  - reflexivity.
  - intros m Hm.
    repeat (apply elem_of_cons in Hm as [->|Hm]; [vm_compute; reflexivity|]).
    by apply elem_of_nil in Hm.
  - vm_compute. reflexivity.
Defined.

Lemma registry_is_focusable_children_witness :
  let st := run noHandler detachedComponents [AddChild 0 2; AddChild 0 3]%nat in
  NoDup (focusableComponents st)
  ∧ (∀ x, x ∈ focusableComponents st
          ↔ x ∈ children (nodes st !!! scene st) ∧ isFocusable (nodes st) x = true)
  ∧ inTabOrder (nodes st) (focusableComponents st).
Proof.
  apply (registry_is_focusable_children noHandler detachedComponents).
  - intros n. unfold detachedComponents. simpl.
    rewrite !lookup_total_insert. repeat case_decide; try done.
    unfold lookup_total, map_lookup_total. rewrite lookup_singleton.
    by case_decide.
  - reflexivity.
Defined.

Lemma focus_flag_follows_focus_witness :
  let st := run noHandler detachedComponents [AddChild 0 2; AddChild 0 3]%nat in
  (∀ n, flagged (nodes st) n = true
        ↔ focusedComponent st = Some n ∧ isFocusable (nodes st) n = true)
  ∧ (flagged (nodes st) 2%nat = true → flagged (nodes st) 3%nat = true → 2%nat = 3%nat).
Proof.
  destruct (focus_flag_follows_focus noHandler detachedComponents
              [AddChild 0 2; AddChild 0 3]%nat) as [Hflag Hone].
  - intros n. unfold flagged, detachedComponents. simpl.
    rewrite !lookup_total_insert. repeat case_decide; try done.
    unfold lookup_total, map_lookup_total. rewrite lookup_singleton.
    by case_decide.
  - reflexivity.
  - split; [exact Hflag|apply Hone].
Defined.

Lemma setFocus_callbacks_witness :
  events (setFocus twoComponents (Some 2%nat))
  = events twoComponents ++ [OnBlur 2%nat; OnFocus 2%nat]
  ∧ flagged (nodes (setFocus twoComponents (Some 2%nat))) 2%nat = true.
Proof.
  apply (proj2 (proj2 (setFocus_callbacks twoComponents (Some 2%nat))) 2%nat).
  - vm_compute. reflexivity.
  - reflexivity.
  - vm_compute. reflexivity.
Defined.

Lemma global_handler_registration_witness :
  unregisterGlobalHandler (newManager None) "q" 7%nat = newManager None
  ∧ handlersFor
      (unregisterGlobalHandler (registerGlobalHandler (newManager None) "q" 7%nat)
         "q" 7%nat) "q"
    = handlersFor (newManager None) "q".
Proof.
  destruct (global_handler_registration (newManager None) "q" 7%nat)
    as (_ & Habsent & _ & Hback).
  assert (H : 7%nat ∉ handlersFor (newManager None) "q")
    by (vm_compute; apply not_elem_of_nil).
  split; [by apply Habsent|by apply Hback].
Defined.

Lemma TextInput_cursor_in_value_witness :
  let ti := afterEvents clearingHandlers
              (TextInput.new (20, 3) (50, 50, 70) (255, 255, 255) (70, 70, 100)
                 "name" "ab" true)
              [Focus; Key "x"; Key "enter"; Key "y"; Blur] in
  cursorInValue ti
  ∧ Z.of_nat (String.length (TextInput.value ti)) ≤ Z.max 2 (20 - 3).
Proof.
  apply (proj1 TextInput_cursor_in_value clearingHandlers (20, 3)
           (50, 50, 70) (255, 255, 255) (70, 70, 100) "name" "ab" true
           [Focus; Key "x"; Key "enter"; Key "y"; Blur]).
  intros key handler ti Hh (Hc & Hs & Hb). unfold clearingHandlers in Hh.
  destruct (String.eqb key "enter"); [|discriminate].
  injection Hh as <-. unfold withinCapacity, cursorInValue. cbn.
  split; [lia|]. split; [exact Hs|lia].
Defined.

Lemma TextInput_display_follows_state_witness :
  let ti := afterEvents ChatUi.keyboardHandlers (ChatUi.messageInput 80)
              [Focus; Key "h"; Key "i"; Key "enter"; Key "left"] in
  displayed ti ∧ focusShown ti.
Proof.
  apply (TextInput_display_follows_state ChatUi.keyboardHandlers (80 - 12, 1)
           (50, 50, 70) (255, 255, 255) (70, 70, 100) "Enter your message"
           EmptyString false [Focus; Key "h"; Key "i"; Key "enter"; Key "left"]).
  intros key handler ti Hh Hshown. unfold ChatUi.keyboardHandlers in Hh.
  destruct (String.eqb key "enter"); [|discriminate].
  injection Hh as <-. cbn [fst]. unfold ChatUi.sendMessage.
  destruct (String.eqb (TextInput.value ti) EmptyString); [exact Hshown|].
  destruct Hshown as [Hd Hf]. split; [done|exact Hf].
Defined.

Lemma TextInput_insert_then_backspace_witness :
  let typed := (TextInput.handleKey noHandlers exampleInput "x").1 in
  let erased := (TextInput.handleKey noHandlers typed "backspace").1 in
  TextInput.value typed
  = insertedAt (Z.to_nat (TextInput.cursorPos exampleInput)) "x"
      (TextInput.value exampleInput)
  ∧ TextInput.cursorPos typed = TextInput.cursorPos exampleInput + 1
  ∧ TextInput.value erased = TextInput.value exampleInput
  ∧ TextInput.cursorPos erased = TextInput.cursorPos exampleInput.
Proof.
  apply (TextInput_insert_then_backspace noHandlers exampleInput "x").
  - reflexivity.
  - unfold cursorInValue. cbn. lia.
  - reflexivity.
  - cbn. lia.
  - discriminate.
  - discriminate.
Defined.

Lemma TextInput_types_plain_chunk_witness :
  ∃ keys, Decoder._handleInput "hi" = Some keys
    ∧ TextInput.value (typeKeys noHandlers exampleInput keys)
      = insertedAt (Z.to_nat (TextInput.cursorPos exampleInput)) "hi"
          (TextInput.value exampleInput)
    ∧ TextInput.cursorPos (typeKeys noHandlers exampleInput keys)
      = TextInput.cursorPos exampleInput + Z.of_nat (String.length "hi").
Proof.
  apply (TextInput_types_plain_chunk noHandlers exampleInput "hi").
  - reflexivity.
  - unfold cursorInValue. cbn. lia.
  - cbn. repeat split; discriminate.
  - intros key _. discriminate.
  - cbn. lia.
Defined.

Lemma TextInput_no_space_typed_witness :
  ∃ keys, Decoder._handleInput "a b" = Some keys
    ∧ Forall (λ key, key ≠ " "%string) keys
    ∧ noSpace (TextInput.value (typeKeysWith ChatUi.keyboardHandlers exampleInput keys)).
Proof.
  apply (TextInput_no_space_typed ChatUi.keyboardHandlers exampleInput "a b").
  - intros key handler ti Hh Hn. unfold ChatUi.keyboardHandlers in Hh.
    destruct (String.eqb key "enter"); [|discriminate].
    injection Hh as <-. cbn [fst]. unfold ChatUi.sendMessage.
    destruct (String.eqb (TextInput.value ti) EmptyString); [exact Hn|exact I].
  - cbn. repeat split; discriminate.
Defined.

Lemma TextInput_ignores_other_tokens_witness :
  TextInput.handleKey noHandlers exampleInput "enter" = (exampleInput, false).
Proof.
  apply (TextInput_ignores_other_tokens noHandlers exampleInput Str.CR "enter").
  - by compute_done.
  - by compute_done.
  - discriminate.
Defined.

Lemma TextInput_onChange_on_new_value_witness :
  let asked := (afterHandler ChatUi.keyboardHandlers exampleInput "x").1 in
  let ti' := (TextInput.handleKeyWith ChatUi.keyboardHandlers exampleInput "x").1 in
  TextInput.changes ti'
  = TextInput.changes asked
    ++ (if TextInput.onChange asked
           && negb (String.eqb (TextInput.value ti') (TextInput.value asked))
        then [TextInput.value ti'] else []).
Proof.
  apply (TextInput_onChange_on_new_value ChatUi.keyboardHandlers exampleInput "x").
  unfold cursorInValue. cbn. lia.
Defined.

Lemma Button_clicks_per_activating_character_witness :
  ∃ keys, Decoder._handleInput "a b" = Some keys
    ∧ Button.clicks (pressKeys exampleButton keys)
      = (Button.clicks exampleButton
         + (if Button.isFocused exampleButton && Button.onClick exampleButton
            then countActivating "a b" else 0))%nat.
Proof.
  apply (Button_clicks_per_activating_character exampleButton "a b").
  cbn. repeat split; discriminate.
Defined.

Lemma findScene_nearest_scene_witness :
  findScene 2 (addChild exampleScene 0%nat 5%nat) 6%nat
  = Some (if bool_decide (scene (addChild exampleScene 0%nat 5%nat)
                          ∈ [0%nat; 5%nat; 6%nat])
          then Some (scene (addChild exampleScene 0%nat 5%nat)) else None).
Proof.
  apply (findScene_nearest_scene (addChild exampleScene 0%nat 5%nat) exampleTree).
  - repeat (constructor; try (vm_compute; reflexivity)).
  - apply (pathTo_kid _ _ (Tree 5 [Tree 6 []])); [rewrite !elem_of_cons; auto|].
    apply (pathTo_kid _ _ (Tree 6 [])); [rewrite !elem_of_cons; auto|]. constructor.
  - cbn. lia.
Defined.

Lemma TabContainer_shows_active_tab_witness :
  let p := TabContainer.new detachedContents 1 2 3 4 (0, 0) (40, 20) 3
             (40, 40, 60) (60, 60, 100) (50, 50, 80) in
  ∃ st' tc',
    tabRun noContentHandler p (twoTabs ++ [SetActiveTab 1; PressKey "tab"])
    = Some (st', tc')
    ∧ activeInRange tc'
    ∧ activeShown st' tc'.
Proof.
  apply (TabContainer_shows_active_tab noContentHandler detachedContents).
  - apply allDetached_linked. intros n. unfold detachedContents. simpl.
    rewrite !lookup_total_insert. repeat case_decide; try done.
    unfold lookup_total, map_lookup_total. rewrite lookup_singleton.
    by case_decide.
  - split; [by compute_done|]. intros n Hn.
    repeat (apply elem_of_cons in Hn as [->|Hn]; [vm_compute; reflexivity|]).
    by apply elem_of_nil in Hn.
  - cbn [twoTabs app createsNew tabExec fst snd]. split.
    { split; [by compute_done|]. intros n Hn.
      repeat (apply elem_of_cons in Hn as [->|Hn]; [vm_compute; reflexivity|]).
      by apply elem_of_nil in Hn. }
    split.
    { split; [by compute_done|]. intros n Hn.
      repeat (apply elem_of_cons in Hn as [->|Hn]; [vm_compute; reflexivity|]).
      by apply elem_of_nil in Hn. }
    split; [done|]. vm_compute. done.
Defined.

Lemma TabContainer_tab_key_cycles_witness :
  ∃ st' tc',
    TabContainer.handleKey noContentHandler exampleTabs.1 exampleTabs.2 "tab"
    = Some (st', tc', bool_decide ("tab"%string = "tab"%string))
    ∧ TabContainer.tabs tc' = TabContainer.tabs exampleTabs.2
    ∧ TabContainer.activeTabIndex tc'
      = (if bool_decide ("tab"%string = "tab"%string
                         ∧ TabContainer.tabs exampleTabs.2 ≠ [])
         then (TabContainer.activeTabIndex exampleTabs.2 + 1)
              `mod` Z.of_nat (length (TabContainer.tabs exampleTabs.2))
         else TabContainer.activeTabIndex exampleTabs.2)
    ∧ ("tab"%string ≠ "tab"%string ∨ TabContainer.tabs exampleTabs.2 = [] →
       st' = exampleTabs.1 ∧ tc' = exampleTabs.2).
Proof.
  apply (TabContainer_tab_key_cycles noContentHandler exampleTabs.1 exampleTabs.2 "tab").
  - split; [vm_compute; discriminate|]. left. vm_compute. reflexivity.
  - intros activeTab answer _ Hno. discriminate Hno.
Defined.
